(** * REXX control-flow extractor: a shallow embedding of [parser.js]

    The development follows the source file function by function:
    string helpers ([normalizeLabel], [collapse]), the comment stripper,
    the statement splitter, a small backtracking matcher for the two
    regular expressions of the parser, the graph builder ([upsertNode],
    [addEdge]), the line driver ([parseRexxControlFlow]) and the DOT
    serializer ([toDot], [escapeDot]).

    Modelling choices.
    - Source text is a [string] of 8-bit characters read as ASCII: case
      mapping touches the letters a-z only and white space is the six
      ASCII white-space characters.
    - The [Map] of nodes is an association list in insertion order; the
      [Set] of edge keys is a [gset string]; the edge array is a list.
    - Line numbers are integers ([Z]); string positions are [nat].
    - [String.prototype.localeCompare] is supplied by the host: it is a
      parameter of [parseRexxControlFlow]. *)

From Stdlib Require Import ZArith Ascii String List Lia Bool.
From stdpp Require Import gmap strings list sorting.
Import ListNotations.

(** ** Characters *)

Definition LF : ascii := "010"%char.
Definition CR : ascii := "013"%char.
Definition SP : ascii := " "%char.
Definition DQUOTE : ascii := "034"%char.
Definition SQUOTE : ascii := "'"%char.
Definition BACKSLASH : ascii := "092"%char.

Definition in_range (lo hi : nat) (c : ascii) : bool :=
  let n := nat_of_ascii c in (lo <=? n)%nat && (n <=? hi)%nat.

Definition is_upper (c : ascii) : bool := in_range 65 90 c.
Definition is_lower (c : ascii) : bool := in_range 97 122 c.
Definition is_digit (c : ascii) : bool := in_range 48 57 c.

(** The class [\s] of regular expressions, which is also the set of
    characters removed by [String.prototype.trim]. *)
Definition is_space (c : ascii) : bool :=
  in_range 9 13 c || Ascii.eqb c SP.

(** The class [\w]. *)
Definition is_word (c : ascii) : bool :=
  is_upper c || is_lower c || is_digit c || Ascii.eqb c "_"%char.

(** The class [.] (no [s] flag): everything but a line terminator. *)
Definition is_dot (c : ascii) : bool :=
  negb (Ascii.eqb c LF || Ascii.eqb c CR).

(** The symbol characters of [[_.$!?@#]]. *)
Definition is_symbol (c : ascii) : bool :=
  existsb (Ascii.eqb c) ["_"; "."; "$"; "!"; "?"; "@"; "#"]%char.

(** [[A-Za-z0-9_.$!?@#]], the identifier class of the label pattern. *)
Definition is_label_char (c : ascii) : bool :=
  is_upper c || is_lower c || is_digit c || is_symbol c.

(** [[A-Z0-9_.$!?@#]], the identifier class of the call pattern. *)
Definition is_target_char (c : ascii) : bool :=
  is_upper c || is_digit c || is_symbol c.

Definition upper_char (c : ascii) : ascii :=
  if is_lower c then ascii_of_nat (nat_of_ascii c - 32) else c.

(** ** Strings *)

Definition str1 (c : ascii) : string := String c EmptyString.

Fixpoint str_map (f : ascii -> ascii) (s : string) : string :=
  match s with
  | EmptyString => EmptyString
  | String c s' => String (f c) (str_map f s')
  end.

Fixpoint str_forall (p : ascii -> bool) (s : string) : bool :=
  match s with
  | EmptyString => true
  | String c s' => p c && str_forall p s'
  end.

Definition str_head (s : string) : option ascii :=
  match s with
  | EmptyString => None
  | String c _ => Some c
  end.

Fixpoint str_drop (n : nat) (s : string) : string :=
  match n, s with
  | O, _ => s
  | S n', String _ s' => str_drop n' s'
  | S _, EmptyString => EmptyString
  end.

Fixpoint str_take (n : nat) (s : string) : string :=
  match n, s with
  | S n', String c s' => String c (str_take n' s')
  | _, _ => EmptyString
  end.

Definition is_empty (s : string) : bool :=
  match s with
  | EmptyString => true
  | String _ _ => false
  end.

(** [Array.prototype.join]. *)
Fixpoint join (sep : string) (l : list string) : string :=
  match l with
  | [] => EmptyString
  | [x] => x
  | x :: rest => x +:+ sep +:+ join sep rest
  end.

Definition toUpperCase (s : string) : string := str_map upper_char s.

Fixpoint trimStart (s : string) : string :=
  match s with
  | EmptyString => EmptyString
  | String c s' => if is_space c then trimStart s' else s
  end.

Fixpoint trimEnd (s : string) : string :=
  match s with
  | EmptyString => EmptyString
  | String c s' =>
      let t := trimEnd s' in
      if is_empty t && is_space c then EmptyString else String c t
  end.

Definition trim (s : string) : string := trimEnd (trimStart s).

(** [text.replace(/\s+/g, " ")]: every maximal run of white space becomes
    one space.  [in_run] tells that the previous character was white. *)
Fixpoint replace_ws_runs (in_run : bool) (s : string) : string :=
  match s with
  | EmptyString => EmptyString
  | String c s' =>
      if is_space c
      then (if in_run then replace_ws_runs true s'
            else String SP (replace_ws_runs true s'))
      else String c (replace_ws_runs false s')
  end.

(** [normalizeLabel(label)]: [String(label).trim().toUpperCase()]. *)
Definition normalizeLabel (label : string) : string :=
  toUpperCase (trim label).

(** [collapse(text)]: [String(text || "").replace(/\s+/g, " ").trim()]. *)
Definition collapse (text : string) : string :=
  trim (replace_ws_runs false text).

(** [source.split(/\r?\n/)]: a line ends at a line feed, and a carriage
    return right before that line feed belongs to the separator. *)
Fixpoint split_lines (s : string) : list string :=
  match s with
  | EmptyString => [EmptyString]
  | String c s' =>
      let rest := split_lines s' in
      if Ascii.eqb c LF then EmptyString :: rest
      else if Ascii.eqb c CR && bool_decide (str_head s' = Some LF) then rest
      else match rest with
           | l :: ls => String c l :: ls
           | [] => [str1 c]
           end
  end.

(** ** Comment stripper *)

(** [stripComments(line, state)]: the pair is the stripped line and the
    block-comment flag after the line.  The loop looks at the two
    characters at [i]; on a marker it skips both. *)
Fixpoint stripComments (line : string) (inBlockComment : bool) : string * bool :=
  match line with
  | EmptyString => (EmptyString, inBlockComment)
  | String c tl =>
      match tl with
      | String d tl' =>
          if negb inBlockComment && Ascii.eqb c "/"%char && Ascii.eqb d "*"%char
          then stripComments tl' true
          else if inBlockComment && Ascii.eqb c "*"%char && Ascii.eqb d "/"%char
          then stripComments tl' false
          else if negb inBlockComment
          then let '(r, b) := stripComments tl inBlockComment in (String c r, b)
          else stripComments tl inBlockComment
      | EmptyString =>
          if negb inBlockComment then (str1 c, inBlockComment)
          else (EmptyString, inBlockComment)
      end
  end.

(** ** Statement splitter *)

Definition push_stmt (out : list string) (current : string) : list string :=
  let stmt := collapse current in
  if is_empty stmt then out else out ++ [stmt].

(** The loop of [splitStatements] over the remaining text, with its three
    locals [out], [current] and [quote]. *)
Fixpoint split_loop (text : string) (out : list string) (current : string)
    (quote : option ascii) : list string :=
  match text with
  | EmptyString => push_stmt out current
  | String ch text' =>
      match quote with
      | Some q =>
          split_loop text' out (current +:+ str1 ch)
            (if Ascii.eqb ch q then None else Some q)
      | None =>
          if Ascii.eqb ch SQUOTE || Ascii.eqb ch DQUOTE
          then split_loop text' out (current +:+ str1 ch) (Some ch)
          else if Ascii.eqb ch ";"%char
          then split_loop text' (push_stmt out current) EmptyString None
          else split_loop text' out (current +:+ str1 ch) None
      end
  end.

Definition splitStatements (text : string) : list string :=
  split_loop text [] EmptyString None.

(** ** Regular expressions

    The two patterns of the parser are written in a small syntax and run
    by a backtracking matcher with the priorities of the JavaScript
    engine: alternatives left to right, quantifiers greedy.  Quantifiers
    are needed over single character classes only. *)

Inductive regex : Type :=
| Eps                                 (* the empty pattern *)
| Chr (c : ascii)                     (* one literal character *)
| Cls (p : ascii -> bool)             (* one character of a class *)
| Seq (r1 r2 : regex)
| Alt (r1 r2 : regex)                 (* r1|r2 *)
| Star (p : ascii -> bool)            (* c*, greedy *)
| Plus (p : ascii -> bool)            (* c+, greedy *)
| Grp (n : nat) (r : regex)           (* capture group number n *)
| WordB                               (* \b *)
| Bol                                 (* ^ without the m flag *)
| Eol.                                (* $ without the m flag *)

Fixpoint Lit (s : string) : regex :=
  match s with
  | EmptyString => Eps
  | String c s' => Seq (Chr c) (Lit s')
  end.

(** A position in the subject: its index, the character before it and
    the text from it on. *)
Record cursor : Type := Cursor {
  c_pos : nat;
  c_prev : option ascii;
  c_rest : string
}.

(** Captures, most recent first. *)
Definition captures : Type := list (nat * string).

Fixpoint group (n : nat) (caps : captures) : option string :=
  match caps with
  | [] => None
  | (m, s) :: rest => if (n =? m)%nat then Some s else group n rest
  end.

Definition cont : Type := cursor -> captures -> option (cursor * captures).

Definition is_word_opt (o : option ascii) : bool :=
  match o with
  | Some c => is_word c
  | None => false
  end.

Definition at_word_boundary (cur : cursor) : bool :=
  xorb (is_word_opt (c_prev cur)) (is_word_opt (str_head (c_rest cur))).

(** Greedy iteration of a class: the longest run first, then shorter. *)
Fixpoint star (p : ascii -> bool) (pos : nat) (prev : option ascii)
    (s : string) (caps : captures) (k : cont) : option (cursor * captures) :=
  match s with
  | String c s' =>
      if p c then
        match star p (S pos) (Some c) s' caps k with
        | Some res => Some res
        | None => k (Cursor pos prev s) caps
        end
      else k (Cursor pos prev s) caps
  | EmptyString => k (Cursor pos prev s) caps
  end.

Definition one (p : ascii -> bool) (cur : cursor) (caps : captures)
    (k : cont) : option (cursor * captures) :=
  match c_rest cur with
  | String x s' =>
      if p x then k (Cursor (S (c_pos cur)) (Some x) s') caps else None
  | EmptyString => None
  end.

Fixpoint rmatch (r : regex) (cur : cursor) (caps : captures) (k : cont)
    : option (cursor * captures) :=
  match r with
  | Eps => k cur caps
  | Chr c => one (Ascii.eqb c) cur caps k
  | Cls p => one p cur caps k
  | Seq r1 r2 => rmatch r1 cur caps (fun cur' caps' => rmatch r2 cur' caps' k)
  | Alt r1 r2 =>
      match rmatch r1 cur caps k with
      | Some res => Some res
      | None => rmatch r2 cur caps k
      end
  | Star p => star p (c_pos cur) (c_prev cur) (c_rest cur) caps k
  | Plus p =>
      one p cur caps
        (fun cur' caps' => star p (c_pos cur') (c_prev cur') (c_rest cur') caps' k)
  | Grp n r =>
      rmatch r cur caps
        (fun cur' caps' =>
           k cur' ((n, str_take (c_pos cur' - c_pos cur) (c_rest cur)) :: caps'))
  | WordB => if at_word_boundary cur then k cur caps else None
  | Bol => if (c_pos cur =? 0)%nat then k cur caps else None
  | Eol => if is_empty (c_rest cur) then k cur caps else None
  end.

(** The match object: [index], the end of the match (the next
    [lastIndex] of a global pattern) and the captures. *)
Record Match : Type := mkMatch {
  m_index : nat;
  m_end : nat;
  m_groups : captures
}.

Definition match_at (r : regex) (cur : cursor) : option Match :=
  match rmatch r cur [] (fun cur' caps' => Some (cur', caps')) with
  | Some (cur', caps') => Some (mkMatch (c_pos cur) (c_pos cur') caps')
  | None => None
  end.

(** The leftmost match at or after the cursor. *)
Fixpoint search (r : regex) (pos : nat) (prev : option ascii) (s : string)
    : option Match :=
  match match_at r (Cursor pos prev s) with
  | Some m => Some m
  | None =>
      match s with
      | EmptyString => None
      | String c s' => search r (S pos) (Some c) s'
      end
  end.

(** The cursor of [s] at index [i]. *)
Fixpoint cursor_at (pos : nat) (prev : option ascii) (s : string) (i : nat)
    : cursor :=
  match i, s with
  | S i', String c s' => cursor_at (S pos) (Some c) s' i'
  | _, _ => Cursor pos prev s
  end.

(** [RegExp.prototype.exec] from [lastIndex]; [String.prototype.match]
    with a pattern that is not global is [exec] from 0. *)
Definition exec (r : regex) (s : string) (lastIndex : nat) : option Match :=
  if (lastIndex <=? String.length s)%nat then
    let cur := cursor_at 0 None s lastIndex in
    search r (c_pos cur) (c_prev cur) (c_rest cur)
  else None.

(** The label pattern, group by group:
    [^] [([A-Za-z0-9_.$!?@#]+)] [\s*] [:] [\s*] [( .* )] [$]. *)
Definition labelPattern : regex :=
  Seq Bol
 (Seq (Grp 1 (Plus is_label_char))
 (Seq (Star is_space)
 (Seq (Chr ":"%char)
 (Seq (Star is_space)
 (Seq (Grp 2 (Star is_dot))
      Eol))))).

(** The call pattern, a global one:
    [\b] [CALL] [\b] [\s*] [( VALUE\b | \( | ([A-Z0-9_.$!?@#]+) )]. *)
Definition callPattern : regex :=
  Seq WordB
 (Seq (Lit "CALL")
 (Seq WordB
 (Seq (Star is_space)
      (Grp 1 (Alt (Seq (Lit "VALUE") WordB)
             (Alt (Chr "("%char)
                  (Grp 2 (Plus is_target_char)))))))).

(** ** Graph data *)

Record Node : Type := mkNode {
  n_id : string;
  n_label : string;
  n_line : Z;
  n_kind : string
}.

Record Edge : Type := mkEdge {
  e_from : string;
  e_to : string;
  e_type : string;
  e_line : Z
}.

Record Graph : Type := mkGraph {
  nodes : list Node;
  edges : list Edge
}.

(** The three collections shared by the scan: the [Map] of nodes in
    insertion order, the edge array and the [Set] of edge keys. *)
Record Builder : Type := mkBuilder {
  b_nodes : list (string * Node);
  b_edges : list Edge;
  b_edgeKeys : gset string
}.

(** ** Graph builder *)

(** [nodes.get(id)]. *)
Fixpoint map_get (m : list (string * Node)) (id : string) : option Node :=
  match m with
  | [] => None
  | (k, v) :: rest => if String.eqb k id then Some v else map_get rest id
  end.

(** Update of the object stored under [id], at its place in the map. *)
Fixpoint map_update (m : list (string * Node)) (id : string)
    (f : Node -> Node) : list (string * Node) :=
  match m with
  | [] => []
  | (k, v) :: rest =>
      if String.eqb k id then (k, f v) :: rest
      else (k, v) :: map_update rest id f
  end.

Definition merge_node (line : Z) (kind : string) (existing : Node) : Node :=
  let line' := if (line <? n_line existing)%Z then line else n_line existing in
  let kind' :=
    if negb (String.eqb (n_kind existing) "entry") && String.eqb kind "function"
    then kind else n_kind existing in
  mkNode (n_id existing) (n_label existing) line' kind'.

Definition upsertNode (m : list (string * Node)) (id label : string)
    (line : Z) (kind : string) : list (string * Node) :=
  match map_get m id with
  | None => m ++ [(id, mkNode id label line kind)]
  | Some _ => map_update m id (merge_node line kind)
  end.

Definition edge_key (from to type : string) : string :=
  from +:+ "->" +:+ to +:+ ":" +:+ type.

Definition addEdge (b : Builder) (from to type : string) (line : Z) : Builder :=
  let key := edge_key from to type in
  if bool_decide (key ∈ b_edgeKeys b) then b
  else mkBuilder (b_nodes b) (b_edges b ++ [mkEdge from to type line])
         (b_edgeKeys b ∪ {[ key ]}).

Definition upsert (b : Builder) (id label : string) (line : Z)
    (kind : string) : Builder :=
  mkBuilder (upsertNode (b_nodes b) id label line kind) (b_edges b)
    (b_edgeKeys b).

(** ** Call extractor *)

(** [String(undefined)]. *)
Definition undefined_string : string := "undefined".

(** The body of the [while] loop of [processStatementBlock] for one
    match object. *)
Definition process_match (m : Match) (lineNo : Z) (currentScope : string)
    (b : Builder) : Builder :=
  let m1 := group 1 (m_groups m) in
  if bool_decide (m1 = Some "VALUE") || bool_decide (m1 = Some "(") then
    addEdge (upsert b "DYNAMIC_CALL" "DYNAMIC_CALL" lineNo "dynamic")
      currentScope "DYNAMIC_CALL" "calls-dynamic" lineNo
  else
    let target :=
      normalizeLabel (default undefined_string (group 2 (m_groups m))) in
    if String.eqb target "ON" || String.eqb target "OFF" then b
    else
      addEdge (upsert b target target lineNo "function")
        currentScope target "calls" lineNo.

(** The [while] loop: [exec] resumes at [lastIndex] until it fails.  A
    match is never empty, so [fuel] above the remaining length is never
    used up (lemma [call_loop_fuel]). *)
Fixpoint call_loop (fuel : nat) (upper : string) (lastIndex : nat)
    (lineNo : Z) (currentScope : string) (b : Builder) : Builder :=
  match fuel with
  | O => b
  | S fuel' =>
      match exec callPattern upper lastIndex with
      | None => b
      | Some m =>
          call_loop fuel' upper (m_end m) lineNo currentScope
            (process_match m lineNo currentScope b)
      end
  end.

Definition process_segment (lineNo : Z) (currentScope : string)
    (b : Builder) (segment : string) : Builder :=
  let upper := toUpperCase segment in
  call_loop (S (String.length upper)) upper 0 lineNo currentScope b.

Definition processStatementBlock (text : string) (lineNo : Z)
    (currentScope : string) (b : Builder) : Builder :=
  fold_left (process_segment lineNo currentScope) (splitStatements text) b.

(** ** Line driver *)

(** The locals of the [for] loop of [parseRexxControlFlow]. *)
Record Scanner : Type := mkScanner {
  builder : Builder;
  currentScope : string;
  inBlockComment : bool
}.

(** One iteration of the loop, for the line with number [lineNo]. *)
Definition scan_line (raw : string) (lineNo : Z) (s : Scanner) : Scanner :=
  let '(stripped, inBlock) := stripComments raw (inBlockComment s) in
  let line := collapse stripped in
  if is_empty line then mkScanner (builder s) (currentScope s) inBlock
  else
    match exec labelPattern line 0 with
    | Some labelMatch =>
        let scope :=
          normalizeLabel
            (default undefined_string (group 1 (m_groups labelMatch))) in
        let b := upsert (builder s) scope scope lineNo "function" in
        let trailing :=
          collapse (default EmptyString (group 2 (m_groups labelMatch))) in
        if is_empty trailing then mkScanner b scope inBlock
        else mkScanner (processStatementBlock trailing lineNo scope b)
               scope inBlock
    | None =>
        mkScanner
          (processStatementBlock line lineNo (currentScope s) (builder s))
          (currentScope s) inBlock
    end.

Fixpoint scan_lines (lines : list string) (lineNo : Z) (s : Scanner)
    : Scanner :=
  match lines with
  | [] => s
  | raw :: rest => scan_lines rest (lineNo + 1) (scan_line raw lineNo s)
  end.

Definition initial_scanner : Scanner :=
  mkScanner
    (mkBuilder (upsertNode [] "MAIN" "MAIN" 1 "entry") [] ∅)
    "MAIN" false.

(** The state of the scan when the loop over the lines has ended. *)
Definition scan (source : string) : Scanner :=
  scan_lines (split_lines source) 1 initial_scanner.

(** ** Node order *)

(** [Array.prototype.sort] with a comparator: a stable insertion sort.
    Under a consistent comparator the result of any sort is the same. *)
Section Sort.
Context {A : Type} (cmp : A -> A -> Z).

Fixpoint sort_insert (x : A) (l : list A) : list A :=
  match l with
  | [] => [x]
  | y :: l' =>
      if (cmp x y <=? 0)%Z then x :: y :: l' else y :: sort_insert x l'
  end.

Fixpoint sort (l : list A) : list A :=
  match l with
  | [] => []
  | x :: l' => sort_insert x (sort l')
  end.
End Sort.

Section Parser.
(** [a.localeCompare(b)] of the host. *)
Variable localeCompare : string -> string -> Z.

(** The comparator passed to [sort]; [x || y] is [y] when [x] is 0. *)
Definition compareNodes (a b : Node) : Z :=
  if String.eqb (n_id a) "MAIN" then (-1)%Z
  else if String.eqb (n_id b) "MAIN" then 1%Z
  else
    let d := (n_line a - n_line b)%Z in
    if (d =? 0)%Z then localeCompare (n_id a) (n_id b) else d.

Definition parseRexxControlFlow (source : string) : Graph :=
  let s := scan source in
  mkGraph (sort compareNodes (map snd (b_nodes (builder s))))
    (b_edges (builder s)).
End Parser.

(** ** DOT serializer *)

(** [value.replace(/c/g, by)] for a pattern of one character. *)
Fixpoint replace_char (c : ascii) (by_ : string) (s : string) : string :=
  match s with
  | EmptyString => EmptyString
  | String x s' =>
      if Ascii.eqb x c then by_ +:+ replace_char c by_ s'
      else String x (replace_char c by_ s')
  end.

Definition escapeDot (value : string) : string :=
  replace_char DQUOTE (String BACKSLASH (str1 DQUOTE))
    (replace_char BACKSLASH (String BACKSLASH (str1 BACKSLASH)) value).

Definition DQ : string := str1 DQUOTE.

Definition node_decl (node : Node) : string :=
  "  " +:+ DQ +:+ escapeDot (n_id node) +:+ DQ +:+ " [label=" +:+ DQ +:+
  escapeDot (n_label node) +:+ DQ +:+ "];".

Definition edge_decl (edge : Edge) : string :=
  "  " +:+ DQ +:+ escapeDot (e_from edge) +:+ DQ +:+ " -> " +:+ DQ +:+
  escapeDot (e_to edge) +:+ DQ +:+ " [label=" +:+ DQ +:+
  escapeDot (e_type edge) +:+ DQ +:+ "];".

Definition toDot (graph : Graph) : string :=
  let out := ["digraph REXXControlFlow {"; "  rankdir=LR;"] in
  let out := fold_left (fun out node => out ++ [node_decl node]) (nodes graph) out in
  let out := fold_left (fun out edge => out ++ [edge_decl edge]) (edges graph) out in
  let out := out ++ ["}"] in
  join (str1 LF) out.

(** ** Invariants and orders used in the statements *)

Definition main_node : Node := mkNode "MAIN" "MAIN" 1 "entry".

Definition edge_key_of (e : Edge) : string :=
  edge_key (e_from e) (e_to e) (e_type e).

Definition edge_triple (e : Edge) : string * string * string :=
  (e_from e, e_to e, e_type e).

(** An id without the characters that separate the parts of an edge
    key. *)
Definition clean_id (s : string) : bool :=
  str_forall (fun c => negb (Ascii.eqb c "-"%char || Ascii.eqb c ":"%char)) s.

(** What holds of the three collections while line [lineNo] is scanned. *)
Record builder_ok (lineNo : Z) (b : Builder) : Prop := mk_builder_ok {
  ok_main :
    exists rest,
      b_nodes b = ("MAIN", main_node) :: rest /\ map_get rest "MAIN" = None;
  ok_nodup : NoDup (b_nodes b).*1;
  ok_ids :
    forall k n, (k, n) ∈ b_nodes b -> n_id n = k /\ n_label n = k;
  ok_kinds :
    forall k n, (k, n) ∈ b_nodes b ->
      (n_kind n = "entry" /\ k = "MAIN") \/ n_kind n = "function" \/
      (n_kind n = "dynamic" /\ k = "DYNAMIC_CALL");
  ok_keys :
    forall k, k ∈ b_edgeKeys b <-> k ∈ edge_key_of <$> b_edges b;
  ok_edges : NoDup (edge_key_of <$> b_edges b);
  ok_sorted : StronglySorted Z.le (e_line <$> b_edges b);
  ok_lines : Forall (fun e => (e_line e <= lineNo)%Z) (b_edges b);
  ok_clean :
    Forall (fun e => clean_id (e_from e) = true /\ clean_id (e_to e) = true)
      (b_edges b)
}.

(** What holds of the locals of the line loop at line [lineNo]. *)
Definition scanner_ok (lineNo : Z) (s : Scanner) : Prop :=
  builder_ok lineNo (builder s) /\ clean_id (currentScope s) = true.

(** The builder has an edge with this triple. *)
Definition has_edge (b : Builder) (from to type : string) : Prop :=
  exists e, e ∈ b_edges b /\ edge_triple e = (from, to, type).

(** What a step of the scan may do to the edge array: append. *)
Definition edges_extend (b b' : Builder) : Prop :=
  exists new, b_edges b' = b_edges b ++ new.

(** The order of the nodes that are not the entry node: by line, then
    by id in the order of [localeCompare]. *)
Definition node_le (localeCompare : string -> string -> Z) (a b : Node) : Prop :=
  (n_line a < n_line b)%Z \/
  (n_line a = n_line b /\ (localeCompare (n_id a) (n_id b) <= 0)%Z).


(** One collation a host may supply: the order of the code units. *)
Fixpoint code_unit_compare (a b : string) : Z :=
  match a, b with
  | EmptyString, EmptyString => 0
  | EmptyString, String _ _ => -1
  | String _ _, EmptyString => 1
  | String x a', String y b' =>
      let d := (Z.of_nat (nat_of_ascii x) - Z.of_nat (nat_of_ascii y))%Z in
      if (d =? 0)%Z then code_unit_compare a' b' else d
  end.

(** The escape of one character, and of a text character by
    character. *)
Definition escape_char (c : ascii) : string :=
  if Ascii.eqb c BACKSLASH then String BACKSLASH (str1 BACKSLASH)
  else if Ascii.eqb c DQUOTE then String BACKSLASH (str1 DQUOTE)
  else str1 c.

Fixpoint escape_each (s : string) : string :=
  match s with
  | EmptyString => EmptyString
  | String c s' => escape_char c +:+ escape_each s'
  end.

Definition is_quote (c : ascii) : bool :=
  Ascii.eqb c SQUOTE || Ascii.eqb c DQUOTE.

(** [c] does not occur in [s]. *)
Definition str_lacks (c : ascii) (s : string) : bool :=
  str_forall (fun x => negb (Ascii.eqb x c)) s.

(** The closing marker of a block comment occurs in [s]. *)
Fixpoint has_close (s : string) : bool :=
  match s with
  | EmptyString => false
  | String c s' =>
      (Ascii.eqb c "*"%char && bool_decide (str_head s' = Some "/"%char))
      || has_close s'
  end.

(** The scanner with its block-comment flag replaced. *)
Definition with_flag (inBlock : bool) (s : Scanner) : Scanner :=
  mkScanner (builder s) (currentScope s) inBlock.

(** ** The patterns read as functions *)

(** The longest prefix of characters of a class, and what follows. *)
Fixpoint span (p : ascii -> bool) (s : string) : string * string :=
  match s with
  | String c s' =>
      if p c then let '(w, r) := span p s' in (String c w, r)
      else (EmptyString, s)
  | EmptyString => (EmptyString, EmptyString)
  end.

(** The last character of [w], or [d] when [w] is empty. *)
Fixpoint str_last (d : option ascii) (w : string) : option ascii :=
  match w with
  | EmptyString => d
  | String c w' => str_last (Some c) w'
  end.

(** The cursor after the text [w], with [rest] left. *)
Definition advance (cur : cursor) (w rest : string) : cursor :=
  Cursor (c_pos cur + String.length w) (str_last (c_prev cur) w) rest.

(** What may follow the keyword and the white space of a call: the
    word [VALUE], an opening parenthesis or a run of target characters;
    the result is the cursor after it and the captures. *)
Definition call_target_at (cur : cursor) : option (cursor * captures) :=
  let r := c_rest cur in
  if String.prefix "VALUE" r && negb (is_word_opt (str_head (str_drop 5 r)))
  then Some (advance cur "VALUE" (str_drop 5 r), [(1, "VALUE")])
  else if String.prefix "(" r
  then Some (advance cur "(" (str_drop 1 r), [(1, "(")])
  else
    let '(t, r') := span is_target_char r in
    if is_empty t then None else Some (advance cur t r', [(1, t); (2, t)]).

(** A match of the call pattern at the cursor, computed directly: the
    keyword between word boundaries, white space, then the target. *)
Definition call_site_at (cur : cursor) : option Match :=
  if at_word_boundary cur && String.prefix "CALL" (c_rest cur) then
    let after := str_drop 4 (c_rest cur) in
    if is_word_opt (str_head after) then None
    else
      let '(w, r) := span is_space after in
      match call_target_at (advance cur ("CALL" +:+ w) r) with
      | Some (cur', caps) => Some (mkMatch (c_pos cur) (c_pos cur') caps)
      | None => None
      end
  else None.

(** The matches that the loop of [processStatementBlock] goes through,
    in its order. *)
Fixpoint call_sites (fuel : nat) (upper : string) (lastIndex : nat)
    : list Match :=
  match fuel with
  | O => []
  | S fuel' =>
      match exec callPattern upper lastIndex with
      | None => []
      | Some m => m :: call_sites fuel' upper (m_end m)
      end
  end.

(** The call sites of one statement. *)
Definition segment_calls (segment : string) : list Match :=
  let upper := toUpperCase segment in
  call_sites (S (String.length upper)) upper 0.

(** ** The classification of a call, in the words of the specification *)

Inductive call_class : Type :=
| Dynamic                      (* a dynamic call *)
| Toggle                       (* ON or OFF: a handler toggle, not a call *)
| Named (target : string).     (* a call of the named target *)

(** The class of a call from the text that follows the keyword: after
    optional white space, the marker [VALUE] (as a whole word) or an
    opening parenthesis make it dynamic; otherwise the token that
    follows is normalized, and [ON] and [OFF] are skipped. *)
Definition classify (following : string) : call_class :=
  let text := trimStart following in
  if (String.prefix "VALUE" text
      && negb (is_word_opt (str_head (str_drop 5 text))))
     || String.prefix "(" text
  then Dynamic
  else
    let token := normalizeLabel (span is_target_char text).1 in
    if String.eqb token "ON" || String.eqb token "OFF" then Toggle
    else Named token.

(** What the specification asks for each class. *)
Definition record_call (c : call_class) (lineNo : Z) (scope : string)
    (b : Builder) : Builder :=
  match c with
  | Dynamic =>
      addEdge (upsert b "DYNAMIC_CALL" "DYNAMIC_CALL" lineNo "dynamic")
        scope "DYNAMIC_CALL" "calls-dynamic" lineNo
  | Toggle => b
  | Named target =>
      addEdge (upsert b target target lineNo "function")
        scope target "calls" lineNo
  end.

(** No lower-case letter occurs in [s]. *)
Definition no_lower (s : string) : bool :=
  str_forall (fun c => negb (is_lower c)) s.

(** The continuation at the end of a pattern. *)
Definition final_cont : cont := fun cur caps => Some (cur, caps).

(** The label pattern after its identifier group. *)
Definition label_rest : regex :=
  Seq (Star is_space)
 (Seq (Chr ":"%char)
 (Seq (Star is_space)
 (Seq (Grp 2 (Star is_dot))
      Eol))).

(** A character of a collapsed text: a space or no white space. *)
Definition is_collapsed_char (c : ascii) : bool :=
  negb (is_space c) || Ascii.eqb c SP.

(** ** Call keywords and what follows them *)

(** The call keyword stands at index [p] of the upper-cased statement,
    between two word boundaries. *)
Definition keyword_at (upper : string) (p : nat) : bool :=
  let cur := cursor_at 0 None upper p in
  at_word_boundary cur && String.prefix "CALL" (c_rest cur)
  && negb (is_word_opt (str_head (str_drop 4 (c_rest cur)))).

Definition is_target_opt (o : option ascii) : bool :=
  match o with
  | Some c => is_target_char c
  | None => false
  end.

(** The text starts with a target: [VALUE] as a whole word, an opening
    parenthesis or a target character. *)
Definition target_follows (text : string) : bool :=
  (String.prefix "VALUE" text
   && negb (is_word_opt (str_head (str_drop 5 text))))
  || String.prefix "(" text
  || is_target_opt (str_head text).

(** A target follows the keyword, after optional white space. *)
Definition has_target (following : string) : bool :=
  target_follows (trimStart following).

(** ** Further notions used in the statements *)

(** The opening marker of a block comment occurs in [s]. *)
Fixpoint has_open (s : string) : bool :=
  match s with
  | EmptyString => false
  | String c s' =>
      (Ascii.eqb c "/"%char && bool_decide (str_head s' = Some "*"%char))
      || has_open s'
  end.

(** The local [quote] of [splitStatements] after the text [s]. *)
Fixpoint quote_after (quote : option ascii) (s : string) : option ascii :=
  match s with
  | EmptyString => quote
  | String ch s' =>
      match quote with
      | Some q => quote_after (if Ascii.eqb ch q then None else Some q) s'
      | None => quote_after (if is_quote ch then Some ch else None) s'
      end
  end.

(** The node stored under [id] is [n], in the graph. *)
Definition node_of (g : Graph) (id : string) (n : Node) : Prop :=
  n ∈ nodes g /\ n_id n = id.

(** The two ends of the edge are keys of the node map, with lines that
    are not after the line of the edge, and the node of its source is
    not of kind [dynamic]. *)
Definition edge_closed (m : list (string * Node)) (e : Edge) : Prop :=
  exists nf nt,
    map_get m (e_from e) = Some nf /\ map_get m (e_to e) = Some nt /\
    (n_line nf <= e_line e)%Z /\ (n_line nt <= e_line e)%Z /\
    n_kind nf ≠ "dynamic".

(** A word of the identifier class of the call pattern: not empty, of
    upper-case letters, digits and the seven symbols. *)
Definition is_target_word (s : string) : bool :=
  negb (is_empty s) && str_forall is_target_char s.

(** The shape of an edge recorded up to line [l]. *)
Definition edge_shape (l : Z) (e : Edge) : Prop :=
  (1 <= e_line e <= l)%Z /\
  is_target_word (e_from e) = true /\ is_target_word (e_to e) = true /\
  ((e_type e = "calls" /\ e_to e ≠ "ON" /\ e_to e ≠ "OFF") \/
   (e_type e = "calls-dynamic" /\ e_to e = "DYNAMIC_CALL")).

(** The shape of a node recorded up to line [l]. *)
Definition node_shape (l : Z) (n : Node) : Prop :=
  n_label n = n_id n /\ is_target_word (n_id n) = true /\
  (1 <= n_line n <= l)%Z /\
  ((n_kind n = "entry" /\ n_id n = "MAIN") \/ n_kind n = "function" \/
   (n_kind n = "dynamic" /\ n_id n = "DYNAMIC_CALL")).

(** ** Three properties kept by the scan *)

(** The scope is a key of the node map and every edge is closed. *)
Definition closed_graph (l : Z) (scope : string) (b : Builder) : Prop :=
  (exists n, map_get (b_nodes b) scope = Some n /\
             (n_line n <= l)%Z /\ n_kind n ≠ "dynamic") /\
  Forall (edge_closed (b_nodes b)) (b_edges b).

(** Every edge has the shape of a call and the scope is a word. *)
Definition shaped_edges (l : Z) (scope : string) (b : Builder) : Prop :=
  is_target_word scope = true /\ Forall (edge_shape l) (b_edges b).

(** Every key of the node map is a word with a line from 1 to [l]. *)
Definition shaped_nodes (l : Z) (scope : string) (b : Builder) : Prop :=
  Forall (fun kv => is_target_word kv.1 = true /\ (1 <= n_line kv.2 <= l)%Z)
    (b_nodes b).


(** ** Shapes of texts *)

(** Every white-space character of [s] is a space, and no two of them
    are adjacent; [after_space] tells that a space stands before [s]. *)
Fixpoint single_spaced (after_space : bool) (s : string) : bool :=
  match s with
  | EmptyString => true
  | String c s' =>
      if is_space c
      then Ascii.eqb c SP && negb after_space && single_spaced true s'
      else single_spaced false s'
  end.

(** Neither a backslash nor a double quote. *)
Definition is_plain_char (c : ascii) : bool :=
  negb (Ascii.eqb c BACKSLASH || Ascii.eqb c DQUOTE).

(** ** A change of characters under a pattern *)

Definition map_cursor (f : ascii -> ascii) (cur : cursor) : cursor :=
  Cursor (c_pos cur) (option_map f (c_prev cur)) (str_map f (c_rest cur)).

Definition map_captures (f : ascii -> ascii) (caps : captures) : captures :=
  map (fun ns => (ns.1, str_map f ns.2)) caps.

Definition map_result (f : ascii -> ascii) (res : cursor * captures)
    : cursor * captures :=
  (map_cursor f res.1, map_captures f res.2).

Definition map_match (f : ascii -> ascii) (m : Match) : Match :=
  mkMatch (m_index m) (m_end m) (map_captures f (m_groups m)).

(** The classes and the literal characters of the pattern do not tell a
    character from its image under [f]. *)
Fixpoint respects (f : ascii -> ascii) (r : regex) : Prop :=
  match r with
  | Eps | Bol | Eol => True
  | Chr c => forall x, Ascii.eqb c (f x) = Ascii.eqb c x
  | Cls p | Star p | Plus p => forall x, p (f x) = p x
  | Seq r1 r2 | Alt r1 r2 => respects f r1 /\ respects f r2
  | Grp _ r' => respects f r'
  | WordB => forall x, is_word (f x) = is_word x
  end.

(** ** The label pattern read as a function *)

(** The identifier and the trailing text of a label line: the longest
    run of identifier characters at the start of the line, white space,
    a colon, white space, and the rest when it has no line
    terminator. *)
Definition label_split (line : string) : option (string * string) :=
  let '(ident, r) := span is_label_char line in
  if is_empty ident then None
  else
    match trimStart r with
    | String c r2 =>
        if Ascii.eqb c ":"%char && str_forall is_dot (trimStart r2)
        then Some (ident, trimStart r2)
        else None
    | EmptyString => None
    end.

(** ** Nodes from one state of the scan to a later one *)

(** The node [n'] is the node [n] later in the scan: same id, label and
    line, and the same kind unless it has become [function]. *)
Definition node_later (n n' : Node) : Prop :=
  n_id n' = n_id n /\ n_label n' = n_label n /\ n_line n' = n_line n /\
  (n_kind n' = n_kind n \/ n_kind n' = "function").

(** No node of [b] has a line after [l], and every node of the map [m0]
    is still in [b]. *)
Definition nodes_kept (m0 : list (string * Node)) (l : Z) (scope : string)
    (b : Builder) : Prop :=
  Forall (fun kv => (n_line kv.2 <= l)%Z) (b_nodes b) /\
  forall id n,
    map_get m0 id = Some n ->
    exists n', map_get (b_nodes b) id = Some n' /\ node_later n n'.

(** ** Occurrences *)

(** The text [sub] occurs in [s]. *)
Fixpoint str_contains (sub s : string) : bool :=
  String.prefix sub s ||
  match s with
  | EmptyString => false
  | String _ s' => str_contains sub s'
  end.

(** ** The discovery order of the scan *)

(** The edge that a call site of a statement asks for: none for a
    handler toggle. *)
Definition call_edge (lineNo : Z) (scope segment : string) (m : Match)
    : option Edge :=
  match classify (str_drop (m_index m + 4) (toUpperCase segment)) with
  | Dynamic => Some (mkEdge scope "DYNAMIC_CALL" "calls-dynamic" lineNo)
  | Toggle => None
  | Named target => Some (mkEdge scope target "calls" lineNo)
  end.

(** The edges asked for by a statement, call site after call site, and
    by a statement block, statement after statement. *)
Definition statement_edges (lineNo : Z) (scope segment : string) : list Edge :=
  omap (call_edge lineNo scope segment) (segment_calls segment).

Definition block_edges (lineNo : Z) (scope text : string) : list Edge :=
  concat (map (statement_edges lineNo scope) (splitStatements text)).

(** What one line discovers: the scope and the comment flag after the
    line, and the edges that its call sites ask for, from left to
    right. *)
Definition line_discovery (raw : string) (lineNo : Z) (scope : string)
    (inBlock : bool) : string * bool * list Edge :=
  let '(stripped, inBlock') := stripComments raw inBlock in
  let line := collapse stripped in
  if is_empty line then (scope, inBlock', [])
  else
    match exec labelPattern line 0 with
    | Some labelMatch =>
        let scope' :=
          normalizeLabel
            (default undefined_string (group 1 (m_groups labelMatch))) in
        let trailing :=
          collapse (default EmptyString (group 2 (m_groups labelMatch))) in
        (scope', inBlock', block_edges lineNo scope' trailing)
    | None => (scope, inBlock', block_edges lineNo scope line)
    end.

(** The edges asked for by the lines, from the first line to the last. *)
Fixpoint discovery (lines : list string) (lineNo : Z) (scope : string)
    (inBlock : bool) : list Edge :=
  match lines with
  | [] => []
  | raw :: rest =>
      let '(scope', inBlock', found) :=
        line_discovery raw lineNo scope inBlock in
      found ++ discovery rest (lineNo + 1) scope' inBlock'
  end.

(** The edge [e] has the triple of [e']. *)
Definition same_triple (e e' : Edge) : bool :=
  bool_decide (edge_triple e' = edge_triple e).

(** The sequence [acc] with [e] at its end, unless an edge of [acc] has
    the triple of [e]. *)
Definition add_new (acc : list Edge) (e : Edge) : list Edge :=
  if existsb (same_triple e) acc then acc else acc ++ [e].

(** The first edge of each triple, in the order of the sequence. *)
Definition first_occurrences (found : list Edge) : list Edge :=
  fold_left add_new found [].
(** * Properties *)

(** ** Strings *)

#[local] Arguments String.append !_ _ : simpl nomatch.
#[local] Arguments String.eqb : simpl never.
#[local] Arguments exec : simpl never.
#[local] Arguments collapse : simpl never.
#[local] Arguments normalizeLabel : simpl never.
#[local] Arguments processStatementBlock : simpl never.

Lemma str_app_nil_r (s : string) : s +:+ EmptyString = s.
Proof. induction s as [|c s IH]; cbn; [done|]. by rewrite IH. Qed.

Lemma str_app_assoc (s t u : string) : (s +:+ t) +:+ u = s +:+ (t +:+ u).
Proof. induction s as [|c s IH]; cbn; [done|]. by rewrite IH. Qed.

Lemma str_app_nil_l (s : string) : EmptyString +:+ s = s.
Proof. done. Qed.

Lemma str_length_app (s t : string) :
  String.length (s +:+ t) = String.length s + String.length t.
Proof. induction s as [|c s IH]; cbn; [done|]. by rewrite IH. Qed.

Lemma eqb_false_ne (a b : string) : a ≠ b -> String.eqb a b = false.
Proof. apply String.eqb_neq. Qed.

(** ** The node map *)

Lemma map_get_None (m : list (string * Node)) (id : string) :
  map_get m id = None <-> id ∉ m.*1.
Proof.
  induction m as [|[k v] m IH]; cbn.
  - split; [intros _; apply not_elem_of_nil | done].
  - destruct (String.eqb_spec k id) as [->|Hne].
    + split; [done|]. intros H. destruct H. apply list_elem_of_here.
    + rewrite IH, not_elem_of_cons. split; [by split | by intros [_ ?]].
Qed.

Lemma map_update_keys (m : list (string * Node)) (id : string) (f : Node -> Node) :
  (map_update m id f).*1 = m.*1.
Proof.
  induction m as [|[k v] m IH]; cbn; [done|].
  destruct (String.eqb k id); cbn; [done|]. by rewrite IH.
Qed.

Lemma map_update_elem (m : list (string * Node)) (id : string)
    (f : Node -> Node) (kv : string * Node) :
  kv ∈ map_update m id f ->
  kv ∈ m \/ exists v, (id, v) ∈ m /\ kv = (id, f v).
Proof.
  induction m as [|[k v] m IH]; cbn; [by left|].
  destruct (String.eqb_spec k id) as [->|Hne].
  - intros [->|H]%elem_of_cons.
    + right. exists v. split; [apply list_elem_of_here | done].
    + left. by apply list_elem_of_further.
  - intros [->|H]%elem_of_cons.
    + left. apply list_elem_of_here.
    + destruct (IH H) as [?|(w & ? & ?)].
      * left. by apply list_elem_of_further.
      * right. exists w. split; [by apply list_elem_of_further | done].
Qed.

Lemma upsertNode_elem m id label line kind (kv : string * Node) :
  kv ∈ upsertNode m id label line kind ->
  kv ∈ m \/ kv = (id, mkNode id label line kind) \/
  exists v, (id, v) ∈ m /\ kv = (id, merge_node line kind v).
Proof.
  unfold upsertNode. destruct (map_get m id) eqn:Hg.
  - intros [H|H]%map_update_elem; [by left | by right; right].
  - intros [H|H]%elem_of_app; [by left|].
    apply list_elem_of_singleton in H. by right; left.
Qed.

Lemma upsertNode_nodup m id label line kind :
  NoDup m.*1 -> NoDup (upsertNode m id label line kind).*1.
Proof.
  intros Hnd. unfold upsertNode. destruct (map_get m id) eqn:Hg.
  - by rewrite map_update_keys.
  - rewrite fmap_app. cbn. apply NoDup_app. split; [done|]. split.
    + intros x Hx ->%list_elem_of_singleton. by apply map_get_None in Hg.
    + apply NoDup_singleton.
Qed.

Lemma merge_node_main (line : Z) (kind : string) :
  (1 <= line)%Z -> merge_node line kind main_node = main_node.
Proof.
  intros Hl. unfold merge_node, main_node. cbn.
  destruct (Z.ltb_spec line 1); [lia|]. done.
Qed.

(** The entry node keeps the head of the map, whatever is upserted. *)
Lemma upsertNode_main rest id label line kind :
  (1 <= line)%Z ->
  map_get rest "MAIN" = None ->
  exists rest',
    upsertNode (("MAIN", main_node) :: rest) id label line kind
      = ("MAIN", main_node) :: rest' /\
    map_get rest' "MAIN" = None.
Proof.
  intros Hl Hrest. unfold upsertNode. cbn.
  destruct (String.eqb_spec "MAIN" id) as [<-|Hne].
  - cbn. rewrite merge_node_main by done. eauto.
  - destruct (map_get rest id) eqn:Hg.
    + eexists. split; [done|]. apply map_get_None.
      rewrite map_update_keys. by apply map_get_None.
    + eexists. split; [done|]. apply map_get_None.
      rewrite fmap_app. cbn. intros [H|H]%elem_of_app.
      * by apply map_get_None in Hrest.
      * apply list_elem_of_singleton in H. done.
Qed.

(** ** The sort *)

Section SortFacts.
Context {A : Type} (cmp : A -> A -> Z).

Lemma sort_insert_perm (x : A) (l : list A) : sort_insert cmp x l ≡ₚ x :: l.
Proof.
  induction l as [|y l IH]; cbn; [done|].
  destruct (cmp x y <=? 0)%Z; [done|].
  rewrite IH. apply Permutation_swap.
Qed.

Lemma sort_perm (l : list A) : sort cmp l ≡ₚ l.
Proof.
  induction l as [|x l IH]; cbn; [done|].
  by rewrite sort_insert_perm, IH.
Qed.

(** On a set of values [P] where the comparator is total and
    transitive, the result is sorted. *)
Context (P : A -> Prop).
Hypothesis cmp_total :
  forall x y, P x -> P y -> ~ (cmp x y <= 0)%Z -> (cmp y x <= 0)%Z.
Hypothesis cmp_trans :
  forall x y z, P x -> P y -> P z ->
    (cmp x y <= 0)%Z -> (cmp y z <= 0)%Z -> (cmp x z <= 0)%Z.

Lemma sort_insert_sorted (x : A) (l : list A) :
  P x -> Forall P l ->
  StronglySorted (fun a b => (cmp a b <= 0)%Z) l ->
  StronglySorted (fun a b => (cmp a b <= 0)%Z) (sort_insert cmp x l).
Proof.
  intros Hx Hl Hs. induction Hs as [|y l Hs IH Hy]; cbn.
  - repeat constructor.
  - apply Forall_cons in Hl as [HPy HPl].
    destruct (Z.leb_spec (cmp x y) 0) as [Hle|Hgt].
    + constructor; [by constructor|]. constructor; [done|].
      rewrite Forall_forall in Hy, HPl. apply Forall_forall. intros z Hz.
      apply (cmp_trans x y z); auto.
    + constructor; [by apply IH|].
      rewrite (sort_insert_perm x l). constructor; [|done].
      apply cmp_total; auto. lia.
Qed.

Lemma sort_sorted (l : list A) :
  Forall P l -> StronglySorted (fun a b => (cmp a b <= 0)%Z) (sort cmp l).
Proof.
  induction l as [|x l IH]; cbn; [constructor|].
  intros [Hx Hl]%Forall_cons. apply sort_insert_sorted; auto.
  by rewrite sort_perm.
Qed.
End SortFacts.

Lemma compareNodes_main lc (a b : Node) :
  n_id a = "MAIN" -> compareNodes lc a b = (-1)%Z.
Proof. unfold compareNodes. by intros ->. Qed.

Lemma compareNodes_other lc (a b : Node) :
  n_id a ≠ "MAIN" -> n_id b ≠ "MAIN" ->
  (compareNodes lc a b <= 0)%Z <-> node_le lc a b.
Proof.
  intros Ha Hb. unfold compareNodes, node_le.
  rewrite (eqb_false_ne _ _ Ha), (eqb_false_ne _ _ Hb).
  destruct (Z.eqb_spec (n_line a - n_line b) 0); lia.
Qed.

Lemma sort_main_head lc (m : Node) (l : list Node) :
  n_id m = "MAIN" ->
  sort (compareNodes lc) (m :: l) = m :: sort (compareNodes lc) l.
Proof.
  intros Hm. cbn. destruct (sort (compareNodes lc) l) as [|y l']; [done|].
  cbn. by rewrite compareNodes_main.
Qed.

Lemma StronglySorted_impl_on {A} (R S : A -> A -> Prop) (P : A -> Prop) l :
  (forall x y, P x -> P y -> R x y -> S x y) ->
  Forall P l -> StronglySorted R l -> StronglySorted S l.
Proof.
  intros HRS HP Hs. induction Hs as [|x l Hs IH Hx]; [constructor|].
  apply Forall_cons in HP as [HPx HPl]. constructor; [by apply IH|].
  rewrite Forall_forall in Hx, HPl. apply Forall_forall. intros y Hy.
  apply HRS; auto.
Qed.

Lemma code_unit_compare_antisym (a b : string) :
  (0 < code_unit_compare a b)%Z -> (code_unit_compare b a < 0)%Z.
Proof.
  revert b. induction a as [|x a IH]; intros [|y b]; cbn; try lia.
  destruct (Z.eqb_spec (Z.of_nat (nat_of_ascii x) - Z.of_nat (nat_of_ascii y)) 0);
    destruct (Z.eqb_spec (Z.of_nat (nat_of_ascii y) - Z.of_nat (nat_of_ascii x)) 0);
    try lia.
  apply IH.
Qed.

Lemma code_unit_compare_trans (a b c : string) :
  (code_unit_compare a b <= 0)%Z -> (code_unit_compare b c <= 0)%Z ->
  (code_unit_compare a c <= 0)%Z.
Proof.
  revert b c. induction a as [|x a IH]; intros [|y b] [|z c]; cbn; try lia.
  destruct (Z.eqb_spec (Z.of_nat (nat_of_ascii x) - Z.of_nat (nat_of_ascii y)) 0);
    destruct (Z.eqb_spec (Z.of_nat (nat_of_ascii y) - Z.of_nat (nat_of_ascii z)) 0);
    destruct (Z.eqb_spec (Z.of_nat (nat_of_ascii x) - Z.of_nat (nat_of_ascii z)) 0);
    try lia.
  apply IH.
Qed.

Lemma edge_triple_key (e1 e2 : Edge) :
  edge_triple e1 = edge_triple e2 -> edge_key_of e1 = edge_key_of e2.
Proof. unfold edge_triple, edge_key_of. by intros [= -> -> ->]. Qed.

Lemma NoDup_triples (l : list Edge) :
  NoDup (edge_key_of <$> l) -> NoDup (edge_triple <$> l).
Proof.
  induction l as [|e l IH]; cbn; [constructor|].
  intros [Hn Hl]%NoDup_cons. apply NoDup_cons. split; [|by apply IH].
  intros (e' & He & Hin)%list_elem_of_fmap. apply Hn.
  apply list_elem_of_fmap. exists e'. split; [by apply edge_triple_key | done].
Qed.

(** ** The serializer *)

Lemma fold_left_push {A} (f : A -> string) (l : list A) (acc : list string) :
  fold_left (fun out x => out ++ [f x]) l acc = acc ++ (f <$> l).
Proof.
  revert acc. induction l as [|x l IH]; intros acc; cbn.
  - by rewrite app_nil_r.
  - rewrite IH. by rewrite <- app_assoc.
Qed.

Lemma replace_char_app c by_ s t :
  replace_char c by_ (s +:+ t) = replace_char c by_ s +:+ replace_char c by_ t.
Proof.
  induction s as [|x s IH]; cbn; [done|].
  destruct (Ascii.eqb x c); cbn; rewrite IH; [|done].
  by rewrite str_app_assoc.
Qed.

Lemma escapeDot_each (value : string) : escapeDot value = escape_each value.
Proof.
  unfold escapeDot. induction value as [|c v IH]; [done|].
  cbn [replace_char escape_each]. unfold escape_char.
  destruct (Ascii.eqb_spec c BACKSLASH) as [->|Hb].
  - rewrite replace_char_app, IH. done.
  - destruct (Ascii.eqb_spec c DQUOTE) as [->|Hq].
    + cbn [replace_char]. rewrite Ascii.eqb_refl, IH. done.
    + cbn [replace_char]. rewrite (proj2 (Ascii.eqb_neq _ _) Hq), IH. done.
Qed.

(** ** The statement splitter *)

Lemma split_loop_in_literal q body rest out cur :
  str_lacks q body = true ->
  split_loop (body +:+ String q rest) out cur (Some q)
  = split_loop rest out (cur +:+ body +:+ str1 q) None.
Proof.
  revert cur. induction body as [|ch body IH]; intros cur Hb.
  - cbn. by rewrite Ascii.eqb_refl.
  - cbn in Hb. apply andb_true_iff in Hb as [Hch Hb].
    apply negb_true_iff in Hch.
    cbn [String.append split_loop]. rewrite Hch, IH by done.
    by rewrite str_app_assoc.
Qed.

Lemma split_loop_open_literal q body out cur :
  str_lacks q body = true ->
  split_loop body out cur (Some q) = push_stmt out (cur +:+ body).
Proof.
  revert cur. induction body as [|ch body IH]; intros cur Hb.
  - cbn. by rewrite str_app_nil_r.
  - cbn in Hb. apply andb_true_iff in Hb as [Hch Hb].
    apply negb_true_iff in Hch.
    cbn [split_loop]. rewrite Hch, IH by done.
    by rewrite str_app_assoc.
Qed.

Lemma push_stmt_nonempty out cur :
  Forall (fun s => s ≠ EmptyString) out ->
  Forall (fun s => s ≠ EmptyString) (push_stmt out cur).
Proof.
  intros Hout. unfold push_stmt.
  destruct (is_empty (collapse cur)) eqn:He; [done|].
  apply Forall_app. split; [done|]. repeat constructor.
  intros Heq. rewrite Heq in He. done.
Qed.

Lemma split_loop_nonempty text out cur quote :
  Forall (fun s => s ≠ EmptyString) out ->
  Forall (fun s => s ≠ EmptyString) (split_loop text out cur quote).
Proof.
  revert out cur quote.
  induction text as [|ch text IH]; intros out cur quote Hout; cbn.
  - by apply push_stmt_nonempty.
  - destruct quote; [by apply IH|].
    destruct (_ || _); [by apply IH|].
    destruct (Ascii.eqb ch ";"); apply IH; [|done].
    by apply push_stmt_nonempty.
Qed.

(** ** The comment stripper *)

Lemma scan_lines_app l1 l2 lineNo s :
  scan_lines (l1 ++ l2) lineNo s =
  scan_lines l2 (lineNo + Z.of_nat (length l1)) (scan_lines l1 lineNo s).
Proof.
  revert lineNo s.
  induction l1 as [|raw l1 IH]; intros lineNo s; cbn [scan_lines app length].
  - f_equal. lia.
  - rewrite IH. f_equal. lia.
Qed.

Lemma stripComments_cons2 c d tl b :
  stripComments (String c (String d tl)) b =
    if negb b && Ascii.eqb c "/"%char && Ascii.eqb d "*"%char
    then stripComments tl true
    else if b && Ascii.eqb c "*"%char && Ascii.eqb d "/"%char
    then stripComments tl false
    else if negb b
    then let '(r, b') := stripComments (String d tl) b in (String c r, b')
    else stripComments (String d tl) b.
Proof. done. Qed.

(** Inside a comment a line without the closing marker is dropped. *)
Lemma stripComments_inside (line : string) :
  has_close line = false -> stripComments line true = (EmptyString, true).
Proof.
  induction line as [|c tl IH]; [done|].
  intros H. cbn [has_close] in H. apply orb_false_iff in H as [H1 H2].
  destruct tl as [|d tl']; [done|].
  rewrite stripComments_cons2. cbn [negb andb].
  destruct (Ascii.eqb_spec c "*"); [|by apply IH].
  destruct (Ascii.eqb_spec d "/"); [|by apply IH].
  subst. cbn in H1. by rewrite bool_decide_true in H1.
Qed.

Lemma split_lines_nonempty (s : string) : split_lines s ≠ [].
Proof.
  induction s as [|c s IH]; cbn; [done|].
  destruct (Ascii.eqb c LF); [done|].
  destruct (_ && _); [done|]. by destruct (split_lines s).
Qed.

(** The first line of a text starts like the text, if it starts. *)
Lemma split_lines_head (s : string) (l : string) (ls : list string) (x : ascii) :
  split_lines s = l :: ls -> str_head l = Some x -> str_head s = Some x.
Proof.
  destruct s as [|c s]; cbn.
  - by intros [= <- <-].
  - destruct (Ascii.eqb c LF); [by intros [= <- <-]|].
    destruct (Ascii.eqb_spec c CR) as [->|Hc]; cbn [andb].
    + case_bool_decide as Hh.
      * destruct s as [|d s]; [done|]. cbn in Hh. injection Hh as ->.
        cbn. by intros [= <- <-].
      * destruct (split_lines s); by intros [= <- <-].
    + destruct (split_lines s); by intros [= <- <-].
Qed.

Lemma has_close_lines (s : string) :
  has_close s = false -> Forall (fun l => has_close l = false) (split_lines s).
Proof.
  induction s as [|c s IH]; cbn [has_close split_lines].
  - by repeat constructor.
  - intros [H1 H2]%orb_false_iff. specialize (IH H2).
    destruct (Ascii.eqb c LF); [by constructor|].
    destruct (Ascii.eqb c CR && bool_decide (str_head s = Some LF)); [done|].
    destruct (split_lines s) as [|l ls] eqn:Hs.
    { by destruct (split_lines_nonempty s). }
    apply Forall_cons in IH as [Hl Hls]. constructor; [|done].
    cbn [has_close]. rewrite Hl, orb_false_r.
    destruct (Ascii.eqb c "*"); [|done]. cbn [andb] in *.
    apply bool_decide_eq_false. intros Hh.
    apply (split_lines_head s l ls) in Hh; [|done].
    by rewrite bool_decide_true in H1.
Qed.

Lemma collapse_empty : collapse EmptyString = EmptyString.
Proof. done. Qed.

(** Inside a comment that is not closed, the scan of a line does
    nothing. *)
Lemma scan_line_inside raw lineNo s :
  inBlockComment s = true -> has_close raw = false ->
  scan_line raw lineNo s = s.
Proof.
  intros Hs Hraw. unfold scan_line. rewrite Hs, stripComments_inside by done.
  rewrite collapse_empty. cbn. rewrite <- Hs. by destruct s.
Qed.

Lemma scan_lines_inside lines lineNo s :
  inBlockComment s = true ->
  Forall (fun l => has_close l = false) lines ->
  scan_lines lines lineNo s = s.
Proof.
  intros Hs Hl. revert lineNo.
  induction Hl as [|raw lines Hraw Hl IH]; intros lineNo; cbn [scan_lines].
  - done.
  - rewrite scan_line_inside by done. apply IH.
Qed.

(** The lines of a text followed by a text that does not start with a
    line feed: the last line goes on with the first line of the
    addition. *)
Lemma split_lines_app (a b : string) (l0 : string) (ls : list string) :
  str_head b ≠ Some LF ->
  split_lines b = l0 :: ls ->
  exists init last,
    split_lines a = init ++ [last] /\
    split_lines (a +:+ b) = init ++ (last +:+ l0) :: ls.
Proof.
  intros Hb Hsb. induction a as [|c a (init & last & Ha & Hab)].
  - exists [], EmptyString. by rewrite str_app_nil_l.
  - cbn [String.append split_lines]. rewrite Ha, Hab.
    destruct (Ascii.eqb c LF).
    { exists (EmptyString :: init), last. done. }
    assert (bool_decide (str_head (a +:+ b) = Some LF)
            = bool_decide (str_head a = Some LF)) as ->.
    { destruct a; [|done]. rewrite str_app_nil_l.
      by rewrite !bool_decide_false. }
    destruct (_ && _).
    { exists init, last. done. }
    destruct init as [|l init]; cbn [app].
    + exists [], (String c last). done.
    + exists (String c l :: init), last. done.
Qed.

(** A line that ends outside a comment, followed by an opening marker
    and a text without closing marker: the stripped text is that of the
    line, and the line ends inside the comment. *)
Lemma stripComments_open (line r : string) :
  has_close r = false ->
  forall b x,
    stripComments line b = (x, false) ->
    stripComments (line +:+ "/*" +:+ r) b = (x, true).
Proof.
  intros Hr.
  assert (forall line,
            (forall b x, stripComments line b = (x, false) ->
                         stripComments (line +:+ "/*" +:+ r) b = (x, true)) /\
            (forall c b x, stripComments (String c line) b = (x, false) ->
                           stripComments (String c line +:+ "/*" +:+ r) b
                           = (x, true))) as H; [|exact (proj1 (H line))].
  clear line. induction line as [|d line [IH1 IH2]].
  - split.
    + intros b x [= <- ->]. cbn [String.append].
      rewrite stripComments_cons2. cbn. by apply stripComments_inside.
    + intros c b x. cbn [stripComments].
      destruct b; cbn [negb]; [by intros [= _ ?]|]. intros [= <-].
      change (String c EmptyString +:+ "/*" +:+ r)
        with (String c (String "/" (String "*" r))).
      rewrite stripComments_cons2. cbn [negb andb].
      rewrite andb_false_r. rewrite stripComments_cons2. cbn.
      by rewrite stripComments_inside.
  - split; [exact (IH2 d)|].
    intros c b x.
    change (String c (String d line) +:+ "/*" +:+ r)
      with (String c (String d (line +:+ "/*" +:+ r))).
    rewrite !stripComments_cons2.
    destruct (negb b && Ascii.eqb c "/" && Ascii.eqb d "*"); [apply IH1|].
    destruct (b && Ascii.eqb c "*" && Ascii.eqb d "/"); [apply IH1|].
    destruct (negb b).
    + destruct (stripComments (String d line) b) as [r' b'] eqn:Hs.
      intros [= <- ->].
      change (String d (line +:+ "/*" +:+ r))
        with (String d line +:+ "/*" +:+ r).
      by rewrite (IH2 d b r' Hs).
    + apply IH2.
Qed.

(** [scan_line] looks at the raw line through [stripComments] only. *)
Lemma scan_line_stripped raw raw' lineNo s x f f' :
  stripComments raw (inBlockComment s) = (x, f) ->
  stripComments raw' (inBlockComment s) = (x, f') ->
  scan_line raw' lineNo s = with_flag f' (scan_line raw lineNo s).
Proof.
  intros H H'. unfold scan_line. rewrite H, H'.
  destruct (is_empty (collapse x)); [done|].
  destruct (exec labelPattern (collapse x) 0); [|done].
  by destruct (is_empty _).
Qed.

Lemma scan_line_flag raw lineNo s :
  inBlockComment (scan_line raw lineNo s)
  = (stripComments raw (inBlockComment s)).2.
Proof.
  unfold scan_line. destruct (stripComments _ _) as [x f]. cbn.
  destruct (is_empty (collapse x)); [done|].
  destruct (exec labelPattern (collapse x) 0); [|done].
  by destruct (is_empty _).
Qed.

Lemma scan_open_comment (pre rest : string) :
  inBlockComment (scan pre) = false ->
  has_close rest = false ->
  scan (pre +:+ "/*" +:+ rest) = with_flag true (scan pre).
Proof.
  intros Hpre Hrest. unfold scan in *.
  destruct (split_lines rest) as [|r0 rs] eqn:Hsr.
  { by destruct (split_lines_nonempty rest). }
  pose proof (has_close_lines rest Hrest) as Hall. rewrite Hsr in Hall.
  apply Forall_cons in Hall as [Hr0 Hrs].
  destruct (split_lines_app pre ("/*" +:+ rest) (String "/" (String "*" r0)) rs)
    as (init & last & Ha & Hab).
  { done. }
  { change ("/*" +:+ rest) with (String "/" (String "*" rest)).
    cbn [split_lines]. rewrite Hsr. done. }
  rewrite Hab. rewrite Ha in Hpre |- *.
  rewrite !scan_lines_app in *. cbn [scan_lines] in *.
  set (n := (1 + Z.of_nat (length init))%Z) in *.
  set (s1 := scan_lines init 1 initial_scanner) in *.
  rewrite scan_line_flag in Hpre.
  destruct (stripComments last (inBlockComment s1)) as [x f] eqn:Hs.
  cbn in Hpre. subst f.
  change (String "/" (String "*" r0)) with ("/*" +:+ r0).
  rewrite (scan_line_stripped last (last +:+ "/*" +:+ r0) n s1 x false true).
  - apply scan_lines_inside; done.
  - done.
  - by apply stripComments_open.
Qed.

(** ** The matcher *)

Lemma str_take_app (w r : string) : str_take (String.length w) (w +:+ r) = w.
Proof. induction w as [|c w IH]; cbn; [by destruct r|]. by rewrite IH. Qed.

Lemma span_app p s : (span p s).1 +:+ (span p s).2 = s.
Proof.
  induction s as [|c s IH]; cbn; [done|].
  destruct (p c); [|done]. destruct (span p s) as [w r]. cbn in *.
  by rewrite IH.
Qed.

Lemma span_forall p s : str_forall p (span p s).1 = true.
Proof.
  induction s as [|c s IH]; cbn; [done|].
  destruct (p c) eqn:Hc; [|done]. destruct (span p s) as [w r]. cbn in *.
  by rewrite Hc, IH.
Qed.

Lemma span_stop p s c : str_head (span p s).2 = Some c -> p c = false.
Proof.
  induction s as [|x s IH]; cbn; [done|].
  destruct (p x) eqn:Hx.
  - destruct (span p s) as [w r]. cbn in *. done.
  - cbn. by intros [= <-].
Qed.

(** The span of a run followed by a text that does not go on. *)
Lemma span_run p w r :
  str_forall p w = true ->
  (forall c, str_head r = Some c -> p c = false) ->
  span p (w +:+ r) = (w, r).
Proof.
  intros Hw Hr. induction w as [|c w IH]; cbn in *.
  - destruct r as [|c r]; [done|]. cbn. by rewrite (Hr c).
  - apply andb_true_iff in Hw as [Hc Hw]. by rewrite Hc, IH.
Qed.

Lemma str_prefix_split (pre s : string) :
  String.prefix pre s = true ->
  s = pre +:+ str_drop (String.length pre) s.
Proof.
  revert s. induction pre as [|c pre IH]; intros [|x s]; cbn; try done.
  destruct (ascii_dec c x) as [->|]; [|done]. intros H. by rewrite <- IH.
Qed.

Lemma str_prefix_app (pre s : string) : String.prefix pre (pre +:+ s) = true.
Proof.
  induction pre as [|c pre IH]; cbn; [by destruct s|].
  destruct (ascii_dec c c); done.
Qed.

(** A literal matches the text that starts with it. *)
Lemma rmatch_Lit (s : string) (cur : cursor) (caps : captures) (k : cont) :
  rmatch (Lit s) cur caps k =
    if String.prefix s (c_rest cur)
    then k (advance cur s (str_drop (String.length s) (c_rest cur))) caps
    else None.
Proof.
  revert cur. induction s as [|c s IH]; intros [pos prev rest].
  - cbn. unfold advance. cbn. rewrite Nat.add_0_r. by destruct rest.
  - cbn [Lit rmatch]. unfold one. cbn [c_rest c_pos c_prev].
    destruct rest as [|x rest]; [done|]. cbn [String.prefix].
    destruct (Ascii.eqb_spec c x) as [->|Hne].
    + destruct (ascii_dec x x); [|done]. rewrite IH. cbn [c_rest].
      destruct (String.prefix s rest); [|done].
      unfold advance. cbn. by rewrite Nat.add_succ_r.
    + by destruct (ascii_dec c x).
Qed.

(** When the continuation fails in front of a character of the class,
    the iteration stops after the longest run only. *)
Lemma star_skip p pos prev s caps (k : cont) :
  (forall pos' prev' c s',
     p c = true -> k (Cursor pos' prev' (String c s')) caps = None) ->
  star p pos prev s caps k =
    k (advance (Cursor pos prev s) (span p s).1 (span p s).2) caps.
Proof.
  intros Hk. revert pos prev.
  induction s as [|c s IH]; intros pos prev; cbn.
  - unfold advance. cbn. by rewrite Nat.add_0_r.
  - destruct (p c) eqn:Hc.
    + rewrite IH. destruct (span p s) as [w r]. unfold advance. cbn.
      rewrite Nat.add_succ_r.
      destruct (k _ caps) eqn:Hres; [done|]. by apply Hk.
    + unfold advance. cbn. by rewrite Nat.add_0_r.
Qed.

(** When the continuation succeeds after the longest run, that is the
    result. *)
Lemma star_max p pos prev w r caps (k : cont) res :
  str_forall p w = true ->
  (forall c, str_head r = Some c -> p c = false) ->
  k (advance (Cursor pos prev (w +:+ r)) w r) caps = Some res ->
  star p pos prev (w +:+ r) caps k = Some res.
Proof.
  intros Hw Hr. revert pos prev Hw.
  induction w as [|c w IH]; intros pos prev Hw Hk.
  - unfold advance in Hk. cbn in Hk. rewrite Nat.add_0_r in Hk.
    rewrite str_app_nil_l. destruct r as [|c r]; cbn; [done|].
    by rewrite (Hr c).
  - cbn in Hw. apply andb_true_iff in Hw as [Hc Hw].
    cbn [String.append star]. rewrite Hc.
    rewrite (IH (S pos) (Some c)); [done|done|].
    unfold advance in *. cbn in *. by rewrite Nat.add_succ_r in Hk.
Qed.

(** A result of the iteration is a result of the continuation after
    some run. *)
Lemma star_inv p pos prev s caps (k : cont) res :
  star p pos prev s caps k = Some res ->
  exists w r,
    s = w +:+ r /\ str_forall p w = true /\
    k (advance (Cursor pos prev s) w r) caps = Some res.
Proof.
  revert pos prev. induction s as [|c s IH]; intros pos prev; cbn.
  - intros H. exists EmptyString, EmptyString. unfold advance. cbn.
    by rewrite Nat.add_0_r.
  - destruct (p c) eqn:Hc.
    + destruct (star p (S pos) (Some c) s caps k) eqn:Hs.
      * intros [= <-]. destruct (IH _ _ Hs) as (w & r & -> & Hw & Hk).
        exists (String c w), r. cbn. rewrite Hc, Hw. split; [done|].
        split; [done|]. unfold advance in *. cbn in *.
        by rewrite Nat.add_succ_r.
      * intros H. exists EmptyString, (String c s). unfold advance. cbn.
        by rewrite Nat.add_0_r.
    + intros H. exists EmptyString, (String c s). unfold advance. cbn.
      by rewrite Nat.add_0_r.
Qed.

Ltac ascii_cases c :=
  destruct c as [[] [] [] [] [] [] [] []]; vm_compute; try done.

Lemma space_not_target (c : ascii) : is_space c = true -> is_target_char c = false.
Proof. ascii_cases c. Qed.

Lemma space_not_label (c : ascii) : is_space c = true -> is_label_char c = false.
Proof. ascii_cases c. Qed.

Lemma space_not_V (c : ascii) : is_space c = true -> c ≠ "V"%char.
Proof. ascii_cases c. Qed.

Lemma space_not_paren (c : ascii) : is_space c = true -> c ≠ "("%char.
Proof. ascii_cases c. Qed.

Lemma space_not_colon (c : ascii) : is_space c = true -> c ≠ ":"%char.
Proof. ascii_cases c. Qed.

Lemma str_last_app d w1 w2 : str_last d (w1 +:+ w2) = str_last (str_last d w1) w2.
Proof. revert d. induction w1 as [|c w1 IH]; intros d; cbn; done. Qed.

Lemma advance_advance cur w1 r1 w2 r2 :
  advance (advance cur w1 r1) w2 r2 = advance cur (w1 +:+ w2) r2.
Proof.
  unfold advance. cbn. rewrite str_length_app, str_last_app.
  by rewrite Nat.add_assoc.
Qed.

Lemma rmatch_Seq r1 r2 cur caps (k : cont) :
  rmatch (Seq r1 r2) cur caps k =
    rmatch r1 cur caps (fun cur' caps' => rmatch r2 cur' caps' k).
Proof. done. Qed.

Lemma rmatch_Alt r1 r2 cur caps (k : cont) :
  rmatch (Alt r1 r2) cur caps k =
    match rmatch r1 cur caps k with
    | Some res => Some res
    | None => rmatch r2 cur caps k
    end.
Proof. done. Qed.

Lemma rmatch_Grp n r cur caps (k : cont) :
  rmatch (Grp n r) cur caps k =
    rmatch r cur caps
      (fun cur' caps' =>
         k cur' ((n, str_take (c_pos cur' - c_pos cur) (c_rest cur)) :: caps')).
Proof. done. Qed.

Lemma rmatch_WordB cur caps (k : cont) :
  rmatch WordB cur caps k = if at_word_boundary cur then k cur caps else None.
Proof. done. Qed.

Lemma rmatch_Star p cur caps (k : cont) :
  rmatch (Star p) cur caps k = star p (c_pos cur) (c_prev cur) (c_rest cur) caps k.
Proof. done. Qed.

Lemma span_fst_snd p s : span p s = ((span p s).1, (span p s).2).
Proof. by destruct (span p s). Qed.

(** [c+] in front of a continuation that always succeeds: the longest
    run, which has to be non-empty. *)
Lemma rmatch_Plus_total p (cur : cursor) (caps : captures) (k : cont) :
  (forall c caps', is_Some (k c caps')) ->
  rmatch (Plus p) cur caps k =
    let '(t, r') := span p (c_rest cur) in
    if is_empty t then None else k (advance cur t r') caps.
Proof.
  intros Hk. destruct cur as [pos prev r]. cbn [rmatch]. unfold one.
  cbn [c_rest c_pos c_prev]. destruct r as [|c r]; [done|].
  cbn [span]. destruct (p c) eqn:Hc; [|done].
  rewrite (span_fst_snd p r). cbn [is_empty].
  destruct (Hk (advance (Cursor pos prev (String c r)) (String c (span p r).1)
                  (span p r).2) caps) as [res Hres].
  rewrite Hres. rewrite <- (span_app p r) at 1.
  apply star_max.
  - apply span_forall.
  - intros x. apply span_stop.
  - rewrite <- Hres. unfold advance. cbn. by rewrite Nat.add_succ_r.
Qed.

Lemma rmatch_Chr c (cur : cursor) (caps : captures) (k : cont) :
  rmatch (Chr c) cur caps k =
    if String.prefix (str1 c) (c_rest cur)
    then k (advance cur (str1 c) (str_drop 1 (c_rest cur))) caps
    else None.
Proof.
  destruct cur as [pos prev r]. cbn [rmatch]. unfold one.
  cbn [c_rest c_pos c_prev]. destruct r as [|x r]; [done|]. cbn.
  destruct (Ascii.eqb_spec c x) as [->|Hne].
  - destruct (ascii_dec x x); [|done]. unfold advance. cbn.
    rewrite Nat.add_1_r. by destruct r.
  - by destruct (ascii_dec c x).
Qed.

Lemma rmatch_VALUE (cur : cursor) (caps : captures) (k : cont) :
  rmatch (Seq (Lit "VALUE") WordB) cur caps k =
    if String.prefix "VALUE" (c_rest cur)
       && negb (is_word_opt (str_head (str_drop 5 (c_rest cur))))
    then k (advance cur "VALUE" (str_drop 5 (c_rest cur))) caps
    else None.
Proof.
  rewrite rmatch_Seq, rmatch_Lit.
  destruct (String.prefix "VALUE" (c_rest cur)); [|done].
  rewrite rmatch_WordB. unfold at_word_boundary. cbn.
  by destruct (is_word_opt _).
Qed.

Lemma advance_pos_sub cur w r : c_pos (advance cur w r) - c_pos cur = String.length w.
Proof. unfold advance. cbn. lia. Qed.

Lemma str_prefix_take (pre s : string) :
  String.prefix pre s = true -> str_take (String.length pre) s = pre.
Proof.
  intros H. apply str_prefix_split in H. rewrite H at 1. apply str_take_app.
Qed.

Lemma span_take p s : str_take (String.length (span p s).1) s = (span p s).1.
Proof. rewrite <- (span_app p s) at 2. apply str_take_app. Qed.

(** The alternatives of the call pattern, after the white space. *)
Lemma call_target_rmatch (cur : cursor) :
  rmatch (Grp 1 (Alt (Seq (Lit "VALUE") WordB)
                (Alt (Chr "("%char) (Grp 2 (Plus is_target_char)))))
    cur [] final_cont
  = call_target_at cur.
Proof.
  unfold call_target_at. rewrite rmatch_Grp, rmatch_Alt, rmatch_VALUE.
  destruct (String.prefix "VALUE" (c_rest cur)) eqn:HV;
    [destruct (is_word_opt (str_head (str_drop 5 (c_rest cur))))|];
    cbn [andb negb].
  2:{ unfold final_cont. rewrite advance_pos_sub.
      by rewrite (str_prefix_take "VALUE"). }
  all: rewrite rmatch_Alt, rmatch_Chr; unfold str1.
  all: destruct (String.prefix "(" (c_rest cur)) eqn:HP.
  1,3: unfold final_cont; rewrite advance_pos_sub;
       rewrite (str_prefix_take "(") by done; done.
  all: rewrite rmatch_Grp.
  all: rewrite rmatch_Plus_total by (intros; unfold final_cont; eauto).
  all: rewrite (span_fst_snd is_target_char (c_rest cur)).
  all: destruct (is_empty _); [done|].
  all: unfold final_cont; rewrite !advance_pos_sub.
  all: by rewrite !span_take.
Qed.

Lemma str_prefix_cons_ne a pre c s :
  a ≠ c -> String.prefix (String a pre) (String c s) = false.
Proof.
  intros Hne. change (String.prefix (String a pre) (String c s))
    with (if ascii_dec a c then String.prefix pre s else false).
  by destruct (ascii_dec a c).
Qed.

Lemma call_target_at_space pos prev c s :
  is_space c = true -> call_target_at (Cursor pos prev (String c s)) = None.
Proof.
  intros Hc. unfold call_target_at. cbn [c_rest].
  rewrite !str_prefix_cons_ne.
  - cbn. by rewrite (space_not_target c Hc).
  - intros <-. by destruct (space_not_paren _ Hc).
  - intros <-. by destruct (space_not_V _ Hc).
Qed.

Lemma cursor_eta (cur : cursor) :
  Cursor (c_pos cur) (c_prev cur) (c_rest cur) = cur.
Proof. by destruct cur. Qed.

(** The call pattern matches where [call_site_at] finds a call. *)
Lemma match_at_callPattern (cur : cursor) :
  match_at callPattern cur = call_site_at cur.
Proof.
  unfold match_at, call_site_at, callPattern.
  change (fun (cur' : cursor) (caps' : captures) => Some (cur', caps'))
    with final_cont.
  rewrite rmatch_Seq, rmatch_WordB.
  destruct (at_word_boundary cur); [|done]. cbn [andb].
  rewrite rmatch_Seq, rmatch_Lit.
  destruct (String.prefix "CALL" (c_rest cur)); [|done].
  rewrite rmatch_Seq, rmatch_WordB.
  change (String.length "CALL") with 4.
  set (after := str_drop 4 (c_rest cur)).
  replace (at_word_boundary (advance cur "CALL" after))
    with (negb (is_word_opt (str_head after))) by done.
  destruct (is_word_opt (str_head after)); [done|]. cbn [negb].
  rewrite rmatch_Seq, rmatch_Star.
  rewrite star_skip.
  - rewrite cursor_eta, advance_advance, call_target_rmatch.
    change (c_rest (advance cur "CALL" after)) with after.
    by destruct (span is_space after).
  - intros pos' prev' c s' Hc. rewrite call_target_rmatch.
    by apply call_target_at_space.
Qed.

(** ** Search and the loop over the matches *)

Lemma cursor_at_0 pos prev s : cursor_at pos prev s 0 = Cursor pos prev s.
Proof. by destruct s. Qed.

Lemma cursor_at_S pos prev c s i :
  cursor_at pos prev (String c s) (S i) = cursor_at (S pos) (Some c) s i.
Proof. done. Qed.

Lemma cursor_at_pos pos prev s i :
  i <= String.length s -> c_pos (cursor_at pos prev s i) = pos + i.
Proof.
  revert pos prev s. induction i as [|i IH]; intros pos prev s Hi.
  - rewrite cursor_at_0. cbn. lia.
  - destruct s as [|c s]; cbn in Hi; [lia|].
    rewrite cursor_at_S, IH by lia. lia.
Qed.

Lemma cursor_at_rest pos prev s i :
  c_rest (cursor_at pos prev s i) = str_drop i s.
Proof.
  revert pos prev s. induction i as [|i IH]; intros pos prev s.
  - by rewrite cursor_at_0.
  - destruct s as [|c s]; [done|]. by rewrite cursor_at_S, IH.
Qed.

Lemma cursor_at_add pos prev s i j :
  cursor_at pos prev s (i + j) =
    let c := cursor_at pos prev s i in
    cursor_at (c_pos c) (c_prev c) (c_rest c) j.
Proof.
  revert pos prev s. induction i as [|i IH]; intros pos prev s.
  - by rewrite cursor_at_0.
  - destruct s as [|c s].
    + cbn. by destruct j.
    + cbn [Nat.add]. rewrite !cursor_at_S. apply IH.
Qed.

Lemma match_at_index r cur m : match_at r cur = Some m -> m_index m = c_pos cur.
Proof.
  unfold match_at. destruct (rmatch _ _ _ _) as [[cur' caps']|]; [|done].
  by intros [= <-].
Qed.

(** [search] returns the leftmost match. *)
Lemma search_Some r pos prev s m :
  search r pos prev s = Some m ->
  exists i,
    i <= String.length s /\
    match_at r (cursor_at pos prev s i) = Some m /\
    forall j, j < i -> match_at r (cursor_at pos prev s j) = None.
Proof.
  revert pos prev. induction s as [|c s IH]; intros pos prev; cbn [search].
  - destruct (match_at r (Cursor pos prev EmptyString)) eqn:Hm; [|done].
    intros [= ->]. exists 0. split; [done|]. split; [done|]. lia.
  - destruct (match_at r (Cursor pos prev (String c s))) eqn:Hm.
    + intros [= ->]. exists 0. split; [cbn; lia|]. split; [done|]. lia.
    + intros (i & Hi & Hmi & Hlt)%IH. exists (S i).
      split; [cbn; lia|]. split; [done|].
      intros [|j] Hj; [done|]. rewrite cursor_at_S. apply Hlt. lia.
Qed.

Lemma search_None r pos prev s :
  search r pos prev s = None ->
  forall i, i <= String.length s -> match_at r (cursor_at pos prev s i) = None.
Proof.
  revert pos prev. induction s as [|c s IH]; intros pos prev; cbn [search].
  - destruct (match_at r (Cursor pos prev EmptyString)) eqn:Hm; [done|].
    intros _ i Hi. cbn in Hi. by replace i with 0 by lia.
  - destruct (match_at r (Cursor pos prev (String c s))) eqn:Hm; [done|].
    intros Hs [|i] Hi; [done|]. rewrite cursor_at_S. apply IH; [done|].
    cbn in Hi. lia.
Qed.

Lemma exec_Some r s lastIndex m :
  exec r s lastIndex = Some m ->
  exists i,
    lastIndex <= i <= String.length s /\
    match_at r (cursor_at 0 None s i) = Some m /\
    m_index m = i /\
    forall j, lastIndex <= j < i -> match_at r (cursor_at 0 None s j) = None.
Proof.
  unfold exec. destruct (Nat.leb_spec lastIndex (String.length s)); [|done].
  intros (i & Hi & Hm & Hlt)%search_Some.
  rewrite cursor_at_rest in Hi.
  assert (String.length (str_drop lastIndex s) = String.length s - lastIndex)
    as Hlen.
  { clear. revert s. induction lastIndex as [|n IH]; intros [|c s]; cbn; auto. }
  pose proof (cursor_at_add 0 None s lastIndex) as Hadd. cbn zeta in Hadd.
  exists (lastIndex + i). rewrite Hadd. split; [lia|]. split; [done|]. split.
  - apply match_at_index in Hm. rewrite Hm, <- Hadd.
    rewrite cursor_at_pos; lia.
  - intros j Hj. replace j with (lastIndex + (j - lastIndex)) by lia.
    rewrite Hadd. apply Hlt. lia.
Qed.

Lemma exec_None r s lastIndex :
  exec r s lastIndex = None ->
  forall i, lastIndex <= i <= String.length s ->
    match_at r (cursor_at 0 None s i) = None.
Proof.
  unfold exec. intros H i Hi.
  destruct (Nat.leb_spec lastIndex (String.length s)); [|lia].
  replace i with (lastIndex + (i - lastIndex)) by lia.
  rewrite cursor_at_add. cbn zeta. apply search_None; [done|].
  rewrite cursor_at_rest.
  assert (String.length (str_drop lastIndex s) = String.length s - lastIndex)
    as ->.
  { clear. revert s. induction lastIndex as [|n IH]; intros [|c s]; cbn; auto. }
  lia.
Qed.

Lemma exec_bound r s lastIndex m :
  exec r s lastIndex = Some m -> lastIndex <= String.length s.
Proof.
  unfold exec. by destruct (Nat.leb_spec lastIndex (String.length s)).
Qed.

(** A match of the call pattern is not empty. *)
Lemma call_target_at_pos cur cur' caps :
  call_target_at cur = Some (cur', caps) -> c_pos cur < c_pos cur'.
Proof.
  unfold call_target_at.
  destruct (_ && _); [intros [= <- _]; cbn; lia|].
  destruct (String.prefix "(" _); [intros [= <- _]; cbn; lia|].
  destruct (span is_target_char (c_rest cur)) as [t r'].
  destruct t as [|c t]; [done|]. intros [= <- _]. cbn. lia.
Qed.

Lemma call_site_at_end cur m :
  call_site_at cur = Some m -> c_pos cur < m_end m.
Proof.
  unfold call_site_at. destruct (_ && _); [|done].
  destruct (is_word_opt _); [done|].
  destruct (span is_space _) as [w r].
  destruct (call_target_at _) as [[cur' caps]|] eqn:Ht; [|done].
  intros [= <-]. apply call_target_at_pos in Ht. cbn in *. lia.
Qed.

Lemma exec_call_progress upper lastIndex m :
  exec callPattern upper lastIndex = Some m ->
  lastIndex <= m_index m < m_end m.
Proof.
  intros (i & Hi & Hm & Hidx & _)%exec_Some.
  rewrite match_at_callPattern in Hm. apply call_site_at_end in Hm.
  rewrite cursor_at_pos in Hm by lia. lia.
Qed.

(** The loop is a fold over the matches. *)
Lemma call_loop_fold fuel upper lastIndex lineNo scope b :
  call_loop fuel upper lastIndex lineNo scope b =
    fold_left (fun b m => process_match m lineNo scope b)
      (call_sites fuel upper lastIndex) b.
Proof.
  revert lastIndex b. induction fuel as [|fuel IH]; intros lastIndex b; cbn.
  - done.
  - destruct (exec callPattern upper lastIndex); [|done]. cbn. apply IH.
Qed.

(** Fuel above the remaining length is never used up. *)
Lemma call_sites_fuel fuel fuel' upper lastIndex :
  String.length upper + 1 - lastIndex <= fuel ->
  String.length upper + 1 - lastIndex <= fuel' ->
  call_sites fuel upper lastIndex = call_sites fuel' upper lastIndex.
Proof.
  revert fuel' lastIndex.
  induction fuel as [|fuel IH]; intros fuel' lastIndex Hf Hf'.
  - destruct fuel' as [|fuel']; [done|]. cbn.
    destruct (exec callPattern upper lastIndex) eqn:He; [|done].
    apply exec_bound in He. lia.
  - cbn. destruct (exec callPattern upper lastIndex) eqn:He.
    + pose proof (exec_bound _ _ _ _ He).
      pose proof (exec_call_progress _ _ _ He).
      destruct fuel' as [|fuel']; [lia|]. cbn. rewrite He. f_equal.
      apply IH; lia.
    + destruct fuel' as [|fuel']; [done|]. cbn. by rewrite He.
Qed.

Lemma call_loop_fuel fuel upper lastIndex lineNo scope b :
  String.length upper + 1 - lastIndex <= fuel ->
  call_loop fuel upper lastIndex lineNo scope b =
  call_loop (S (String.length upper)) upper lastIndex lineNo scope b.
Proof.
  intros Hf. rewrite !call_loop_fold.
  rewrite (call_sites_fuel fuel (S (String.length upper))); [done|done|lia].
Qed.

(** Every match of the pattern lies in a match of the loop. *)
Lemma call_sites_cover fuel upper lastIndex p m :
  String.length upper + 1 - lastIndex <= fuel ->
  lastIndex <= p <= String.length upper ->
  match_at callPattern (cursor_at 0 None upper p) = Some m ->
  exists m', m' ∈ call_sites fuel upper lastIndex /\
             m_index m' <= p < m_end m'.
Proof.
  revert lastIndex. induction fuel as [|fuel IH]; intros lastIndex Hf Hp Hm.
  - lia.
  - cbn. destruct (exec callPattern upper lastIndex) as [m1|] eqn:He.
    + pose proof (exec_call_progress _ _ _ He) as Hprog.
      destruct (exec_Some _ _ _ _ He) as (i & Hi & Hmi & Hidx & Hleft).
      assert (i <= p) as Hip.
      { destruct (Nat.le_gt_cases i p) as [|Hlt]; [done|].
        rewrite Hleft in Hm by lia. done. }
      destruct (Nat.lt_ge_cases p (m_end m1)) as [Hin|Hout].
      * exists m1. split; [apply list_elem_of_here | lia].
      * destruct (IH (m_end m1)) as (m' & Hm' & Hcov); [lia|lia|done|].
        exists m'. split; [by apply list_elem_of_further | done].
    + rewrite (exec_None _ _ _ He p) in Hm by lia. done.
Qed.

(** Every match of the loop is a match of the pattern at its index. *)
Lemma call_sites_sound fuel upper lastIndex m :
  m ∈ call_sites fuel upper lastIndex ->
  lastIndex <= m_index m <= String.length upper /\
  call_site_at (cursor_at 0 None upper (m_index m)) = Some m.
Proof.
  revert lastIndex. induction fuel as [|fuel IH]; intros lastIndex; cbn.
  - by intros ?%not_elem_of_nil.
  - destruct (exec callPattern upper lastIndex) as [m1|] eqn:He.
    + pose proof (exec_call_progress _ _ _ He) as Hprog.
      intros [->|Hin]%elem_of_cons.
      * destruct (exec_Some _ _ _ _ He) as (i & Hi & Hmi & Hidx & _).
        rewrite Hidx, <- match_at_callPattern. split; [lia | done].
      * destruct (IH _ Hin). split; [lia | done].
    + by intros ?%not_elem_of_nil.
Qed.

(** ** The classification of a match *)

Lemma upper_char_not_lower (c : ascii) : is_lower (upper_char c) = false.
Proof. ascii_cases c. Qed.

Lemma word_not_target_lower (c : ascii) :
  is_word c = true -> is_target_char c = false -> is_lower c = true.
Proof. ascii_cases c. Qed.

Lemma toUpperCase_no_lower (s : string) : no_lower (toUpperCase s) = true.
Proof.
  unfold no_lower, toUpperCase. induction s as [|c s IH]; [done|].
  cbn [str_map str_forall]. by rewrite upper_char_not_lower, IH.
Qed.

Lemma str_forall_app p s t :
  str_forall p (s +:+ t) = str_forall p s && str_forall p t.
Proof.
  induction s as [|c s IH]; cbn; [done|]. by rewrite IH, andb_assoc.
Qed.

Lemma str_forall_drop p n s :
  str_forall p s = true -> str_forall p (str_drop n s) = true.
Proof.
  revert s. induction n as [|n IH]; intros [|c s]; cbn; try done.
  intros [_ H]%andb_true_iff. by apply IH.
Qed.

Lemma str_forall_span_snd p q s :
  str_forall q s = true -> str_forall q (span p s).2 = true.
Proof.
  intros H. rewrite <- (span_app p s), str_forall_app in H.
  by apply andb_true_iff in H as [_ ?].
Qed.

Lemma str_forall_head p s c :
  str_forall p s = true -> str_head s = Some c -> p c = true.
Proof. destruct s; cbn; [done|]. intros [? _]%andb_true_iff [= <-]. done. Qed.

Lemma str_drop_add n m s : str_drop n (str_drop m s) = str_drop (m + n) s.
Proof.
  revert s. induction m as [|m IH]; intros s; [done|].
  destruct s as [|c s]; cbn; [by destruct n|]. apply IH.
Qed.

Lemma span_space_trimStart s : (span is_space s).2 = trimStart s.
Proof.
  induction s as [|c s IH]; cbn; [done|].
  destruct (is_space c); [|done]. destruct (span is_space s). done.
Qed.

(** In upper-case text a run of target characters that reads [VALUE]
    ends at a word boundary. *)
Lemma VALUE_token_boundary r :
  no_lower r = true ->
  (span is_target_char r).1 = "VALUE" ->
  String.prefix "VALUE" r
  && negb (is_word_opt (str_head (str_drop 5 r))) = true.
Proof.
  intros Hr Ht. pose proof (span_app is_target_char r) as Happ.
  rewrite Ht in Happ. rewrite <- Happ, str_prefix_app. cbn [andb].
  change (str_drop 5 ("VALUE" +:+ (span is_target_char r).2))
    with ((span is_target_char r).2).
  destruct (str_head _) as [x|] eqn:Hx; [|done]. cbn.
  destruct (is_word x) eqn:Hw; [|done].
  pose proof (span_stop _ _ _ Hx) as Hnt.
  pose proof (word_not_target_lower x Hw Hnt) as Hl.
  unfold no_lower in Hr. apply (str_forall_span_snd is_target_char) in Hr.
  apply (str_forall_head _ _ _ Hr) in Hx. by rewrite Hl in Hx.
Qed.

Lemma call_target_classify cur cur' caps lineNo scope b index end_ :
  no_lower (c_rest cur) = true ->
  call_target_at cur = Some (cur', caps) ->
  process_match (mkMatch index end_ caps) lineNo scope b
  = record_call
      (if (String.prefix "VALUE" (c_rest cur)
           && negb (is_word_opt (str_head (str_drop 5 (c_rest cur)))))
          || String.prefix "(" (c_rest cur)
       then Dynamic
       else
         let token := normalizeLabel (span is_target_char (c_rest cur)).1 in
         if String.eqb token "ON" || String.eqb token "OFF" then Toggle
         else Named token)
      lineNo scope b.
Proof.
  intros Hlow. unfold call_target_at.
  destruct (String.prefix "VALUE" (c_rest cur)
            && negb (is_word_opt (str_head (str_drop 5 (c_rest cur))))) eqn:HV.
  { by intros [= _ <-]. }
  destruct (String.prefix "(" (c_rest cur)) eqn:HP.
  { by intros [= _ <-]. }
  pose proof (VALUE_token_boundary (c_rest cur) Hlow) as Hval.
  pose proof (span_forall is_target_char (c_rest cur)) as Hall.
  destruct (span is_target_char (c_rest cur)) as [t r'] eqn:Hspan.
  cbn [fst] in *. destruct (is_empty t); [done|]. intros [= _ <-].
  unfold process_match. cbn [m_groups group Nat.eqb].
  rewrite bool_decide_false.
  2:{ intros [= ->]. rewrite Hval in HV; done. }
  rewrite bool_decide_false.
  2:{ intros [= ->]. cbn in Hall. done. }
  cbn [orb default]. by destruct (_ || _).
Qed.

(** The body of the loop does what the class of the text after the
    keyword asks. *)
Lemma call_site_classify upper i m lineNo scope b :
  no_lower upper = true ->
  call_site_at (cursor_at 0 None upper i) = Some m ->
  str_take 4 (str_drop i upper) = "CALL" /\
  process_match m lineNo scope b
  = record_call (classify (str_drop (i + 4) upper)) lineNo scope b.
Proof.
  intros Hlow. unfold call_site_at. rewrite cursor_at_rest.
  destruct (at_word_boundary _); [|done]. cbn [andb].
  destruct (String.prefix "CALL" (str_drop i upper)) eqn:HC; [|done].
  destruct (is_word_opt _); [done|].
  rewrite str_drop_add.
  pose proof (span_space_trimStart (str_drop (i + 4) upper)) as Htrim.
  destruct (span is_space (str_drop (i + 4) upper)) as [w r] eqn:Hspan.
  cbn [snd] in Htrim.
  destruct (call_target_at _) as [[cur' caps]|] eqn:Ht; [|done].
  intros [= <-]. split; [by apply (str_prefix_take "CALL")|].
  unfold classify. rewrite <- Htrim.
  assert (no_lower r = true) as Hr.
  { rewrite Htrim, <- span_space_trimStart.
    by apply str_forall_span_snd, str_forall_drop. }
  by rewrite (call_target_classify
                (advance (cursor_at 0 None upper i) ("CALL" +:+ w) r)
                _ _ lineNo scope b _ _ Hr Ht).
Qed.

(** ** The label pattern *)

Lemma rmatch_Plus_inv p cur caps (k : cont) res :
  rmatch (Plus p) cur caps k = Some res ->
  exists t r,
    c_rest cur = t +:+ r /\ t ≠ EmptyString /\ str_forall p t = true /\
    k (advance cur t r) caps = Some res.
Proof.
  destruct cur as [pos prev s]. cbn [rmatch]. unfold one.
  cbn [c_rest c_pos c_prev]. destruct s as [|c s]; [done|].
  destruct (p c) eqn:Hc; [|done].
  intros (w & r & -> & Hw & Hk)%star_inv.
  exists (String c w), r. cbn. rewrite Hc, Hw. split; [done|].
  split; [done|]. split; [done|].
  rewrite <- Hk. unfold advance. cbn. by rewrite Nat.add_succ_r.
Qed.

Lemma rmatch_Plus_max p cur t r caps (k : cont) res :
  c_rest cur = t +:+ r ->
  t ≠ EmptyString -> str_forall p t = true ->
  (forall c, str_head r = Some c -> p c = false) ->
  k (advance cur t r) caps = Some res ->
  rmatch (Plus p) cur caps k = Some res.
Proof.
  destruct cur as [pos prev s]. cbn [c_rest]. intros -> Ht Hall Hr Hk.
  destruct t as [|c t]; [done|]. cbn in Hall.
  apply andb_true_iff in Hall as [Hc Hall].
  cbn [rmatch]. unfold one. cbn [c_rest c_pos c_prev String.append].
  rewrite Hc. apply star_max; [done|done|].
  rewrite <- Hk. unfold advance. cbn. by rewrite Nat.add_succ_r.
Qed.

Lemma labelPattern_eq :
  labelPattern = Seq Bol (Seq (Grp 1 (Plus is_label_char)) label_rest).
Proof. done. Qed.

Lemma rmatch_Eol cur caps (k : cont) :
  rmatch Eol cur caps k = if is_empty (c_rest cur) then k cur caps else None.
Proof. done. Qed.

Lemma rmatch_Bol cur caps (k : cont) :
  rmatch Bol cur caps k = if (c_pos cur =? 0)%nat then k cur caps else None.
Proof. done. Qed.

(** The part of the label pattern after the identifier adds group 2. *)
Lemma label_rest_inv cur caps res :
  rmatch label_rest cur caps final_cont = Some res ->
  exists g2, res.2 = (2, g2) :: caps.
Proof.
  unfold label_rest. rewrite rmatch_Seq, rmatch_Star.
  intros (w1 & r1 & _ & _ & H)%star_inv. cbn beta in H.
  rewrite rmatch_Seq, rmatch_Chr in H.
  destruct (String.prefix _ _); [|done].
  rewrite rmatch_Seq, rmatch_Star in H.
  apply star_inv in H as (w2 & r2 & _ & _ & H). cbn beta in H.
  rewrite rmatch_Seq, rmatch_Grp, rmatch_Star in H.
  apply star_inv in H as (w3 & r3 & _ & _ & H). cbn beta in H.
  rewrite rmatch_Eol in H. destruct (is_empty _); [|done].
  unfold final_cont in H. injection H as <-. by eexists.
Qed.

(** The identifier of a matched label is a run of label characters. *)
Lemma labelPattern_inv cur m :
  match_at labelPattern cur = Some m ->
  exists ident g2,
    m_groups m = [(2, g2); (1, ident)] /\
    ident ≠ EmptyString /\ str_forall is_label_char ident = true.
Proof.
  unfold match_at.
  change (fun (cur' : cursor) (caps' : captures) => Some (cur', caps'))
    with final_cont.
  destruct (rmatch labelPattern cur [] final_cont) as [[cur' caps']|] eqn:Hm;
    [|done].
  intros [= <-]. cbn [m_groups].
  rewrite labelPattern_eq, rmatch_Seq, rmatch_Bol in Hm.
  destruct (c_pos cur =? 0)%nat; [|done].
  rewrite rmatch_Seq, rmatch_Grp in Hm.
  apply rmatch_Plus_inv in Hm as (t & r & Hrest & Hne & Hall & Hk).
  cbn beta in Hk. apply label_rest_inv in Hk as [g2 Hg]. cbn [snd] in Hg.
  exists t, g2. split; [|done].
  rewrite Hg, advance_pos_sub, Hrest, str_take_app. done.
Qed.

Lemma star_all p pos prev s caps (k : cont) res :
  str_forall p s = true ->
  k (advance (Cursor pos prev s) s EmptyString) caps = Some res ->
  star p pos prev s caps k = Some res.
Proof.
  intros Hs Hk. rewrite <- (str_app_nil_r s) at 1.
  apply star_max; [done|done|]. unfold advance in *. cbn in *. done.
Qed.

Lemma str_take_all s : str_take (String.length s) s = s.
Proof. induction s as [|c s IH]; cbn; [done|]. by rewrite IH. Qed.

Lemma label_rest_forward cur caps sp sp' trailing :
  c_rest cur = sp +:+ ":" +:+ sp' +:+ trailing ->
  str_forall is_space sp = true ->
  str_forall is_space sp' = true ->
  (forall c, str_head trailing = Some c -> is_space c = false) ->
  str_forall is_dot trailing = true ->
  exists cur',
    rmatch label_rest cur caps final_cont = Some (cur', (2, trailing) :: caps).
Proof.
  destruct cur as [pos prev rest]. cbn [c_rest].
  intros -> Hsp Hsp' Htr Hdot.
  unfold label_rest. rewrite rmatch_Seq, rmatch_Star.
  rewrite star_skip.
  2:{ intros pos' prev' c s' Hc. rewrite rmatch_Seq, rmatch_Chr.
      cbn [c_rest]. unfold str1. rewrite str_prefix_cons_ne; [done|].
      intros <-. by destruct (space_not_colon _ Hc). }
  cbn [c_pos c_prev c_rest].
  rewrite (span_run is_space sp (":" +:+ sp' +:+ trailing)); [|done|].
  2:{ intros c [= <-]. done. }
  cbn [fst snd]. rewrite rmatch_Seq, rmatch_Chr. cbn [c_rest advance].
  rewrite (str_prefix_app (str1 ":")).
  rewrite rmatch_Seq, rmatch_Star.
  change (str_drop 1 (":" +:+ sp' +:+ trailing)) with (sp' +:+ trailing).
  eexists. apply star_max; [done|done|].
  rewrite rmatch_Seq, rmatch_Grp, rmatch_Star.
  cbn [c_rest advance c_pos c_prev].
  apply star_all; [done|].
  rewrite rmatch_Eol. cbn [c_rest advance is_empty].
  unfold final_cont. rewrite advance_pos_sub, str_take_all. done.
Qed.

Lemma search_here r pos prev s m :
  match_at r (Cursor pos prev s) = Some m -> search r pos prev s = Some m.
Proof. intros H. destruct s; cbn [search]; by rewrite H. Qed.

Lemma exec_0 r s : exec r s 0 = search r 0 None s.
Proof. unfold exec. cbn [Nat.leb]. by rewrite cursor_at_0. Qed.

(** A line made of an identifier, white space, a colon, white space
    and a rest on one line matches from its start, with the identifier
    and the rest as groups. *)
Lemma labelPattern_forward ident sp sp' trailing :
  ident ≠ EmptyString ->
  str_forall is_label_char ident = true ->
  str_forall is_space sp = true ->
  str_forall is_space sp' = true ->
  (forall c, str_head trailing = Some c -> is_space c = false) ->
  str_forall is_dot trailing = true ->
  exists m,
    exec labelPattern (ident +:+ sp +:+ ":" +:+ sp' +:+ trailing) 0 = Some m /\
    m_groups m = [(2, trailing); (1, ident)].
Proof.
  intros Hne Hid Hsp Hsp' Htr Hdot.
  set (line := ident +:+ sp +:+ ":" +:+ sp' +:+ trailing).
  destruct (label_rest_forward
              (advance (Cursor 0 None line) ident
                 (sp +:+ ":" +:+ sp' +:+ trailing))
              [(1, ident)] sp sp' trailing) as [cur' Hrest]; try done.
  exists (mkMatch 0 (c_pos cur') [(2, trailing); (1, ident)]). split; [|done].
  rewrite exec_0. apply search_here. unfold match_at.
  change (fun (cur' : cursor) (caps' : captures) => Some (cur', caps'))
    with final_cont.
  rewrite labelPattern_eq, rmatch_Seq, rmatch_Bol. cbn [c_pos Nat.eqb].
  rewrite rmatch_Seq, rmatch_Grp.
  rewrite (rmatch_Plus_max is_label_char (Cursor 0 None line) ident
             (sp +:+ ":" +:+ sp' +:+ trailing) []
             _ (cur', [(2, trailing); (1, ident)])); try done.
  - intros c Hc. destruct sp as [|x sp]; cbn in Hc.
    + by injection Hc as <-.
    + injection Hc as <-. cbn in Hsp.
      apply andb_true_iff in Hsp as [Hx _]. by apply space_not_label.
  - cbn beta. rewrite advance_pos_sub. cbn [c_rest].
    unfold line at 2. by rewrite str_take_app.
Qed.

(** ** Invariants of the builder *)

Lemma builder_ok_mono (n n' : Z) (b : Builder) :
  (n <= n')%Z -> builder_ok n b -> builder_ok n' b.
Proof.
  intros Hn [H1 H2 H3 H4 H5 H6 H7 H8 H9]. split; try done.
  eapply Forall_impl; [exact H8|]. cbn. intros; lia.
Qed.

Lemma merge_node_id line kind v : n_id (merge_node line kind v) = n_id v.
Proof. done. Qed.

Lemma merge_node_label line kind v :
  n_label (merge_node line kind v) = n_label v.
Proof. done. Qed.

Lemma merge_node_kind line kind v :
  n_kind (merge_node line kind v) =
    if negb (String.eqb (n_kind v) "entry") && String.eqb kind "function"
    then kind else n_kind v.
Proof. done. Qed.

Lemma upsert_ok (lineNo : Z) (b : Builder) (id kind : string) :
  (1 <= lineNo)%Z ->
  kind = "function" \/ (kind = "dynamic" /\ id = "DYNAMIC_CALL") ->
  builder_ok lineNo b ->
  builder_ok lineNo (upsert b id id lineNo kind).
Proof.
  intros Hl Hkind [(rest & Hm & Hr) H2 H3 H4 H5 H6 H7 H8 H9].
  split; cbn; try done.
  - rewrite Hm. by apply upsertNode_main.
  - by apply upsertNode_nodup.
  - intros k n [H|[[= -> ->]|(v & Hv & [= -> ->])]]%upsertNode_elem; auto.
    rewrite merge_node_id, merge_node_label. auto.
  - intros k n [H|[[= -> ->]|(v & Hv & [= -> ->])]]%upsertNode_elem.
    + by apply H4.
    + cbn. destruct Hkind as [->|[-> ->]]; auto.
    + rewrite merge_node_kind.
      destruct (H4 _ _ Hv) as [[Hk ->]|[Hk|[Hk ->]]]; rewrite Hk.
      * by left.
      * destruct (_ && _); auto.
      * destruct (String.eqb_spec kind "function") as [->|]; auto.
Qed.

Lemma addEdge_ok (lineNo : Z) (b : Builder) (from to type : string) :
  clean_id from = true -> clean_id to = true ->
  builder_ok lineNo b ->
  builder_ok lineNo (addEdge b from to type lineNo).
Proof.
  intros Hf Ht [H1 H2 H3 H4 H5 H6 H7 H8 H9]. unfold addEdge.
  case_bool_decide as Hin; [by split|].
  split; cbn; try done.
  - intros k. rewrite elem_of_union, elem_of_singleton, fmap_app, elem_of_app.
    cbn. rewrite list_elem_of_singleton, H5. done.
  - rewrite fmap_app. cbn. apply NoDup_app. split; [done|]. split.
    + intros k Hk ->%list_elem_of_singleton. apply Hin, H5. done.
    + apply NoDup_singleton.
  - rewrite fmap_app. cbn. apply StronglySorted_app_2; [|done|].
    + intros x y Hx ->%list_elem_of_singleton.
      apply list_elem_of_fmap in Hx as (e & -> & He).
      rewrite Forall_forall in H8. by apply H8.
    + repeat constructor.
  - apply Forall_app. split; [done|]. repeat constructor. cbn. lia.
  - apply Forall_app. split; [done|]. by repeat constructor.
Qed.

(** A triple that is recorded is not recorded again, and its line stays. *)
Lemma addEdge_recorded (lineNo : Z) (b : Builder) (e : Edge) (line : Z) :
  builder_ok lineNo b ->
  e ∈ b_edges b ->
  addEdge b (e_from e) (e_to e) (e_type e) line = b.
Proof.
  intros Hok He. unfold addEdge. rewrite bool_decide_true; [done|].
  apply (ok_keys _ _ Hok). apply list_elem_of_fmap. by exists e.
Qed.

Global Instance edges_extend_refl : Reflexive edges_extend.
Proof. intros b. exists []. by rewrite app_nil_r. Qed.

Global Instance edges_extend_trans : Transitive edges_extend.
Proof.
  intros b1 b2 b3 [n1 H1] [n2 H2]. exists (n1 ++ n2).
  by rewrite H2, H1, app_assoc.
Qed.

Lemma addEdge_extend b from to type line :
  edges_extend b (addEdge b from to type line).
Proof.
  unfold addEdge. case_bool_decide; [done|]. by eexists.
Qed.

Lemma upsert_extend b id label line kind :
  edges_extend b (upsert b id label line kind).
Proof. by exists []; rewrite app_nil_r. Qed.

(** *** Clean ids and the edge key *)

Lemma label_char_clean (c : ascii) :
  is_label_char c = true ->
  negb (Ascii.eqb (upper_char c) "-" || Ascii.eqb (upper_char c) ":") = true.
Proof. ascii_cases c. Qed.

Lemma target_char_label (c : ascii) :
  is_target_char c = true -> is_label_char c = true.
Proof. ascii_cases c. Qed.

Lemma str_forall_impl (p q : ascii -> bool) s :
  (forall c, p c = true -> q c = true) ->
  str_forall p s = true -> str_forall q s = true.
Proof.
  intros Hpq. induction s as [|c s IH]; cbn; [done|].
  intros [Hc Hs]%andb_true_iff. by rewrite (Hpq c Hc), IH.
Qed.

Lemma str_forall_trimStart p s :
  str_forall p s = true -> str_forall p (trimStart s) = true.
Proof.
  induction s as [|c s IH]; cbn; [done|].
  intros H. destruct (is_space c); [|done].
  apply andb_true_iff in H as [_ H]. by apply IH.
Qed.

Lemma str_forall_trimEnd p s :
  str_forall p s = true -> str_forall p (trimEnd s) = true.
Proof.
  induction s as [|c s IH]; cbn; [done|].
  intros [Hc Hs]%andb_true_iff. destruct (_ && _); [done|].
  cbn. by rewrite Hc, IH.
Qed.

Lemma str_forall_map (p q : ascii -> bool) f s :
  (forall c, p c = true -> q (f c) = true) ->
  str_forall p s = true -> str_forall q (str_map f s) = true.
Proof.
  intros Hpq. induction s as [|c s IH]; cbn; [done|].
  intros [Hc Hs]%andb_true_iff. by rewrite (Hpq c Hc), IH.
Qed.

Lemma normalizeLabel_clean (s : string) :
  str_forall is_label_char s = true -> clean_id (normalizeLabel s) = true.
Proof.
  intros Hs. unfold clean_id, normalizeLabel, toUpperCase, trim.
  apply (str_forall_map is_label_char); [apply label_char_clean|].
  by apply str_forall_trimEnd, str_forall_trimStart.
Qed.

Lemma str_app_lacks_inj (c : ascii) (a a' r r' : string) :
  str_lacks c a = true -> str_lacks c a' = true ->
  a +:+ String c r = a' +:+ String c r' -> a = a' /\ r = r'.
Proof.
  unfold str_lacks. revert a'.
  induction a as [|x a IH]; intros [|x' a']; cbn.
  - by intros _ _ [= ->].
  - intros _ [Hx _]%andb_true_iff [= <- _].
    by rewrite Ascii.eqb_refl in Hx.
  - intros [Hx _]%andb_true_iff _ [= -> _].
    by rewrite Ascii.eqb_refl in Hx.
  - intros [_ Ha]%andb_true_iff [_ Ha']%andb_true_iff [= -> Heq].
    destruct (IH a' Ha Ha' Heq) as [-> ->]. done.
Qed.

Lemma clean_id_lacks (s : string) :
  clean_id s = true -> str_lacks "-" s = true /\ str_lacks ":" s = true.
Proof.
  unfold clean_id, str_lacks. intros H.
  split; (eapply str_forall_impl; [|exact H]); cbn; intros c Hc;
    apply negb_true_iff in Hc; apply orb_false_iff in Hc as [? ?];
    by apply negb_true_iff.
Qed.

(** On clean ids the edge key determines the triple. *)
Lemma edge_key_inj (f t ty f' t' ty' : string) :
  clean_id f = true -> clean_id t = true ->
  clean_id f' = true -> clean_id t' = true ->
  edge_key f t ty = edge_key f' t' ty' -> (f, t, ty) = (f', t', ty').
Proof.
  intros [Hf _]%clean_id_lacks [_ Ht]%clean_id_lacks
         [Hf' _]%clean_id_lacks [_ Ht']%clean_id_lacks.
  unfold edge_key. intros Heq.
  apply (str_app_lacks_inj "-" f f') in Heq as [-> Heq]; [|done..].
  injection Heq as Heq.
  apply (str_app_lacks_inj ":" t t') in Heq as [-> ->]; done.
Qed.

(** After [addEdge] the triple is in the edge array. *)
Lemma addEdge_has_edge lineNo (b : Builder) (from to type : string) line :
  clean_id from = true -> clean_id to = true ->
  builder_ok lineNo b ->
  has_edge (addEdge b from to type line) from to type.
Proof.
  intros Hf Ht Hok. unfold addEdge. case_bool_decide as Hin.
  - apply (ok_keys _ _ Hok) in Hin.
    apply list_elem_of_fmap in Hin as (e & Hkey & He).
    exists e. split; [done|].
    pose proof (ok_clean _ _ Hok) as Hclean. rewrite Forall_forall in Hclean.
    destruct (Hclean e He) as [Hef Het].
    symmetry. by apply edge_key_inj.
  - exists (mkEdge from to type line). split; [|done]. cbn.
    apply elem_of_app. right. apply list_elem_of_here.
Qed.

Lemma has_edge_extend (b b' : Builder) (from to type : string) :
  edges_extend b b' -> has_edge b from to type -> has_edge b' from to type.
Proof.
  intros [new Hnew] (e & He & Ht). exists e. split; [|done].
  rewrite Hnew. apply elem_of_app. by left.
Qed.

(** *** The invariant along the scan *)

(** The captures of a call site. *)
Lemma call_site_groups cur m :
  call_site_at cur = Some m ->
  m_groups m = [(1, "VALUE")] \/ m_groups m = [(1, "(")] \/
  exists t, m_groups m = [(1, t); (2, t)] /\
            t ≠ EmptyString /\ str_forall is_target_char t = true.
Proof.
  unfold call_site_at. destruct (_ && _); [|done].
  destruct (is_word_opt _); [done|].
  destruct (span is_space _) as [w r].
  destruct (call_target_at _) as [[cur' caps]|] eqn:Ht; [|done].
  intros [= <-]. cbn [m_groups]. revert Ht. unfold call_target_at.
  destruct (_ && _); [intros [= _ <-]; by left|].
  destruct (String.prefix "(" _); [intros [= _ <-]; by right; left|].
  pose proof (span_forall is_target_char
                (c_rest (advance cur ("CALL" +:+ w) r))) as Hall.
  destruct (span is_target_char _) as [t r']. cbn [fst] in Hall.
  destruct t as [|c t]; [done|]. intros [= _ <-].
  right; right. by exists (String c t).
Qed.

Lemma process_match_ok cur m lineNo scope b :
  call_site_at cur = Some m ->
  (1 <= lineNo)%Z ->
  clean_id scope = true ->
  builder_ok lineNo b -> builder_ok lineNo (process_match m lineNo scope b).
Proof.
  intros Hm Hl Hs Hok. unfold process_match.
  destruct (_ || _).
  - apply addEdge_ok, upsert_ok; auto.
  - destruct (_ || _); [done|].
    apply addEdge_ok; [done| |apply upsert_ok; auto].
    apply normalizeLabel_clean.
    destruct (call_site_groups _ _ Hm) as [->|[->|(t & -> & _ & Ht)]];
      [done|done|].
    cbn. eapply str_forall_impl; [|exact Ht]. apply target_char_label.
Qed.

Lemma process_match_extend m lineNo scope b :
  edges_extend b (process_match m lineNo scope b).
Proof.
  unfold process_match. destruct (_ || _).
  - etrans; [apply upsert_extend | apply addEdge_extend].
  - destruct (_ || _); [done|].
    etrans; [apply upsert_extend | apply addEdge_extend].
Qed.

Lemma exec_call_site upper lastIndex m :
  exec callPattern upper lastIndex = Some m ->
  call_site_at (cursor_at 0 None upper (m_index m)) = Some m.
Proof.
  intros (i & _ & Hm & <- & _)%exec_Some. by rewrite <- match_at_callPattern.
Qed.

Lemma call_loop_ok fuel upper lastIndex lineNo scope b :
  (1 <= lineNo)%Z ->
  clean_id scope = true ->
  builder_ok lineNo b ->
  builder_ok lineNo (call_loop fuel upper lastIndex lineNo scope b).
Proof.
  intros Hl Hs. revert lastIndex b.
  induction fuel as [|fuel IH]; intros lastIndex b Hok; cbn; [done|].
  destruct (exec callPattern upper lastIndex) eqn:He; [|done].
  apply IH. eapply process_match_ok; [|done..]. by eapply exec_call_site.
Qed.

Lemma call_loop_extend fuel upper lastIndex lineNo scope b :
  edges_extend b (call_loop fuel upper lastIndex lineNo scope b).
Proof.
  revert lastIndex b.
  induction fuel as [|fuel IH]; intros lastIndex b; cbn; [done|].
  destruct (exec callPattern upper lastIndex); [|done].
  etrans; [apply process_match_extend | apply IH].
Qed.

Lemma process_segment_ok lineNo scope b segment :
  (1 <= lineNo)%Z ->
  clean_id scope = true ->
  builder_ok lineNo b ->
  builder_ok lineNo (process_segment lineNo scope b segment).
Proof. intros. by apply call_loop_ok. Qed.

Lemma process_segment_extend lineNo scope b segment :
  edges_extend b (process_segment lineNo scope b segment).
Proof. apply call_loop_extend. Qed.

Lemma processStatementBlock_ok text lineNo scope b :
  (1 <= lineNo)%Z ->
  clean_id scope = true ->
  builder_ok lineNo b ->
  builder_ok lineNo (processStatementBlock text lineNo scope b).
Proof.
  intros Hl Hs. unfold processStatementBlock.
  generalize (splitStatements text). intros l. revert b.
  induction l as [|seg l IH]; intros b Hok; cbn [fold_left]; [done|].
  by apply IH, process_segment_ok.
Qed.

Lemma processStatementBlock_extend text lineNo scope b :
  edges_extend b (processStatementBlock text lineNo scope b).
Proof.
  unfold processStatementBlock.
  generalize (splitStatements text). intros l. revert b.
  induction l as [|seg l IH]; intros b; cbn [fold_left]; [done|].
  etrans; [apply process_segment_extend | apply IH].
Qed.

Lemma exec_label_scope line m :
  exec labelPattern line 0 = Some m ->
  clean_id (normalizeLabel (default undefined_string (group 1 (m_groups m))))
  = true.
Proof.
  intros (i & _ & Hm & _)%exec_Some.
  apply labelPattern_inv in Hm as (ident & g2 & -> & _ & Hid).
  cbn. by apply normalizeLabel_clean.
Qed.

Lemma scan_line_ok raw lineNo s :
  (1 <= lineNo)%Z ->
  scanner_ok lineNo s ->
  scanner_ok lineNo (scan_line raw lineNo s).
Proof.
  intros Hl [Hok Hs]. unfold scan_line.
  destruct (stripComments raw (inBlockComment s)) as [stripped inBlock].
  destruct (is_empty (collapse stripped)); [done|].
  destruct (exec labelPattern (collapse stripped) 0) eqn:He.
  - apply exec_label_scope in He.
    destruct (is_empty _); (split; [|done]); cbn.
    + apply upsert_ok; auto.
    + apply processStatementBlock_ok; [done|done|]. apply upsert_ok; auto.
  - split; [|done]. cbn. by apply processStatementBlock_ok.
Qed.

Lemma scan_line_extend raw lineNo s :
  edges_extend (builder s) (builder (scan_line raw lineNo s)).
Proof.
  unfold scan_line.
  destruct (stripComments raw (inBlockComment s)) as [stripped inBlock].
  destruct (is_empty (collapse stripped)); [done|].
  destruct (exec labelPattern (collapse stripped) 0).
  - destruct (is_empty _); cbn.
    + apply upsert_extend.
    + etrans; [apply upsert_extend | apply processStatementBlock_extend].
  - cbn. apply processStatementBlock_extend.
Qed.

Lemma scanner_ok_mono (n n' : Z) (s : Scanner) :
  (n <= n')%Z -> scanner_ok n s -> scanner_ok n' s.
Proof. intros Hn [Hok Hs]. split; [by eapply builder_ok_mono | done]. Qed.

Lemma scan_lines_ok lines lineNo s :
  (1 <= lineNo)%Z ->
  scanner_ok lineNo s ->
  scanner_ok (lineNo + Z.of_nat (length lines)) (scan_lines lines lineNo s).
Proof.
  revert lineNo s.
  induction lines as [|raw lines IH]; intros lineNo s Hl Hok; cbn [scan_lines].
  - eapply scanner_ok_mono; [|done]. cbn. lia.
  - replace (lineNo + Z.of_nat (length (raw :: lines)))%Z
      with ((lineNo + 1) + Z.of_nat (length lines))%Z by (cbn; lia).
    apply IH; [lia|].
    eapply scanner_ok_mono; [|by apply scan_line_ok]. lia.
Qed.

Lemma scan_lines_extend lines lineNo s :
  edges_extend (builder s) (builder (scan_lines lines lineNo s)).
Proof.
  revert lineNo s.
  induction lines as [|raw lines IH]; intros lineNo s; cbn; [done|].
  etrans; [apply scan_line_extend | apply IH].
Qed.

Lemma initial_ok : scanner_ok 1 initial_scanner.
Proof.
  split; [|done]. split; cbn.
  - by exists [].
  - apply NoDup_singleton.
  - intros k n [= -> ->]%list_elem_of_singleton. done.
  - intros k n [= -> ->]%list_elem_of_singleton. by left.
  - intros k. split; [by intros ?%not_elem_of_empty | by intros ?%not_elem_of_nil].
  - constructor.
  - constructor.
  - constructor.
  - constructor.
Qed.

Lemma scan_prefix_ok (lines : list string) :
  exists n, (1 <= n)%Z /\ scanner_ok n (scan_lines lines 1 initial_scanner).
Proof.
  eexists. split; [|apply scan_lines_ok; [lia | apply initial_ok]]. lia.
Qed.

Lemma scan_ok (source : string) :
  exists n, builder_ok n (builder (scan source)).
Proof.
  destruct (scan_prefix_ok (split_lines source)) as (n & _ & Hok & _).
  by exists n.
Qed.

(** The nodes of the graph: the entry node, then the others. *)
Lemma parse_nodes lc (source : string) :
  exists rest,
    nodes (parseRexxControlFlow lc source) =
      main_node :: sort (compareNodes lc) rest /\
    Forall (fun n => n_id n ≠ "MAIN" /\ n_kind n ≠ "entry") rest.
Proof.
  destruct (scan_ok source) as [n Hok].
  destruct (ok_main _ _ Hok) as (rest & Hm & Hr).
  exists (rest.*2). unfold parseRexxControlFlow. cbn. rewrite Hm.
  change (map snd (("MAIN", main_node) :: rest)) with (main_node :: rest.*2).
  rewrite sort_main_head by done. split; [done|].
  apply Forall_forall. intros v Hv.
  apply list_elem_of_fmap in Hv as ([k v'] & -> & Hkv). cbn.
  assert ((k, v') ∈ b_nodes (builder (scan source))) as Hin.
  { rewrite Hm. by apply list_elem_of_further. }
  destruct (ok_ids _ _ Hok _ _ Hin) as [Hid _].
  assert (k ≠ "MAIN") as Hk.
  { intros ->. apply map_get_None in Hr. apply Hr.
    apply list_elem_of_fmap. by exists ("MAIN", v'). }
  split; [congruence|].
  destruct (ok_kinds _ _ Hok _ _ Hin) as [[_ ?]|[->|[-> _]]]; done.
Qed.

(** ** Collapsed text *)

Lemma replace_ws_runs_chars in_run s :
  str_forall is_collapsed_char (replace_ws_runs in_run s) = true.
Proof.
  revert in_run. induction s as [|c s IH]; intros in_run; cbn; [done|].
  destruct (is_space c) eqn:Hc.
  - destruct in_run; [apply IH|]. cbn. by rewrite IH.
  - cbn. unfold is_collapsed_char at 1. by rewrite Hc, IH.
Qed.

Lemma collapse_chars (text : string) :
  str_forall is_collapsed_char (collapse text) = true.
Proof.
  unfold collapse, trim.
  apply str_forall_trimEnd, str_forall_trimStart, replace_ws_runs_chars.
Qed.

Lemma collapsed_char_dot (c : ascii) :
  is_collapsed_char c = true -> is_dot c = true.
Proof. ascii_cases c. Qed.

(** The scan of a line that declares a label. *)
Lemma scan_line_label raw lineNo s stripped inBlock ident sp sp' trailing :
  stripComments raw (inBlockComment s) = (stripped, inBlock) ->
  collapse stripped = ident +:+ sp +:+ ":" +:+ sp' +:+ trailing ->
  ident ≠ EmptyString ->
  str_forall is_label_char ident = true ->
  str_forall is_space sp = true ->
  str_forall is_space sp' = true ->
  (forall c, str_head trailing = Some c -> is_space c = false) ->
  scan_line raw lineNo s =
    let scope := normalizeLabel ident in
    let b := upsert (builder s) scope scope lineNo "function" in
    mkScanner
      (if is_empty (collapse trailing) then b
       else processStatementBlock (collapse trailing) lineNo scope b)
      scope inBlock.
Proof.
  intros Hstrip Hline Hne Hid Hsp Hsp' Htr.
  assert (str_forall is_dot trailing = true) as Hdot.
  { pose proof (collapse_chars stripped) as Hc. rewrite Hline in Hc.
    rewrite !str_forall_app in Hc.
    repeat (apply andb_true_iff in Hc as [_ Hc]).
    eapply str_forall_impl; [|exact Hc]. apply collapsed_char_dot. }
  destruct (labelPattern_forward ident sp sp' trailing) as (m & Hm & Hg);
    try done.
  unfold scan_line. rewrite Hstrip, Hline.
  destruct ident as [|c ident]; [done|]. cbn [String.append is_empty].
  cbn [String.append] in Hm. rewrite Hm, Hg.
  cbn [group Nat.eqb default from_option id].
  by destruct (is_empty (collapse trailing)).
Qed.

(** ** Edges of the call sites *)

Lemma fold_left_inv {A B} (P : A -> Prop) (Q : B -> Prop) (f : A -> B -> A)
    (l : list B) (a : A) :
  (forall a x, P a -> Q x -> P (f a x)) ->
  Forall Q l -> P a -> P (fold_left f l a).
Proof.
  intros Hf Hl. revert a.
  induction Hl as [|x l Hx Hl IH]; intros a Ha; cbn; [done|].
  apply IH. by apply Hf.
Qed.

Lemma fold_left_extend {B} (f : Builder -> B -> Builder) (l : list B)
    (b : Builder) :
  (forall b x, edges_extend b (f b x)) ->
  edges_extend b (fold_left f l b).
Proof.
  intros Hf. revert b. induction l as [|x l IH]; intros b; cbn; [done|].
  etrans; [apply Hf | apply IH].
Qed.

Lemma process_segment_fold lineNo scope b segment :
  process_segment lineNo scope b segment =
    fold_left (fun b m => process_match m lineNo scope b)
      (segment_calls segment) b.
Proof. unfold process_segment, segment_calls. apply call_loop_fold. Qed.

Lemma segment_calls_sound segment m :
  m ∈ segment_calls segment ->
  m_index m <= String.length (toUpperCase segment) /\
  call_site_at (cursor_at 0 None (toUpperCase segment) (m_index m)) = Some m.
Proof.
  unfold segment_calls. intros [? ?]%call_sites_sound. split; [lia | done].
Qed.

Lemma classify_named_clean following target :
  classify following = Named target -> clean_id target = true.
Proof.
  unfold classify. destruct (_ || _); [done|].
  destruct (_ || _); [done|]. intros [= <-].
  apply normalizeLabel_clean.
  eapply str_forall_impl; [apply target_char_label | apply span_forall].
Qed.

(** The edge asked by the class of a call is in the builder after the
    call is recorded. *)
Lemma record_call_has_edge lineNo (b : Builder) scope following :
  (1 <= lineNo)%Z ->
  clean_id scope = true ->
  builder_ok lineNo b ->
  match classify following with
  | Dynamic =>
      has_edge (record_call Dynamic lineNo scope b)
        scope "DYNAMIC_CALL" "calls-dynamic"
  | Toggle => record_call Toggle lineNo scope b = b
  | Named target =>
      has_edge (record_call (Named target) lineNo scope b)
        scope target "calls"
  end.
Proof.
  intros Hl Hs Hok. destruct (classify following) as [| |target] eqn:Hc.
  - eapply addEdge_has_edge; [done|done|]. apply upsert_ok; auto.
  - done.
  - apply classify_named_clean in Hc.
    eapply addEdge_has_edge; [done|done|]. apply upsert_ok; auto.
Qed.

(** The edge of a call site of a statement is in the builder after the
    statement block. *)
Lemma call_site_edge text lineNo scope b segment m :
  (1 <= lineNo)%Z ->
  clean_id scope = true ->
  builder_ok lineNo b ->
  segment ∈ splitStatements text ->
  m ∈ segment_calls segment ->
  match classify (str_drop (m_index m + 4) (toUpperCase segment)) with
  | Dynamic =>
      has_edge (processStatementBlock text lineNo scope b)
        scope "DYNAMIC_CALL" "calls-dynamic"
  | Toggle => True
  | Named target =>
      has_edge (processStatementBlock text lineNo scope b) scope target "calls"
  end.
Proof.
  intros Hl Hs Hok Hseg Hm. unfold processStatementBlock.
  apply list_elem_of_split in Hseg as (l1 & l2 & ->).
  rewrite fold_left_app. cbn [fold_left].
  set (b1 := fold_left (process_segment lineNo scope) l1 b).
  assert (builder_ok lineNo b1) as Hok1.
  { apply (fold_left_inv (builder_ok lineNo) (fun _ => True));
      [|by apply Forall_true|done].
    intros. by apply process_segment_ok. }
  rewrite process_segment_fold.
  pose proof Hm as (c1 & c2 & Hsplit)%list_elem_of_split.
  rewrite Hsplit, fold_left_app. cbn [fold_left].
  set (b2 := fold_left (fun b m => process_match m lineNo scope b) c1 b1).
  assert (builder_ok lineNo b2) as Hok2.
  { apply (fold_left_inv (builder_ok lineNo) (fun m' => m' ∈ segment_calls segment));
      [| |done].
    - intros b' m' Hb' [_ Hm']%segment_calls_sound.
      by eapply process_match_ok.
    - apply Forall_forall. intros m' Hm'. rewrite Hsplit.
      apply elem_of_app. by left. }
  destruct (segment_calls_sound _ _ Hm) as [Hidx Hsite].
  destruct (call_site_classify _ _ _ lineNo scope b2
              (toUpperCase_no_lower segment) Hsite) as [_ Hstep].
  rewrite Hstep.
  pose proof (record_call_has_edge lineNo b2 scope
                (str_drop (m_index m + 4) (toUpperCase segment)) Hl Hs Hok2)
    as Hedge.
  destruct (classify _); [|done|].
  - eapply has_edge_extend; [|exact Hedge].
    etrans; [|apply fold_left_extend; intros; apply process_segment_extend].
    apply fold_left_extend. intros. apply process_match_extend.
  - eapply has_edge_extend; [|exact Hedge].
    etrans; [|apply fold_left_extend; intros; apply process_segment_extend].
    apply fold_left_extend. intros. apply process_match_extend.
Qed.

Lemma processStatementBlock_fold text lineNo scope b :
  processStatementBlock text lineNo scope b =
    fold_left
      (fun b segment =>
         fold_left (fun b m => process_match m lineNo scope b)
           (segment_calls segment) b)
      (splitStatements text) b.
Proof.
  unfold processStatementBlock. generalize (splitStatements text).
  intros l. revert b. induction l as [|seg l IH]; intros b; cbn; [done|].
  rewrite <- IH. f_equal. apply process_segment_fold.
Qed.

Lemma segment_calls_cover segment p m :
  p <= String.length (toUpperCase segment) ->
  match_at callPattern (cursor_at 0 None (toUpperCase segment) p) = Some m ->
  exists m', m' ∈ segment_calls segment /\ m_index m' <= p < m_end m'.
Proof.
  intros Hp Hm. unfold segment_calls.
  eapply call_sites_cover; [lia | lia | done].
Qed.

(** ** The nodes of the graph *)

Lemma parse_nodes_perm lc (source : string) :
  nodes (parseRexxControlFlow lc source) ≡ₚ (b_nodes (builder (scan source))).*2.
Proof. unfold parseRexxControlFlow. cbn. apply sort_perm. Qed.

Lemma parse_node_elem lc (source : string) (n : Node) :
  n ∈ nodes (parseRexxControlFlow lc source) ->
  (n_id n, n) ∈ b_nodes (builder (scan source)).
Proof.
  rewrite parse_nodes_perm. intros ([k v] & -> & Hkv)%list_elem_of_fmap.
  destruct (scan_ok source) as [i Hok].
  cbn [snd]. destruct (ok_ids _ _ Hok _ _ Hkv) as [-> _]. done.
Qed.

Lemma ids_of_values (l : list (string * Node)) :
  (forall k n, (k, n) ∈ l -> n_id n = k) -> n_id <$> l.*2 = l.*1.
Proof.
  induction l as [|[k v] l IH]; intros H; [done|].
  rewrite !fmap_cons. cbn [fst snd].
  rewrite (H k v) by apply list_elem_of_here. f_equal. apply IH.
  intros k' n' Hin. apply H. by apply list_elem_of_further.
Qed.

Lemma parse_nodes_nodup lc (source : string) :
  NoDup (n_id <$> nodes (parseRexxControlFlow lc source)).
Proof.
  rewrite parse_nodes_perm. destruct (scan_ok source) as [i Hok].
  rewrite ids_of_values; [apply (ok_nodup _ _ Hok)|].
  intros k n Hin. by destruct (ok_ids _ _ Hok _ _ Hin).
Qed.

(** A triple that is not recorded yet is appended to the edge array. *)
Lemma addEdge_fresh lineNo (b : Builder) (from to type : string) line :
  clean_id from = true -> clean_id to = true ->
  builder_ok lineNo b ->
  ~ has_edge b from to type ->
  b_edges (addEdge b from to type line)
  = b_edges b ++ [mkEdge from to type line].
Proof.
  intros Hf Ht Hok Hnew. unfold addEdge. case_bool_decide as Hin; [|done].
  destruct Hnew. apply (ok_keys _ _ Hok) in Hin.
  apply list_elem_of_fmap in Hin as (e & Hkey & He).
  exists e. split; [done|].
  pose proof (ok_clean _ _ Hok) as Hclean. rewrite Forall_forall in Hclean.
  destruct (Hclean e He) as [Hef Het].
  symmetry. by apply edge_key_inj.
Qed.

(** ** Call sites and quotes *)

Lemma space_not_quote (c : ascii) : is_space c = true -> is_quote c = false.
Proof. ascii_cases c. Qed.

Lemma target_not_quote (c : ascii) :
  is_target_char c = true -> is_quote c = false.
Proof. ascii_cases c. Qed.

(** The text of a target holds no quote. *)
Lemma call_target_text cur cur' caps :
  call_target_at cur = Some (cur', caps) ->
  exists x,
    String.prefix x (c_rest cur) = true /\
    c_pos cur' = c_pos cur + String.length x /\
    str_forall (fun c => negb (is_quote c)) x = true.
Proof.
  unfold call_target_at.
  destruct (String.prefix "VALUE" (c_rest cur)) eqn:HV;
    [destruct (negb _)|]; cbn [andb].
  1:{ intros [= <- _]. by exists "VALUE". }
  all: destruct (String.prefix "(" (c_rest cur)) eqn:HP.
  1,3: intros [= <- _]; by exists "(".
  all: pose proof (span_forall is_target_char (c_rest cur)) as Hall.
  all: pose proof (span_app is_target_char (c_rest cur)) as Happ.
  all: destruct (span is_target_char (c_rest cur)) as [t r'].
  all: cbn [fst snd] in *; destruct (is_empty t); [done|].
  all: intros [= <- _]; exists t; split; [by rewrite <- Happ, str_prefix_app|].
  all: split; [done|]; eapply str_forall_impl; [|exact Hall].
  all: intros c Hc; by rewrite (target_not_quote c Hc).
Qed.

(** The text of a match of the call pattern holds no quote. *)
Lemma call_site_text cur m :
  call_site_at cur = Some m ->
  exists x,
    String.prefix x (c_rest cur) = true /\
    m_end m = c_pos cur + String.length x /\
    str_forall (fun c => negb (is_quote c)) x = true.
Proof.
  unfold call_site_at. destruct (at_word_boundary cur); [|done].
  cbn [andb]. destruct (String.prefix "CALL" (c_rest cur)) eqn:HC; [|done].
  destruct (is_word_opt _); [done|].
  pose proof (span_forall is_space (str_drop 4 (c_rest cur))) as Hw.
  pose proof (span_app is_space (str_drop 4 (c_rest cur))) as Happ.
  destruct (span is_space (str_drop 4 (c_rest cur))) as [w r].
  cbn [fst snd] in *.
  destruct (call_target_at _) as [[cur' caps]|] eqn:Ht; [|done].
  intros [= <-]. cbn [m_end].
  apply call_target_text in Ht as (x & Hx & Hpos & Hq).
  cbn [advance c_rest c_pos] in Hx, Hpos.
  apply str_prefix_split in Hx. apply str_prefix_split in HC.
  exists ("CALL" +:+ w +:+ x). split; [|split].
  - rewrite HC. change (String.length "CALL") with 4.
    rewrite <- Happ, Hx. rewrite <- !str_app_assoc. apply str_prefix_app.
  - rewrite Hpos, !str_length_app. lia.
  - rewrite !str_forall_app, Hq, andb_true_r. cbn [str_forall andb].
    eapply str_forall_impl; [|exact Hw].
    intros c Hc. by rewrite (space_not_quote c Hc).
Qed.

Lemma str_forall_nth p x s k c :
  str_forall p x = true ->
  String.prefix x s = true ->
  k < String.length x ->
  str_head (str_drop k s) = Some c -> p c = true.
Proof.
  intros Hx Hpre. apply str_prefix_split in Hpre. rewrite Hpre.
  generalize (str_drop (String.length x) s). clear Hpre. intros r.
  revert k. induction x as [|y x IH]; intros k Hk; cbn in Hk; [lia|].
  cbn in Hx. apply andb_true_iff in Hx as [Hy Hx].
  destruct k as [|k]; cbn.
  - by intros [= <-].
  - apply IH; [done | lia].
Qed.

Lemma str_head_drop_lt (s : string) (p : nat) (c : ascii) :
  str_head (str_drop p s) = Some c -> p < String.length s.
Proof.
  revert s. induction p as [|p IH]; intros [|x s]; cbn; try done; [lia|].
  intros H. apply IH in H. lia.
Qed.

(** A match that follows a quote is a call site of the loop. *)
Lemma quoted_call_site segment p q m :
  str_head (str_drop p (toUpperCase segment)) = Some q ->
  is_quote q = true ->
  match_at callPattern (cursor_at 0 None (toUpperCase segment) (S p)) = Some m ->
  m ∈ segment_calls segment.
Proof.
  set (upper := toUpperCase segment). intros Hq Hquote Hm.
  assert (S p <= String.length upper) as Hp
    by by apply str_head_drop_lt in Hq.
  destruct (segment_calls_cover segment (S p) m Hp Hm) as (m' & Hin & Hcov).
  destruct (segment_calls_sound _ _ Hin) as [Hidx Hsite]. fold upper in Hsite.
  destruct (Nat.eq_dec (m_index m') (S p)) as [Heq|Hne].
  - rewrite Heq, <- match_at_callPattern, Hm in Hsite.
    by injection Hsite as ->.
  - apply call_site_text in Hsite as (x & Hx & Hend & Hall).
    rewrite cursor_at_rest in Hx. rewrite cursor_at_pos in Hend by lia.
    assert (negb (is_quote q) = true) as Hnq.
    { apply (str_forall_nth _ x (str_drop (m_index m') upper)
               (p - m_index m') q Hall Hx); [lia|].
      rewrite str_drop_add. by replace (m_index m' + (p - m_index m')) with p
        by lia. }
    by rewrite Hquote in Hnq.
Qed.

(** ** Matches inside a call site *)

Lemma space_not_C (c : ascii) :
  is_space c = true -> negb (Ascii.eqb c "C") = true.
Proof. ascii_cases c. Qed.

(** The shape of a call site: the keyword, white space and the target,
    which is group 2 when it is a token. *)
Lemma call_site_shape cur m :
  call_site_at cur = Some m ->
  exists w x,
    String.prefix ("CALL" +:+ w +:+ x) (c_rest cur) = true /\
    str_forall is_space w = true /\
    m_end m = c_pos cur + String.length ("CALL" +:+ w +:+ x) /\
    (x = "VALUE" \/ x = "(" \/
     (str_forall is_target_char x = true /\ group 2 (m_groups m) = Some x)).
Proof.
  unfold call_site_at. destruct (at_word_boundary cur); [|done].
  cbn [andb]. destruct (String.prefix "CALL" (c_rest cur)) eqn:HC; [|done].
  destruct (is_word_opt _); [done|].
  pose proof (span_forall is_space (str_drop 4 (c_rest cur))) as Hw.
  pose proof (span_app is_space (str_drop 4 (c_rest cur))) as Happ.
  destruct (span is_space (str_drop 4 (c_rest cur))) as [w r].
  cbn [fst snd] in *.
  destruct (call_target_at _) as [[cur' caps]|] eqn:Ht; [|done].
  intros [= <-]. cbn [m_end m_groups].
  apply str_prefix_split in HC. change (String.length "CALL") with 4 in HC.
  assert (forall x,
            String.prefix x r = true ->
            String.prefix ("CALL" +:+ w +:+ x) (c_rest cur) = true) as Hpre.
  { intros x Hx. apply str_prefix_split in Hx.
    rewrite HC, <- Happ, Hx, <- !str_app_assoc. apply str_prefix_app. }
  revert Ht. unfold call_target_at. cbn [advance c_rest c_pos].
  destruct (String.prefix "VALUE" r) eqn:HV; [destruct (negb _)|];
    cbn [andb].
  1:{ intros [= <- <-]. exists w, "VALUE". rewrite Hpre by done.
      rewrite !str_length_app. cbn. split; [done|]. split; [done|].
      split; [lia | by left]. }
  all: destruct (String.prefix "(" r) eqn:HP.
  1,3: intros [= <- <-]; exists w, "("; rewrite Hpre by done;
       rewrite !str_length_app; cbn; split; [done|]; split; [done|];
       split; [lia | by right; left].
  all: pose proof (span_forall is_target_char r) as Hall.
  all: pose proof (span_app is_target_char r) as Hr.
  all: destruct (span is_target_char r) as [t r'].
  all: cbn [fst snd] in *; destruct (is_empty t); [done|].
  all: intros [= <- <-]; exists w, t.
  all: rewrite Hpre by (by rewrite <- Hr, str_prefix_app).
  all: rewrite !str_length_app; cbn; split; [done|]; split; [done|].
  all: split; [lia | by right; right].
Qed.

(** A match of the pattern that starts inside a call site of the loop
    starts inside the target token of that call. *)
Lemma nested_match_in_token upper i m' p :
  call_site_at (cursor_at 0 None upper i) = Some m' ->
  i <= String.length upper ->
  i < p < m_end m' ->
  str_head (str_drop p upper) = Some "C"%char ->
  exists t,
    group 2 (m_groups m') = Some t /\ m_end m' - String.length t <= p.
Proof.
  intros Hsite Hi Hp HC.
  apply call_site_shape in Hsite as (w & x & Hpre & Hw & Hend & Hx).
  rewrite cursor_at_rest in Hpre. rewrite cursor_at_pos in Hend by done.
  cbn [Nat.add] in Hend. rewrite !str_length_app in Hend. cbn in Hend.
  assert (forall y,
            String.prefix y (str_drop i upper) = true ->
            str_forall (fun c => negb (Ascii.eqb c "C")) (str_drop 1 y) = true ->
            String.length y <= p - i) as Hskip.
  { intros y Hy Hall.
    destruct (Nat.le_gt_cases (String.length y) (p - i)) as [|Hlt]; [done|].
    assert (negb (Ascii.eqb "C" "C") = true) as Habs; [|done].
    destruct y as [|c y]; [cbn in Hlt; lia|]. cbn in Hall, Hlt.
    apply (str_forall_nth _ y (str_drop (S i) upper) (p - S i) "C" Hall).
    - clear -Hy. revert Hy. generalize upper. clear upper.
      induction i as [|i IH]; intros [|u s]; cbn; try done.
      + destruct (ascii_dec c u); done.
      + apply IH.
    - lia.
    - rewrite str_drop_add. by replace (S i + (p - S i)) with p by lia. }
  assert (str_forall (fun c => negb (Ascii.eqb c "C")) w = true) as Hwc.
  { eapply str_forall_impl; [apply space_not_C | done]. }
  destruct Hx as [->|[->|[Ht Hg]]].
  - exfalso. specialize (Hskip _ Hpre).
    rewrite !str_length_app in Hskip. cbn in Hskip, Hend.
    rewrite str_forall_app, Hwc in Hskip. specialize (Hskip eq_refl). lia.
  - exfalso. specialize (Hskip _ Hpre).
    rewrite !str_length_app in Hskip. cbn in Hskip, Hend.
    rewrite str_forall_app, Hwc in Hskip. specialize (Hskip eq_refl). lia.
  - exists x. split; [done|].
    assert (String.prefix ("CALL" +:+ w) (str_drop i upper) = true) as Hpre'.
    { apply str_prefix_split in Hpre. rewrite Hpre.
      change ("CALL" +:+ w +:+ x) with ("CALL" +:+ (w +:+ x)).
      rewrite <- (str_app_assoc "CALL" w x), str_app_assoc.
      apply str_prefix_app. }
    specialize (Hskip _ Hpre'). rewrite str_length_app in Hskip.
    cbn in Hskip. specialize (Hskip Hwc). lia.
Qed.

(** Every match of the pattern is a call site of the loop or starts
    inside the target token of one. *)
Lemma segment_calls_exact segment p m :
  p <= String.length (toUpperCase segment) ->
  match_at callPattern (cursor_at 0 None (toUpperCase segment) p) = Some m ->
  m ∈ segment_calls segment \/
  exists m' t,
    m' ∈ segment_calls segment /\
    group 2 (m_groups m') = Some t /\
    m_end m' - String.length t <= p < m_end m'.
Proof.
  intros Hp Hm.
  destruct (segment_calls_cover segment p m Hp Hm) as (m' & Hin & Hcov).
  destruct (segment_calls_sound _ _ Hin) as [Hidx Hsite].
  destruct (Nat.eq_dec (m_index m') p) as [Heq|Hne].
  - left. rewrite Heq, <- match_at_callPattern, Hm in Hsite.
    by injection Hsite as ->.
  - right. rewrite match_at_callPattern in Hm.
    assert (str_head (str_drop p (toUpperCase segment)) = Some "C"%char) as HC.
    { clear -Hm. unfold call_site_at in Hm. rewrite cursor_at_rest in Hm.
      destruct (at_word_boundary _); [|done]. cbn [andb] in Hm.
      destruct (String.prefix "CALL" _) eqn:HC; [|done].
      apply str_prefix_split in HC. by rewrite HC. }
    destruct (nested_match_in_token _ _ _ p Hsite Hidx) as (t & Hg & Ht);
      [lia|done|].
    exists m', t. split; [done|]. split; [done|]. lia.
Qed.

(** ** Keywords without a target *)

Lemma span_empty_head p s :
  is_empty (span p s).1 = negb (match str_head s with
                                | Some c => p c
                                | None => false
                                end).
Proof.
  destruct s as [|c s]; cbn; [done|].
  destruct (p c); [|done]. by destruct (span p s).
Qed.

Lemma call_target_at_Some cur :
  is_Some (call_target_at cur) <-> target_follows (c_rest cur) = true.
Proof.
  unfold call_target_at, target_follows.
  destruct (String.prefix "VALUE" (c_rest cur)
            && negb (is_word_opt (str_head (str_drop 5 (c_rest cur))))).
  { cbn. split; [done | by eauto]. }
  destruct (String.prefix "(" (c_rest cur)).
  { cbn. split; [done | by eauto]. }
  cbn [orb]. pose proof (span_empty_head is_target_char (c_rest cur)) as He.
  destruct (span is_target_char (c_rest cur)) as [t r']. cbn [fst] in He.
  unfold is_target_opt. rewrite He.
  destruct (str_head (c_rest cur)) as [c|]; [destruct (is_target_char c)|];
    cbn; split; try done; try by eauto.
  all: by intros [? ?].
Qed.

(** The call pattern matches at an index when the keyword stands there
    and a target follows, and only then. *)
Lemma call_site_at_Some upper p :
  is_Some (call_site_at (cursor_at 0 None upper p)) <->
  keyword_at upper p = true /\ has_target (str_drop (p + 4) upper) = true.
Proof.
  unfold call_site_at, keyword_at, has_target. cbn zeta.
  rewrite cursor_at_rest, str_drop_add.
  destruct (at_word_boundary _); cbn [andb]; [|by split; [intros [? ?]|intros [? ?]]].
  destruct (String.prefix "CALL" _); cbn [andb]; [|by split; [intros [? ?]|intros [? ?]]].
  destruct (is_word_opt _); cbn [negb]; [by split; [intros [? ?]|intros [? ?]]|].
  rewrite <- span_space_trimStart.
  destruct (span is_space (str_drop (p + 4) upper)) as [w r]. cbn [snd].
  pose proof (call_target_at_Some
                (advance (cursor_at 0 None upper p) ("CALL" +:+ w) r)) as H.
  cbn [advance c_rest] in H. rewrite <- H.
  destruct (call_target_at _) as [[cur' caps]|].
  - split; [by eauto | by eauto].
  - split; [by intros [? ?] | by intros [_ [? ?]]].
Qed.

(** A keyword that no target follows is no match, and no call site of
    the loop. *)
Lemma keyword_without_target segment p :
  has_target (str_drop (p + 4) (toUpperCase segment)) = false ->
  match_at callPattern (cursor_at 0 None (toUpperCase segment) p) = None /\
  forall m, m ∈ segment_calls segment -> m_index m ≠ p.
Proof.
  intros Hno.
  assert (call_site_at (cursor_at 0 None (toUpperCase segment) p) = None)
    as Hnone.
  { destruct (call_site_at _) eqn:Hs; [|done].
    assert (is_Some (call_site_at (cursor_at 0 None (toUpperCase segment) p)))
      as [_ Ht]%call_site_at_Some by by rewrite Hs.
    by rewrite Hno in Ht. }
  split; [by rewrite match_at_callPattern|].
  intros m [_ Hm]%segment_calls_sound <-. by rewrite Hnone in Hm.
Qed.

(** ** The edge array and the discovery order *)

Lemma addEdge_add_new lineNo (b : Builder) (from to type : string) line :
  clean_id from = true -> clean_id to = true ->
  builder_ok lineNo b ->
  b_edges (addEdge b from to type line)
  = add_new (b_edges b) (mkEdge from to type line).
Proof.
  intros Hf Ht Hok. unfold add_new.
  destruct (existsb _ _) eqn:Hex.
  - apply existsb_exists in Hex as (e & He%list_elem_of_In & Hsame).
    apply bool_decide_eq_true in Hsame. cbn in Hsame.
    injection Hsame as <- <- <-.
    by rewrite (addEdge_recorded lineNo b e line Hok He).
  - eapply addEdge_fresh; [done|done|done|].
    intros (e & He & Htriple).
    assert (existsb (same_triple (mkEdge from to type line)) (b_edges b) = true)
      as Hex'; [|by rewrite Hex' in Hex].
    apply existsb_exists. exists e. split; [by apply list_elem_of_In|].
    by apply bool_decide_eq_true.
Qed.

Lemma process_match_edges segment m lineNo scope b :
  m ∈ segment_calls segment ->
  (1 <= lineNo)%Z ->
  clean_id scope = true ->
  builder_ok lineNo b ->
  b_edges (process_match m lineNo scope b) =
    match call_edge lineNo scope segment m with
    | Some e => add_new (b_edges b) e
    | None => b_edges b
    end.
Proof.
  intros Hm Hl Hs Hok. apply segment_calls_sound in Hm as [_ Hm].
  destruct (call_site_classify (toUpperCase segment) (m_index m) m lineNo
              scope b (toUpperCase_no_lower segment) Hm) as [_ ->].
  unfold call_edge.
  destruct (classify _) as [| |target] eqn:Hc; cbn [record_call].
  - rewrite (addEdge_add_new lineNo); [done|done|done|].
    apply upsert_ok; auto.
  - done.
  - apply classify_named_clean in Hc.
    rewrite (addEdge_add_new lineNo); [done|done|done|].
    apply upsert_ok; auto.
Qed.

Lemma matches_edges segment (ms : list Match) lineNo scope b :
  Forall (fun m => m ∈ segment_calls segment) ms ->
  (1 <= lineNo)%Z ->
  clean_id scope = true ->
  builder_ok lineNo b ->
  b_edges (fold_left (fun b m => process_match m lineNo scope b) ms b) =
    fold_left add_new (omap (call_edge lineNo scope segment) ms) (b_edges b).
Proof.
  intros Hms Hl Hs. revert b.
  induction Hms as [|m ms Hm Hms IH]; intros b Hok; [done|].
  cbn [fold_left omap list_omap].
  rewrite IH.
  - rewrite (process_match_edges segment) by done.
    by destruct (call_edge lineNo scope segment m).
  - apply segment_calls_sound in Hm as [_ Hm].
    by eapply process_match_ok.
Qed.

Lemma process_segment_edges lineNo scope b segment :
  (1 <= lineNo)%Z ->
  clean_id scope = true ->
  builder_ok lineNo b ->
  b_edges (process_segment lineNo scope b segment) =
    fold_left add_new (statement_edges lineNo scope segment) (b_edges b).
Proof.
  intros Hl Hs Hok. rewrite process_segment_fold.
  apply matches_edges; [|done..]. by apply Forall_forall.
Qed.

Lemma processStatementBlock_edges text lineNo scope b :
  (1 <= lineNo)%Z ->
  clean_id scope = true ->
  builder_ok lineNo b ->
  b_edges (processStatementBlock text lineNo scope b) =
    fold_left add_new (block_edges lineNo scope text) (b_edges b).
Proof.
  intros Hl Hs. unfold processStatementBlock, block_edges.
  generalize (splitStatements text) as segments. intros segments. revert b.
  induction segments as [|segment segments IH]; intros b Hok; [done|].
  cbn [fold_left map concat]. rewrite fold_left_app.
  rewrite IH by by apply process_segment_ok.
  by rewrite process_segment_edges.
Qed.

Lemma scan_line_discovery raw lineNo s :
  (1 <= lineNo)%Z ->
  scanner_ok lineNo s ->
  let '(scope, inBlock, found) :=
    line_discovery raw lineNo (currentScope s) (inBlockComment s) in
  currentScope (scan_line raw lineNo s) = scope /\
  inBlockComment (scan_line raw lineNo s) = inBlock /\
  b_edges (builder (scan_line raw lineNo s))
  = fold_left add_new found (b_edges (builder s)).
Proof.
  intros Hl [Hok Hs]. unfold line_discovery, scan_line.
  destruct (stripComments raw (inBlockComment s)) as [stripped inBlock].
  destruct (is_empty (collapse stripped)); [done|].
  destruct (exec labelPattern (collapse stripped) 0) as [m|] eqn:He.
  - apply exec_label_scope in He.
    destruct (is_empty _) eqn:Hempty; cbn.
    + destruct (collapse (default EmptyString (group 2 (m_groups m))));
        [done|done].
    + repeat split.
      rewrite processStatementBlock_edges; [done|done|done|].
      apply upsert_ok; auto.
  - cbn. repeat split. by apply processStatementBlock_edges.
Qed.

Lemma scan_lines_discovery lines lineNo s :
  (1 <= lineNo)%Z ->
  scanner_ok lineNo s ->
  b_edges (builder (scan_lines lines lineNo s)) =
    fold_left add_new
      (discovery lines lineNo (currentScope s) (inBlockComment s))
      (b_edges (builder s)).
Proof.
  revert lineNo s.
  induction lines as [|raw lines IH]; intros lineNo s Hl Hok; [done|].
  cbn [scan_lines discovery].
  pose proof (scan_line_discovery raw lineNo s Hl Hok) as Hline.
  destruct (line_discovery raw lineNo (currentScope s) (inBlockComment s))
    as [[scope inBlock] found].
  destruct Hline as (Hscope & Hflag & Hedges).
  rewrite fold_left_app, <- Hedges, <- Hscope, <- Hflag.
  apply IH; [lia|].
  apply (scanner_ok_mono lineNo); [lia|]. by apply scan_line_ok.
Qed.

Lemma scan_discovery (source : string) :
  b_edges (builder (scan source)) =
    first_occurrences (discovery (split_lines source) 1 "MAIN" false).
Proof.
  unfold scan, first_occurrences.
  by rewrite (scan_lines_discovery _ 1 initial_scanner ltac:(lia) initial_ok).
Qed.

(** A match of the call pattern starts within the text. *)
Lemma call_match_within upper p m :
  match_at callPattern (cursor_at 0 None upper p) = Some m ->
  p < String.length upper.
Proof.
  rewrite match_at_callPattern. unfold call_site_at. rewrite cursor_at_rest.
  destruct (String.prefix "CALL" (str_drop p upper)) eqn:Hp;
    [|by rewrite andb_false_r].
  intros _. apply (str_head_drop_lt upper p "C"%char).
  destruct (str_drop p upper) as [|c r]; [done|].
  destruct (Ascii.eqb_spec c "C"%char) as [->|Hne]; [done|].
  by rewrite str_prefix_cons_ne in Hp by done.
Qed.

(** * The claims *)

(** C1. For every input the graph has the entry node [MAIN] (kind
    [entry], line 1) as a node, no other node has the id [MAIN] or the
    kind [entry]; an upsert of [MAIN] on a map that holds the entry node
    keeps its kind and takes the smaller line; the graph of the empty
    input is that node alone, without edges. *)
Theorem C1_main_entry_node :
  forall (localeCompare : string -> string -> Z) (source : string),
    (exists rest,
       nodes (parseRexxControlFlow localeCompare source) = main_node :: rest /\
       Forall (fun n => n_id n ≠ "MAIN" /\ n_kind n ≠ "entry") rest) /\
    (forall rest l line kind,
       upsertNode (("MAIN", mkNode "MAIN" "MAIN" l "entry") :: rest)
         "MAIN" "MAIN" line kind
       = ("MAIN", mkNode "MAIN" "MAIN" (Z.min line l) "entry") :: rest) /\
    parseRexxControlFlow localeCompare EmptyString = mkGraph [main_node] [].
Proof.
  intros lc source. split; [|split].
  - destruct (parse_nodes lc source) as (rest & Hn & Hrest).
    exists (sort (compareNodes lc) rest). split; [done|].
    by rewrite sort_perm.
  - intros rest l line kind. unfold upsertNode. cbn.
    rewrite String.eqb_refl. unfold merge_node. cbn.
    do 3 f_equal. destruct (Z.ltb_spec line l); lia.
  - done.
Qed.

(** C2. No two edges of a graph have the same triple (from, to, type);
    in every state of the scan between two lines, adding an edge whose
    triple is recorded changes nothing, whatever the line of the new
    call site, and adding a triple of clean ids that is not recorded
    appends it; [CALL A; CALL A; CALL A] gives the one edge from [MAIN]
    to [A], and a repetition on a later line keeps the first line. *)
Theorem C2_edge_identity :
  forall (localeCompare : string -> string -> Z) (source : string),
    NoDup (edge_triple <$> edges (parseRexxControlFlow localeCompare source)) /\
    (forall (k : nat) (e : Edge) (line : Z),
       let b := builder (scan_lines (take k (split_lines source)) 1
                           initial_scanner) in
       e ∈ b_edges b ->
       addEdge b (e_from e) (e_to e) (e_type e) line = b) /\
    (forall (k : nat) (from to type : string) (line : Z),
       let b := builder (scan_lines (take k (split_lines source)) 1
                           initial_scanner) in
       clean_id from = true -> clean_id to = true ->
       ~ has_edge b from to type ->
       b_edges (addEdge b from to type line)
       = b_edges b ++ [mkEdge from to type line]) /\
    edges (parseRexxControlFlow localeCompare "CALL A; CALL A; CALL A")
      = [mkEdge "MAIN" "A" "calls" 1] /\
    edges (parseRexxControlFlow localeCompare
             ("CALL A" +:+ str1 LF +:+ "CALL A"))
      = [mkEdge "MAIN" "A" "calls" 1] /\
    edges (parseRexxControlFlow localeCompare
             ("CALL A; CALL A; SAY 'x;y'; CALL B" +:+ str1 LF +:+
              "A: CALL B; CALL B" +:+ str1 LF +:+
              "B: RETURN"))
      = [mkEdge "MAIN" "A" "calls" 1; mkEdge "MAIN" "B" "calls" 1;
         mkEdge "A" "B" "calls" 2].
Proof.
  intros lc source. split; [|split; [|split; [|split; [|split]]]].
  - destruct (scan_ok source) as [n Hok].
    apply NoDup_triples, (ok_edges _ _ Hok).
  - intros k e line b He.
    destruct (scan_prefix_ok (take k (split_lines source)))
      as (n & _ & Hok & _).
    by eapply addEdge_recorded.
  - intros k from to type line b Hf Ht Hnew.
    destruct (scan_prefix_ok (take k (split_lines source)))
      as (n & _ & Hok & _).
    by eapply addEdge_fresh.
  - by vm_compute.
  - by vm_compute.
  - by vm_compute.
Qed.

Lemma C2_edge_identity_witness :
  let b := builder (scan "CALL A") in
  let e := mkEdge "MAIN" "A" "calls" 1 in
  e ∈ b_edges b /\ addEdge b "MAIN" "A" "calls" 7 = b /\
  b_edges (addEdge b "A" "MAIN" "calls" 7)
  = b_edges b ++ [mkEdge "A" "MAIN" "calls" 7].
Proof.
  assert (mkEdge "MAIN" "A" "calls" 1 ∈ b_edges (builder (scan "CALL A")))
    as He by (vm_compute; apply list_elem_of_here).
  pose proof (C2_edge_identity code_unit_compare "CALL A")
    as (_ & Hrec & Hnew & _).
  split; [exact He|]. split.
  - exact (Hrec 1%nat (mkEdge "MAIN" "A" "calls" 1) 7%Z He).
  - refine (Hnew 1%nat "A" "MAIN" "calls" 7%Z eq_refl eq_refl _).
    intros (e & He' & Ht). vm_compute in He'.
    apply list_elem_of_singleton in He'. subst e. discriminate Ht.
Defined.

(** C3. When the stripped and collapsed line is an identifier, optional
    white space, a colon, optional white space and a trailing text, the
    scan of the line sets the scope to the normalized identifier,
    upserts a node of kind [function] for it at this line and, when the
    collapsed trailing text is not empty, processes it as statements
    under the new scope; the six lines of the example give the nodes
    [MAIN], [INIT], [UTIL] and the two call edges. *)
Theorem C3_label_scope :
  forall (localeCompare : string -> string -> Z)
         (raw : string) (lineNo : Z) (s : Scanner)
         (stripped : string) (inBlock : bool)
         (ident sp sp' trailing : string),
    stripComments raw (inBlockComment s) = (stripped, inBlock) ->
    collapse stripped = ident +:+ sp +:+ ":" +:+ sp' +:+ trailing ->
    ident ≠ EmptyString ->
    str_forall is_label_char ident = true ->
    str_forall is_space sp = true ->
    str_forall is_space sp' = true ->
    (forall c, str_head trailing = Some c -> is_space c = false) ->
    scan_line raw lineNo s =
      (let scope := normalizeLabel ident in
       let b := upsert (builder s) scope scope lineNo "function" in
       mkScanner
         (if is_empty (collapse trailing) then b
          else processStatementBlock (collapse trailing) lineNo scope b)
         scope inBlock) /\
    parseRexxControlFlow localeCompare
      ("CALL INIT" +:+ str1 LF +:+ "INIT:" +:+ str1 LF +:+
       "CALL UTIL" +:+ str1 LF +:+ "RETURN" +:+ str1 LF +:+
       "UTIL:" +:+ str1 LF +:+ "RETURN")
    = mkGraph
        [main_node; mkNode "INIT" "INIT" 1 "function";
         mkNode "UTIL" "UTIL" 3 "function"]
        [mkEdge "MAIN" "INIT" "calls" 1; mkEdge "INIT" "UTIL" "calls" 3].
Proof.
  intros lc raw lineNo s stripped inBlock ident sp sp' trailing
         Hstrip Hline Hne Hid Hsp Hsp' Htr.
  split.
  - by eapply scan_line_label.
  - by vm_compute.
Qed.

Lemma C3_label_scope_witness :
  scan_line "worker: CALL (name)" 2 initial_scanner =
    mkScanner
      (processStatementBlock "CALL (name)" 2 "WORKER"
         (upsert (builder initial_scanner) "WORKER" "WORKER" 2 "function"))
      "WORKER" false.
Proof.
  refine (proj1 (C3_label_scope code_unit_compare "worker: CALL (name)" 2
                   initial_scanner "worker: CALL (name)" false
                   "worker" EmptyString " " "CALL (name)"
                   eq_refl eq_refl _ eq_refl eq_refl eq_refl _)).
  - discriminate.
  - intros c [= <-]. reflexivity.
Defined.

(** C4. In the statement splitter a literal opened by a quote [q] runs
    to the next [q]: whatever stands between the two, semicolons and
    the other quote included, goes to the current statement; a literal
    left open takes the rest of the line and the statement ends there;
    outside a literal a semicolon ends the statement; no statement of
    the result is empty.  [CALL A; SAY 'x;y'; CALL B] splits in three
    and gives exactly the call edges to [A] and to [B]. *)
Theorem C4_quote_aware_split :
  forall (localeCompare : string -> string -> Z) (q : ascii)
         (body rest : string) (out : list string) (current : string),
    is_quote q = true ->
    str_lacks q body = true ->
    split_loop (String q (body +:+ String q rest)) out current None
      = split_loop rest out (current +:+ String q (body +:+ str1 q)) None /\
    split_loop (String q body) out current None
      = push_stmt out (current +:+ String q body) /\
    split_loop (String ";"%char rest) out current None
      = split_loop rest (push_stmt out current) EmptyString None /\
    Forall (fun s => s ≠ EmptyString) (splitStatements rest) /\
    splitStatements "CALL A; SAY 'x;y'; CALL B"
      = ["CALL A"; "SAY 'x;y'"; "CALL B"] /\
    splitStatements ";;a; ;b;" = ["a"; "b"] /\
    edges (parseRexxControlFlow localeCompare "CALL A; SAY 'x;y'; CALL B")
      = [mkEdge "MAIN" "A" "calls" 1; mkEdge "MAIN" "B" "calls" 1].
Proof.
  intros lc q body rest out current Hq Hbody.
  assert (Ascii.eqb q SQUOTE || Ascii.eqb q DQUOTE = true) as Hq' by exact Hq.
  split; [|split; [|split; [|split; [|split; [|split]]]]].
  - cbn [split_loop]. rewrite Hq'.
    rewrite split_loop_in_literal by done.
    by rewrite !str_app_assoc.
  - cbn [split_loop]. rewrite Hq'.
    rewrite split_loop_open_literal by done.
    by rewrite !str_app_assoc.
  - done.
  - apply split_loop_nonempty. constructor.
  - by vm_compute.
  - by vm_compute.
  - by vm_compute.
Qed.

Lemma C4_quote_aware_split_witness :
  split_loop (String SQUOTE ("x;y" +:+ String SQUOTE "; CALL B")) []
    "SAY " None
  = split_loop "; CALL B" [] ("SAY " +:+ String SQUOTE ("x;y" +:+ str1 SQUOTE))
      None.
Proof.
  exact (proj1 (C4_quote_aware_split code_unit_compare SQUOTE "x;y"
                  "; CALL B" [] "SAY " eq_refl eq_refl)).
Defined.

(** C5, as amended.  The call pattern matches at an index of the
    upper-cased statement when the call keyword stands there and the
    word [VALUE], an opening parenthesis or an identifier token follows
    after optional white space, and only then.  For each match that the
    loop visits the body does what the class of the following text
    asks: a dynamic call upserts [DYNAMIC_CALL] with kind [dynamic] and
    adds the edge of type [calls-dynamic], [ON] and [OFF] change
    nothing, any other token is upserted with kind [function] and gets
    the edge of type [calls].  A keyword that no target follows is not a
    call site, and a match that the loop does not visit starts inside
    the target token of a call site.  In every graph a node of kind
    [dynamic] has the id [DYNAMIC_CALL] and the ids are pairwise
    different, so there is one dynamic node at most. *)
Theorem C5_call_classification :
  forall localeCompare : string -> string -> Z,
    (forall (segment : string) (p : nat),
       is_Some (match_at callPattern
                  (cursor_at 0 None (toUpperCase segment) p)) <->
       keyword_at (toUpperCase segment) p = true /\
       has_target (str_drop (p + 4) (toUpperCase segment)) = true) /\
    (forall (segment : string) (lastIndex : nat) (m : Match)
            (lineNo : Z) (scope : string) (b : Builder),
       exec callPattern (toUpperCase segment) lastIndex = Some m ->
       keyword_at (toUpperCase segment) (m_index m) = true /\
       process_match m lineNo scope b =
         record_call
           (classify (str_drop (m_index m + 4) (toUpperCase segment)))
           lineNo scope b) /\
    (forall (segment : string) (p : nat),
       has_target (str_drop (p + 4) (toUpperCase segment)) = false ->
       forall m, m ∈ segment_calls segment -> m_index m ≠ p) /\
    (forall (segment : string) (p : nat) (m : Match),
       p <= String.length (toUpperCase segment) ->
       match_at callPattern (cursor_at 0 None (toUpperCase segment) p)
         = Some m ->
       m ∈ segment_calls segment \/
       exists m' t,
         m' ∈ segment_calls segment /\
         group 2 (m_groups m') = Some t /\
         m_end m' - String.length t <= p < m_end m') /\
    (forall (source : string) (n : Node),
       n ∈ nodes (parseRexxControlFlow localeCompare source) ->
       n_kind n = "dynamic" -> n_id n = "DYNAMIC_CALL") /\
    (forall source : string,
       NoDup (n_id <$> nodes (parseRexxControlFlow localeCompare source))) /\
    parseRexxControlFlow localeCompare "CALL VALUE expr"
    = mkGraph
        [main_node; mkNode "DYNAMIC_CALL" "DYNAMIC_CALL" 1 "dynamic"]
        [mkEdge "MAIN" "DYNAMIC_CALL" "calls-dynamic" 1] /\
    parseRexxControlFlow localeCompare "CALL (name)"
    = mkGraph
        [main_node; mkNode "DYNAMIC_CALL" "DYNAMIC_CALL" 1 "dynamic"]
        [mkEdge "MAIN" "DYNAMIC_CALL" "calls-dynamic" 1] /\
    parseRexxControlFlow localeCompare
      ("CALL VALUE expr" +:+ str1 LF +:+ "worker: call (name)" +:+ str1 LF)
    = mkGraph
        [main_node; mkNode "DYNAMIC_CALL" "DYNAMIC_CALL" 1 "dynamic";
         mkNode "WORKER" "WORKER" 2 "function"]
        [mkEdge "MAIN" "DYNAMIC_CALL" "calls-dynamic" 1;
         mkEdge "WORKER" "DYNAMIC_CALL" "calls-dynamic" 2] /\
    parseRexxControlFlow localeCompare "CALL ON ERROR; call off halt"
    = mkGraph [main_node] [] /\
    parseRexxControlFlow localeCompare "CALL 'X'; call"
    = mkGraph [main_node] [].
Proof.
  intros lc.
  split; [|split; [|split; [|split; [|split; [|split; [|split;
    [|split; [|split; [|split]]]]]]]]].
  - intros segment p. rewrite match_at_callPattern. apply call_site_at_Some.
  - intros segment lastIndex m lineNo scope b He.
    apply exec_call_site in He.
    assert (is_Some (call_site_at
                       (cursor_at 0 None (toUpperCase segment) (m_index m))))
      as [Hk _]%call_site_at_Some by by rewrite He.
    split; [done|].
    by apply call_site_classify; [apply toUpperCase_no_lower|].
  - intros segment p Hno. by apply keyword_without_target.
  - apply segment_calls_exact.
  - intros source n Hn Hk. apply parse_node_elem in Hn.
    destruct (scan_ok source) as [i Hok].
    destruct (ok_kinds _ _ Hok _ _ Hn) as [[Hk' _]|[Hk'|[_ ?]]];
      [congruence|congruence|done].
  - intros source. apply parse_nodes_nodup.
  - by vm_compute.
  - by vm_compute.
  - by vm_compute.
  - by vm_compute.
  - by vm_compute.
Qed.

Lemma C5_call_classification_witness :
  (keyword_at (toUpperCase "if call value x") 3 = true /\
   process_match (mkMatch 3 13 [(1, "VALUE")]) 1 "MAIN"
     (builder initial_scanner)
   = record_call
       (classify (str_drop (3 + 4) (toUpperCase "if call value x")))
       1 "MAIN" (builder initial_scanner)) /\
  (forall m, m ∈ segment_calls "call 'x'" -> m_index m ≠ 0).
Proof.
  pose proof (C5_call_classification code_unit_compare)
    as (_ & Hloop & Hnone & _).
  split.
  - exact (Hloop "if call value x" 0 (mkMatch 3 13 [(1, "VALUE")]) 1%Z
             "MAIN" (builder initial_scanner) eq_refl).
  - exact (Hnone "call 'x'" 0 eq_refl).
Defined.

(** C5, as stated, fails.  In [CALL 'X'] the keyword stands at index 0,
    what follows is neither dynamic nor [ON] or [OFF], and yet no node
    is upserted and no edge of type [calls] leaves the scope.  In
    [CALL CALL X] the keyword stands at index 5 and is followed by the
    token [X], and yet there is no node [X] and no edge to it. *)
Lemma C5_counterexample :
  (keyword_at "CALL 'X'" 0 = true /\
   classify (str_drop 4 "CALL 'X'") ≠ Dynamic /\
   classify (str_drop 4 "CALL 'X'") ≠ Toggle /\
   parseRexxControlFlow code_unit_compare "CALL 'X'"
   = mkGraph [main_node] [] /\
   ~ exists target,
       has_edge (builder (scan "CALL 'X'")) "MAIN" target "calls") /\
  (keyword_at "CALL CALL X" 5 = true /\
   classify (str_drop 9 "CALL CALL X") = Named "X" /\
   parseRexxControlFlow code_unit_compare "CALL CALL X"
   = mkGraph [main_node; mkNode "CALL" "CALL" 1 "function"]
       [mkEdge "MAIN" "CALL" "calls" 1] /\
   ~ has_edge (builder (scan "CALL CALL X")) "MAIN" "X" "calls").
Proof.
  split; [split; [|split; [|split; [|split]]]|split; [|split; [|split]]];
    try by vm_compute.
  - intros (target & e & He & _). vm_compute in He. by apply elem_of_nil in He.
  - intros (e & He & Ht). vm_compute in He.
    apply list_elem_of_singleton in He. by subst e.
Qed.

(** C6, as amended.  The statement block goes through the call sites of
    each of its statements in turn; the loop resumes after each match
    until the statement ends, so that every match of the call pattern in
    a statement (a call keyword followed by a target) is a call site of
    the loop, unless it starts inside the target token of one; a keyword
    that no target follows is not a call site; the edge of every call
    site is in the builder after the block.  [if cond then call log
    text] under the scope [WORKER] gives the edge from [WORKER] to
    [LOG]. *)
Theorem C6_calls_in_whole_statement :
  forall localeCompare : string -> string -> Z,
    (forall (text : string) (lineNo : Z) (scope : string) (b : Builder),
       processStatementBlock text lineNo scope b =
         fold_left
           (fun b segment =>
              fold_left (fun b m => process_match m lineNo scope b)
                (segment_calls segment) b)
           (splitStatements text) b) /\
    (forall (segment : string) (p : nat) (m : Match),
       p <= String.length (toUpperCase segment) ->
       match_at callPattern (cursor_at 0 None (toUpperCase segment) p)
         = Some m ->
       m ∈ segment_calls segment \/
       exists m' t,
         m' ∈ segment_calls segment /\
         group 2 (m_groups m') = Some t /\
         m_end m' - String.length t <= p < m_end m') /\
    (forall (segment : string) (p : nat),
       has_target (str_drop (p + 4) (toUpperCase segment)) = false ->
       match_at callPattern (cursor_at 0 None (toUpperCase segment) p) = None /\
       forall m, m ∈ segment_calls segment -> m_index m ≠ p) /\
    (forall (text : string) (lineNo : Z) (scope : string) (b : Builder)
            (segment : string) (m : Match),
       (1 <= lineNo)%Z ->
       clean_id scope = true ->
       builder_ok lineNo b ->
       segment ∈ splitStatements text ->
       m ∈ segment_calls segment ->
       match classify (str_drop (m_index m + 4) (toUpperCase segment)) with
       | Dynamic =>
           has_edge (processStatementBlock text lineNo scope b)
             scope "DYNAMIC_CALL" "calls-dynamic"
       | Toggle => True
       | Named target =>
           has_edge (processStatementBlock text lineNo scope b)
             scope target "calls"
       end) /\
    b_edges (processStatementBlock "if cond then call log text" 1 "WORKER"
               (builder initial_scanner))
    = [mkEdge "WORKER" "LOG" "calls" 1] /\
    edges (parseRexxControlFlow localeCompare
             ("worker:" +:+ str1 LF +:+ "  if cond then call log text"))
    = [mkEdge "WORKER" "LOG" "calls" 2] /\
    edges (parseRexxControlFlow localeCompare
             ("Msg: procedure expose logEnabled" +:+ str1 LF +:+
              "  if logEnabled then call Log text" +:+ str1 LF +:+
              "  return" +:+ str1 LF +:+
              "Log: procedure" +:+ str1 LF +:+
              "  return" +:+ str1 LF))
    = [mkEdge "MSG" "LOG" "calls" 2] /\
    edges (parseRexxControlFlow localeCompare
             "if a then call one; else call two; call three")
    = [mkEdge "MAIN" "ONE" "calls" 1; mkEdge "MAIN" "TWO" "calls" 1;
       mkEdge "MAIN" "THREE" "calls" 1].
Proof.
  intros lc.
  split; [|split; [|split; [|split; [|split; [|split; [|split]]]]]].
  - apply processStatementBlock_fold.
  - apply segment_calls_exact.
  - apply keyword_without_target.
  - apply call_site_edge.
  - by vm_compute.
  - by vm_compute.
  - by vm_compute.
  - by vm_compute.
Qed.

Lemma C6_calls_in_whole_statement_witness :
  (mkMatch 13 21 [(1, "LOG"); (2, "LOG")]
     ∈ segment_calls "if cond then call log text" \/
   exists m' t,
     m' ∈ segment_calls "if cond then call log text" /\
     group 2 (m_groups m') = Some t /\
     m_end m' - String.length t <= 13 < m_end m') /\
  has_edge
    (processStatementBlock "say hi; if cond then call log text" 1 "MAIN"
       (builder initial_scanner))
    "MAIN" "LOG" "calls".
Proof.
  pose proof (C6_calls_in_whole_statement code_unit_compare)
    as (_ & Hcover & _ & Hedge & _).
  split.
  - exact (Hcover "if cond then call log text" 13
             (mkMatch 13 21 [(1, "LOG"); (2, "LOG")])
             ltac:(vm_compute; lia) eq_refl).
  - exact (Hedge "say hi; if cond then call log text" 1%Z "MAIN"
             (builder initial_scanner) "if cond then call log text"
             (mkMatch 13 21 [(1, "LOG"); (2, "LOG")])
             ltac:(lia) eq_refl (proj1 initial_ok)
             ltac:(vm_compute; apply list_elem_of_further, list_elem_of_here)
             ltac:(vm_compute; apply list_elem_of_here)).
Defined.

(** C6, as stated, fails.  In [if x then call 'prog'] the keyword
    stands at index 10 and the loop has no call site: nothing is
    extracted.  In [CALL CALL X] the pattern matches at index 5, with
    the target [X], and the loop has the call site at index 0 only: the
    graph has the edge to [CALL] and none to [X]. *)
Lemma C6_counterexample :
  (keyword_at (toUpperCase "if x then call 'prog'") 10 = true /\
   segment_calls "if x then call 'prog'" = [] /\
   parseRexxControlFlow code_unit_compare "if x then call 'prog'"
   = mkGraph [main_node] []) /\
  (match_at callPattern (cursor_at 0 None "CALL CALL X" 5)
   = Some (mkMatch 5 11 [(1, "X"); (2, "X")]) /\
   segment_calls "CALL CALL X" = [mkMatch 0 9 [(1, "CALL"); (2, "CALL")]] /\
   edges (parseRexxControlFlow code_unit_compare "CALL CALL X")
   = [mkEdge "MAIN" "CALL" "calls" 1]).
Proof.
  split; [split; [|split]|split; [|split]]; by vm_compute.
Qed.

(** C7. When the text before an opening marker ends outside a comment
    and no closing marker follows, the scan of the whole text ends in
    the state of the scan of the text before the marker, but inside the
    comment: same nodes, same edges, same scope, and the graph is that
    of the text before the marker.  Inside an open comment a line
    without closing marker is stripped to nothing, and the scan of such
    lines leaves the scanner as it is. *)
Theorem C7_unterminated_comment :
  forall (localeCompare : string -> string -> Z) (pre rest : string),
    inBlockComment (scan pre) = false ->
    has_close rest = false ->
    scan (pre +:+ "/*" +:+ rest)
      = mkScanner (builder (scan pre)) (currentScope (scan pre)) true /\
    parseRexxControlFlow localeCompare (pre +:+ "/*" +:+ rest)
      = parseRexxControlFlow localeCompare pre /\
    (forall line : string,
       has_close line = false ->
       stripComments line true = (EmptyString, true)) /\
    (forall (lines : list string) (lineNo : Z) (s : Scanner),
       inBlockComment s = true ->
       Forall (fun l => has_close l = false) lines ->
       scan_lines lines lineNo s = s).
Proof.
  intros lc pre rest Hpre Hrest.
  pose proof (scan_open_comment pre rest Hpre Hrest) as H.
  split; [exact H|]. split; [|split].
  - unfold parseRexxControlFlow. by rewrite H.
  - apply stripComments_inside.
  - intros lines lineNo s. apply scan_lines_inside.
Qed.

Lemma C7_unterminated_comment_witness :
  parseRexxControlFlow code_unit_compare
    ("CALL A" +:+ str1 LF +:+ "B: /* note" +:+ str1 LF +:+ "C: CALL D" +:+
     str1 LF +:+ "CALL E")
  = parseRexxControlFlow code_unit_compare ("CALL A" +:+ str1 LF +:+ "B: ").
Proof.
  exact (proj1 (proj2 (C7_unterminated_comment code_unit_compare
    ("CALL A" +:+ str1 LF +:+ "B: ")
    (" note" +:+ str1 LF +:+ "C: CALL D" +:+ str1 LF +:+ "CALL E")
    eq_refl eq_refl))).
Defined.

(** C8. With a collation [localeCompare] that is total and transitive,
    the node sequence is the entry node followed by the other nodes in
    ascending line, and among equal lines in ascending id.  The edge
    sequence is in the discovery order of the scan: it is the sequence
    of the edges that the call sites ask for, line after line,
    statement after statement and call site after call site, without
    the edges whose triple an earlier one has.  It only grows at its
    end from line to line, so that its lines ascend.  In
    [CALL B; CALL A; CALL B] the edge to [B] comes before the edge to
    [A]. *)
Theorem C8_node_and_edge_order :
  forall (localeCompare : string -> string -> Z),
    (forall a b, (0 < localeCompare a b)%Z -> (localeCompare b a < 0)%Z) ->
    (forall a b c,
       (localeCompare a b <= 0)%Z -> (localeCompare b c <= 0)%Z ->
       (localeCompare a c <= 0)%Z) ->
    forall source : string,
      let g := parseRexxControlFlow localeCompare source in
      (exists rest,
         nodes g = main_node :: rest /\
         Forall (fun n => n_id n ≠ "MAIN") rest /\
         StronglySorted (node_le localeCompare) rest) /\
      edges g = first_occurrences (discovery (split_lines source) 1 "MAIN" false) /\
      (forall k : nat,
         b_edges (builder (scan_lines (take k (split_lines source)) 1
                             initial_scanner))
           `prefix_of` edges g) /\
      StronglySorted Z.le (e_line <$> edges g) /\
      discovery
        (split_lines
           ("CALL B; CALL A; CALL B" +:+ str1 LF +:+
            "C: CALL A CALL B; CALL (x)")) 1 "MAIN" false
      = [mkEdge "MAIN" "B" "calls" 1; mkEdge "MAIN" "A" "calls" 1;
         mkEdge "MAIN" "B" "calls" 1; mkEdge "C" "A" "calls" 2;
         mkEdge "C" "B" "calls" 2;
         mkEdge "C" "DYNAMIC_CALL" "calls-dynamic" 2] /\
      edges (parseRexxControlFlow localeCompare
               ("CALL B; CALL A; CALL B" +:+ str1 LF +:+
                "C: CALL A CALL B; CALL (x)"))
      = [mkEdge "MAIN" "B" "calls" 1; mkEdge "MAIN" "A" "calls" 1;
         mkEdge "C" "A" "calls" 2; mkEdge "C" "B" "calls" 2;
         mkEdge "C" "DYNAMIC_CALL" "calls-dynamic" 2].
Proof.
  intros lc Hanti Htrans source g.
  split; [|split; [|split; [|split; [|split]]]].
  - destruct (parse_nodes lc source) as (rest & Hn & Hrest).
    exists (sort (compareNodes lc) rest). split; [done|].
    assert (Forall (fun n => n_id n ≠ "MAIN") rest) as Hids.
    { eapply Forall_impl; [exact Hrest|]. cbn. tauto. }
    split; [by rewrite sort_perm|].
    apply (StronglySorted_impl_on
             (fun a b => (compareNodes lc a b <= 0)%Z) _
             (fun n => n_id n ≠ "MAIN")).
    + intros x y Hx Hy. by apply compareNodes_other.
    + by rewrite sort_perm.
    + apply (sort_sorted _ (fun n => n_id n ≠ "MAIN")); [| |done].
      * intros x y Hx Hy. rewrite !compareNodes_other by done.
        unfold node_le. intros Hn'.
        destruct (Z.lt_trichotomy (n_line x) (n_line y)) as [?|[?|?]];
          [tauto| |lia].
        right. split; [done|].
        destruct (Z.le_gt_cases (lc (n_id x) (n_id y)) 0); [tauto|].
        apply Z.lt_le_incl, Hanti. lia.
      * intros x y z Hx Hy Hz. rewrite !compareNodes_other by done.
        unfold node_le. intros [?|[? ?]] [?|[? ?]]; try (left; lia).
        right. split; [lia|]. by eapply Htrans.
  - apply scan_discovery.
  - intros k. unfold g, parseRexxControlFlow, scan. cbn.
    rewrite <- (take_drop k (split_lines source)) at 2.
    rewrite scan_lines_app.
    destruct (scan_lines_extend (drop k (split_lines source))
                (1 + Z.of_nat (length (take k (split_lines source))))
                (scan_lines (take k (split_lines source)) 1 initial_scanner))
      as [new Hnew].
    rewrite Hnew. by exists new.
  - destruct (scan_ok source) as [n Hok]. apply (ok_sorted _ _ Hok).
  - by vm_compute.
  - by vm_compute.
Qed.

Lemma C8_node_and_edge_order_witness :
  let g := parseRexxControlFlow code_unit_compare
             ("CALL B; CALL A" +:+ str1 LF +:+ "C: CALL A") in
  (exists rest,
     nodes g = main_node :: rest /\
     Forall (fun n => n_id n ≠ "MAIN") rest /\
     StronglySorted (node_le code_unit_compare) rest) /\
  edges g =
    first_occurrences
      (discovery
         (split_lines ("CALL B; CALL A" +:+ str1 LF +:+ "C: CALL A"))
         1 "MAIN" false) /\
  (forall k : nat,
     b_edges (builder (scan_lines
                (take k (split_lines
                   ("CALL B; CALL A" +:+ str1 LF +:+ "C: CALL A")))
                1 initial_scanner))
       `prefix_of` edges g) /\
  StronglySorted Z.le (e_line <$> edges g).
Proof.
  pose proof (C8_node_and_edge_order code_unit_compare
                code_unit_compare_antisym code_unit_compare_trans
                ("CALL B; CALL A" +:+ str1 LF +:+ "C: CALL A"))
    as (Hnodes & Hfound & Hprefix & Hlines & _).
  exact (conj Hnodes (conj Hfound (conj Hprefix Hlines))).
Defined.

(** C9. [toDot] is the header line, the [rankdir] line, a declaration
    per node in node order, a declaration per edge in edge order and the
    closing brace, joined by line feeds; every quoted field is escaped
    by doubling the backslashes first and escaping the double quotes
    after, which escapes every character once; the scan of the two lines
    [CALL A] and [A: RETURN] serializes to the six lines shown. *)
Theorem C9_toDot :
  forall (localeCompare : string -> string -> Z) (graph : Graph),
    toDot graph =
      join (str1 LF)
        (["digraph REXXControlFlow {"; "  rankdir=LR;"] ++
         (node_decl <$> nodes graph) ++ (edge_decl <$> edges graph) ++ ["}"]) /\
    (forall node : Node,
       node_decl node =
         "  " +:+ DQ +:+ escape_each (n_id node) +:+ DQ +:+ " [label=" +:+ DQ +:+
         escape_each (n_label node) +:+ DQ +:+ "];") /\
    (forall edge : Edge,
       edge_decl edge =
         "  " +:+ DQ +:+ escape_each (e_from edge) +:+ DQ +:+ " -> " +:+ DQ +:+
         escape_each (e_to edge) +:+ DQ +:+ " [label=" +:+ DQ +:+
         escape_each (e_type edge) +:+ DQ +:+ "];") /\
    (forall value : string,
       escapeDot value =
         replace_char DQUOTE (String BACKSLASH (str1 DQUOTE))
           (replace_char BACKSLASH (String BACKSLASH (str1 BACKSLASH)) value)) /\
    toDot (parseRexxControlFlow localeCompare
             ("CALL A" +:+ str1 LF +:+ "A: RETURN")) =
      join (str1 LF)
        ["digraph REXXControlFlow {";
         "  rankdir=LR;";
         "  " +:+ DQ +:+ "MAIN" +:+ DQ +:+ " [label=" +:+ DQ +:+ "MAIN" +:+ DQ +:+ "];";
         "  " +:+ DQ +:+ "A" +:+ DQ +:+ " [label=" +:+ DQ +:+ "A" +:+ DQ +:+ "];";
         "  " +:+ DQ +:+ "MAIN" +:+ DQ +:+ " -> " +:+ DQ +:+ "A" +:+ DQ +:+
           " [label=" +:+ DQ +:+ "calls" +:+ DQ +:+ "];";
         "}"] /\
    String.prefix "digraph REXXControlFlow {"
      (toDot (parseRexxControlFlow localeCompare
                ("CALL A" +:+ str1 LF +:+ "A: RETURN"))) = true.
Proof.
  intros lc graph. split; [|split; [|split; [|split; [|split]]]].
  - unfold toDot. rewrite !fold_left_push. by rewrite <- !app_assoc.
  - intros node. unfold node_decl. by rewrite !escapeDot_each.
  - intros edge. unfold edge_decl. by rewrite !escapeDot_each.
  - done.
  - by vm_compute.
  - by vm_compute.
Qed.

(** C10, as amended.  The call pattern runs over the whole statement,
    string literals included, and the quote state plays no part: a
    match of the pattern that starts inside a literal is a call site of
    the loop, unless it starts inside the target token of a call site,
    and the edge of a call site inside a literal is in the builder
    after the statement block; a keyword inside a literal that no
    target follows is not a call site.  A match that follows a quote is
    a call site.  [SAY 'CALL X'] gives the node [X] and the edge from
    [MAIN] to [X], also with double quotes. *)
Theorem C10_call_inside_literal :
  forall localeCompare : string -> string -> Z,
    (forall (segment : string) (p : nat) (q : ascii) (m : Match),
       quote_after None (str_take p (toUpperCase segment)) = Some q ->
       match_at callPattern (cursor_at 0 None (toUpperCase segment) p)
         = Some m ->
       m ∈ segment_calls segment \/
       exists m' t,
         m' ∈ segment_calls segment /\
         group 2 (m_groups m') = Some t /\
         m_end m' - String.length t <= p < m_end m') /\
    (forall (text : string) (lineNo : Z) (scope : string) (b : Builder)
            (segment : string) (q : ascii) (m : Match),
       (1 <= lineNo)%Z ->
       clean_id scope = true ->
       builder_ok lineNo b ->
       segment ∈ splitStatements text ->
       m ∈ segment_calls segment ->
       quote_after None (str_take (m_index m) (toUpperCase segment)) = Some q ->
       match classify (str_drop (m_index m + 4) (toUpperCase segment)) with
       | Dynamic =>
           has_edge (processStatementBlock text lineNo scope b)
             scope "DYNAMIC_CALL" "calls-dynamic"
       | Toggle => True
       | Named target =>
           has_edge (processStatementBlock text lineNo scope b)
             scope target "calls"
       end) /\
    (forall (segment : string) (p : nat) (q : ascii),
       quote_after None (str_take p (toUpperCase segment)) = Some q ->
       has_target (str_drop (p + 4) (toUpperCase segment)) = false ->
       forall m, m ∈ segment_calls segment -> m_index m ≠ p) /\
    (forall (segment : string) (p : nat) (q : ascii) (m : Match),
       str_head (str_drop p (toUpperCase segment)) = Some q ->
       is_quote q = true ->
       match_at callPattern (cursor_at 0 None (toUpperCase segment) (S p))
         = Some m ->
       m ∈ segment_calls segment) /\
    (forall (text : string) (lineNo : Z) (scope : string) (b : Builder)
            (segment : string) (p : nat) (q : ascii) (m : Match),
       (1 <= lineNo)%Z ->
       clean_id scope = true ->
       builder_ok lineNo b ->
       segment ∈ splitStatements text ->
       str_head (str_drop p (toUpperCase segment)) = Some q ->
       is_quote q = true ->
       match_at callPattern (cursor_at 0 None (toUpperCase segment) (S p))
         = Some m ->
       match classify (str_drop (S p + 4) (toUpperCase segment)) with
       | Dynamic =>
           has_edge (processStatementBlock text lineNo scope b)
             scope "DYNAMIC_CALL" "calls-dynamic"
       | Toggle => True
       | Named target =>
           has_edge (processStatementBlock text lineNo scope b)
             scope target "calls"
       end) /\
    parseRexxControlFlow localeCompare "SAY 'CALL X'" =
      mkGraph [main_node; mkNode "X" "X" 1 "function"]
        [mkEdge "MAIN" "X" "calls" 1] /\
    parseRexxControlFlow localeCompare
      ("SAY " +:+ DQ +:+ "CALL X" +:+ DQ) =
      mkGraph [main_node; mkNode "X" "X" 1 "function"]
        [mkEdge "MAIN" "X" "calls" 1] /\
    parseRexxControlFlow localeCompare "say 'x call y'" =
      mkGraph [main_node; mkNode "Y" "Y" 1 "function"]
        [mkEdge "MAIN" "Y" "calls" 1] /\
    parseRexxControlFlow localeCompare "say 'call'; say 'call call x'" =
      mkGraph [main_node; mkNode "CALL" "CALL" 1 "function"]
        [mkEdge "MAIN" "CALL" "calls" 1].
Proof.
  intros lc.
  split; [|split; [|split; [|split; [|split; [|split; [|split; [|split]]]]]]].
  - intros segment p q m _ Hm. apply segment_calls_exact; [|done].
    apply call_match_within in Hm. lia.
  - intros text lineNo scope b segment q m Hl Hs Hok Hseg Hm _.
    by apply call_site_edge.
  - intros segment p q _ Hno. by apply keyword_without_target.
  - apply quoted_call_site.
  - intros text lineNo scope b segment p q m Hl Hs Hok Hseg Hq Hquote Hm.
    pose proof (quoted_call_site segment p q m Hq Hquote Hm) as Hin.
    apply match_at_index in Hm as Hidx.
    assert (S p <= String.length (toUpperCase segment)) as Hp
      by by apply str_head_drop_lt in Hq.
    rewrite cursor_at_pos in Hidx by done. cbn in Hidx. rewrite <- Hidx.
    by apply call_site_edge.
  - by vm_compute.
  - by vm_compute.
  - by vm_compute.
  - by vm_compute.
Qed.

Lemma C10_call_inside_literal_witness :
  (mkMatch 7 13 [(1, "Y"); (2, "Y")] ∈ segment_calls "say 'x call y'" \/
   exists m' t,
     m' ∈ segment_calls "say 'x call y'" /\
     group 2 (m_groups m') = Some t /\
     m_end m' - String.length t <= 7 < m_end m') /\
  has_edge
    (processStatementBlock "say 'x call y'" 1 "MAIN" (builder initial_scanner))
    "MAIN" "Y" "calls" /\
  (forall m, m ∈ segment_calls "say 'call'" -> m_index m ≠ 5).
Proof.
  pose proof (C10_call_inside_literal code_unit_compare)
    as (Hsite & Hedge & Hnone & _).
  split; [|split].
  - exact (Hsite "say 'x call y'" 7 SQUOTE (mkMatch 7 13 [(1, "Y"); (2, "Y")])
             eq_refl eq_refl).
  - exact (Hedge "say 'x call y'" 1%Z "MAIN" (builder initial_scanner)
             "say 'x call y'" SQUOTE (mkMatch 7 13 [(1, "Y"); (2, "Y")])
             ltac:(lia) eq_refl (proj1 initial_ok)
             ltac:(vm_compute; apply list_elem_of_here)
             ltac:(vm_compute; apply list_elem_of_here)
             eq_refl).
  - exact (Hnone "say 'call'" 5 SQUOTE eq_refl eq_refl).
Defined.

(** C10, as stated, fails.  In [say 'call call x'] the second keyword
    stands inside the literal, at index 10, and the token [X] follows
    it; the loop has the call site at index 5 only, and the graph has
    the edge to [CALL] and none to [X].  In [say 'call'] the keyword
    stands inside the literal and nothing is extracted. *)
Lemma C10_counterexample :
  (quote_after None (str_take 10 (toUpperCase "say 'call call x'"))
   = Some SQUOTE /\
   keyword_at (toUpperCase "say 'call call x'") 10 = true /\
   has_target (str_drop (10 + 4) (toUpperCase "say 'call call x'")) = true /\
   segment_calls "say 'call call x'"
   = [mkMatch 5 14 [(1, "CALL"); (2, "CALL")]] /\
   parseRexxControlFlow code_unit_compare "say 'call call x'"
   = mkGraph [main_node; mkNode "CALL" "CALL" 1 "function"]
       [mkEdge "MAIN" "CALL" "calls" 1] /\
   ~ has_edge (builder (scan "say 'call call x'")) "MAIN" "X" "calls") /\
  (quote_after None (str_take 5 (toUpperCase "say 'call'")) = Some SQUOTE /\
   keyword_at (toUpperCase "say 'call'") 5 = true /\
   segment_calls "say 'call'" = [] /\
   parseRexxControlFlow code_unit_compare "say 'call'"
   = mkGraph [main_node] []).
Proof.
  split; [split; [|split; [|split; [|split; [|split]]]]|
          split; [|split; [|split]]];
    try by vm_compute.
  intros (e & He & Ht). vm_compute in He.
  apply list_elem_of_singleton in He. by subst e.
Qed.

(** * Further properties of the code *)

#[local] Arguments merge_node : simpl never.

(** ** Identifiers *)

Lemma trimStart_fixed (s : string) :
  (forall c, str_head s = Some c -> is_space c = false) -> trimStart s = s.
Proof. destruct s as [|c s]; [done|]. intros H. cbn. by rewrite (H c). Qed.

Lemma trimEnd_fixed (s : string) :
  str_forall (fun c => negb (is_space c)) s = true -> trimEnd s = s.
Proof.
  induction s as [|c s IH]; [done|]. cbn.
  intros [Hc Hs]%andb_true_iff. rewrite (IH Hs).
  apply negb_true_iff in Hc. by rewrite Hc, andb_false_r.
Qed.

Lemma toUpperCase_fixed (s : string) :
  no_lower s = true -> toUpperCase s = s.
Proof.
  induction s as [|c s IH]; [done|]. cbn.
  intros [Hc Hs]%andb_true_iff. unfold toUpperCase in IH. rewrite (IH Hs).
  unfold upper_char. apply negb_true_iff in Hc. by rewrite Hc.
Qed.

Lemma target_not_space (c : ascii) :
  is_target_char c = true -> negb (is_space c) = true.
Proof. ascii_cases c. Qed.

Lemma target_not_lower (c : ascii) :
  is_target_char c = true -> negb (is_lower c) = true.
Proof. ascii_cases c. Qed.

Lemma label_char_upper (c : ascii) :
  is_label_char c = true -> is_target_char (upper_char c) = true.
Proof. ascii_cases c. Qed.

Lemma target_word_fixed (t : string) :
  str_forall is_target_char t = true -> normalizeLabel t = t.
Proof.
  intros Ht. unfold normalizeLabel, trim.
  rewrite trimStart_fixed, trimEnd_fixed, toUpperCase_fixed; [done|..].
  - eapply str_forall_impl; [|exact Ht]. apply target_not_lower.
  - eapply str_forall_impl; [|exact Ht]. apply target_not_space.
  - intros c Hc. apply negb_true_iff, target_not_space.
    by eapply str_forall_head.
Qed.

Lemma str_map_nonempty f (s : string) :
  s ≠ EmptyString -> str_map f s ≠ EmptyString.
Proof. by destruct s. Qed.

Lemma label_word_normal (ident : string) :
  ident ≠ EmptyString ->
  str_forall is_label_char ident = true ->
  normalizeLabel ident ≠ EmptyString /\
  str_forall is_target_char (normalizeLabel ident) = true.
Proof.
  intros Hne Hid. unfold normalizeLabel, trim.
  rewrite trimStart_fixed, trimEnd_fixed.
  - split; [by apply str_map_nonempty|].
    eapply str_forall_map; [|exact Hid]. apply label_char_upper.
  - eapply str_forall_impl; [|exact Hid].
    intros c Hc. destruct (is_space c) eqn:Hs; [|done].
    by rewrite (space_not_label _ Hs) in Hc.
  - intros c Hc. destruct (is_space c) eqn:Hs; [|done].
    apply space_not_label in Hs.
    by rewrite (str_forall_head _ _ _ Hid Hc) in Hs.
Qed.

(** ** The steps of the scan *)

(** What the body of the call loop does for a call site: one of three
    things. *)
Lemma process_match_cases cur m lineNo scope b :
  call_site_at cur = Some m ->
  process_match m lineNo scope b =
    addEdge (upsert b "DYNAMIC_CALL" "DYNAMIC_CALL" lineNo "dynamic")
      scope "DYNAMIC_CALL" "calls-dynamic" lineNo \/
  process_match m lineNo scope b = b \/
  exists t,
    t ≠ EmptyString /\ str_forall is_target_char t = true /\
    t ≠ "ON" /\ t ≠ "OFF" /\
    process_match m lineNo scope b =
      addEdge (upsert b t t lineNo "function") scope t "calls" lineNo.
Proof.
  intros Hm. unfold process_match.
  destruct (_ || _) eqn:Hdyn; [by left|]. right.
  destruct (call_site_groups _ _ Hm) as [Hg|[Hg|(t & Hg & Hne & Ht)]];
    rewrite Hg in *; [done|done|].
  cbn [group Nat.eqb default from_option id].
  rewrite (target_word_fixed t Ht).
  destruct (String.eqb_spec t "ON") as [|Hon]; [by left|].
  destruct (String.eqb_spec t "OFF") as [|Hoff]; [by left|].
  right. by exists t.
Qed.

Section ScanInduction.
(** A property of the line number, the scope and the builder that the
    three changes of the scan keep: a label, a dynamic call, a call. *)
Variable I : Z -> string -> Builder -> Prop.
Hypothesis I_mono :
  forall l l' scope b, (l <= l')%Z -> I l scope b -> I l' scope b.
Hypothesis I_label :
  forall l scope b id,
    (1 <= l)%Z -> I l scope b ->
    id ≠ EmptyString -> str_forall is_target_char id = true ->
    I l id (upsert b id id l "function").
Hypothesis I_dynamic :
  forall l scope b,
    (1 <= l)%Z -> I l scope b ->
    I l scope
      (addEdge (upsert b "DYNAMIC_CALL" "DYNAMIC_CALL" l "dynamic")
         scope "DYNAMIC_CALL" "calls-dynamic" l).
Hypothesis I_call :
  forall l scope b t,
    (1 <= l)%Z -> I l scope b ->
    t ≠ EmptyString -> str_forall is_target_char t = true ->
    t ≠ "ON" -> t ≠ "OFF" ->
    I l scope (addEdge (upsert b t t l "function") scope t "calls" l).

Lemma call_loop_ind fuel upper lastIndex l scope b :
  (1 <= l)%Z -> I l scope b ->
  I l scope (call_loop fuel upper lastIndex l scope b).
Proof.
  intros Hl. revert lastIndex b.
  induction fuel as [|fuel IH]; intros lastIndex b Hb; cbn; [done|].
  destruct (exec callPattern upper lastIndex) eqn:He; [|done].
  apply IH. apply exec_call_site in He.
  destruct (process_match_cases _ _ l scope b He)
    as [->|[->|(t & ? & ? & ? & ? & ->)]]; auto.
Qed.

Lemma processStatementBlock_ind text l scope b :
  (1 <= l)%Z -> I l scope b ->
  I l scope (processStatementBlock text l scope b).
Proof.
  intros Hl. unfold processStatementBlock.
  generalize (splitStatements text) as segments.
  intros segments. revert b.
  induction segments as [|segment segments IH]; intros b Hb;
    cbn [fold_left]; [done|].
  apply IH. by apply call_loop_ind.
Qed.

Lemma scan_line_ind raw l s :
  (1 <= l)%Z ->
  I l (currentScope s) (builder s) ->
  I l (currentScope (scan_line raw l s)) (builder (scan_line raw l s)).
Proof.
  intros Hl Hs. unfold scan_line.
  destruct (stripComments raw (inBlockComment s)) as [stripped inBlock].
  destruct (is_empty (collapse stripped)); [done|].
  destruct (exec labelPattern (collapse stripped) 0) eqn:He.
  - apply exec_Some in He as (i & _ & Hm & _).
    apply labelPattern_inv in Hm as (ident & g2 & -> & Hne & Hid).
    cbn [group Nat.eqb default from_option id].
    destruct (label_word_normal ident Hne Hid) as [Hne' Hid'].
    destruct (is_empty _); cbn.
    + by eapply I_label.
    + apply processStatementBlock_ind; [done|]. by eapply I_label.
  - cbn. by apply processStatementBlock_ind.
Qed.

Lemma scan_lines_ind raw lines l s :
  (1 <= l)%Z ->
  I l (currentScope s) (builder s) ->
  let s' := scan_lines (raw :: lines) l s in
  I (l + Z.of_nat (length lines)) (currentScope s') (builder s').
Proof.
  revert raw l s.
  induction lines as [|raw' lines IH]; intros raw l s Hl Hs.
  - cbn. rewrite Z.add_0_r. by apply scan_line_ind.
  - cbn [scan_lines length] in *.
    replace (l + Z.of_nat (S (length lines)))%Z
      with ((l + 1) + Z.of_nat (length lines))%Z by lia.
    apply (IH raw' (l + 1)%Z (scan_line raw l s)); [lia|].
    apply (I_mono l); [lia|]. by apply scan_line_ind.
Qed.

Lemma scan_ind (source : string) :
  I 1 "MAIN" (builder initial_scanner) ->
  I (Z.of_nat (length (split_lines source)))
    (currentScope (scan source)) (builder (scan source)).
Proof.
  intros H0. unfold scan.
  destruct (split_lines source) as [|raw lines] eqn:Hlines;
    [by destruct (split_lines_nonempty source)|].
  replace (Z.of_nat (length (raw :: lines)))
    with (1 + Z.of_nat (length lines))%Z by (cbn [length]; lia).
  by apply scan_lines_ind.
Qed.
End ScanInduction.

(** ** The node map *)

Lemma map_get_app m m' id :
  map_get (m ++ m') id =
    match map_get m id with
    | Some n => Some n
    | None => map_get m' id
    end.
Proof.
  induction m as [|[k v] m IH]; [done|]. cbn.
  by destruct (String.eqb k id).
Qed.

Lemma map_get_update m id f id' :
  map_get (map_update m id f) id' =
    if String.eqb id id' then option_map f (map_get m id) else map_get m id'.
Proof.
  induction m as [|[k v] m IH]; cbn; [by destruct (String.eqb id id')|].
  destruct (String.eqb_spec k id) as [Heq|Hk]; cbn.
  - subst k. by destruct (String.eqb id id').
  - destruct (String.eqb_spec k id') as [Heq|Hk'].
    + subst k. by rewrite (eqb_false_ne id id') by done.
    + exact IH.
Qed.

Lemma map_get_elem m id n : map_get m id = Some n -> (id, n) ∈ m.
Proof.
  induction m as [|[k v] m IH]; [done|]. cbn.
  destruct (String.eqb_spec k id) as [->|Hk].
  - intros [= ->]. apply list_elem_of_here.
  - intros H. apply list_elem_of_further. auto.
Qed.

Lemma merge_node_eq line kind existing :
  merge_node line kind existing =
    mkNode (n_id existing) (n_label existing)
      (Z.min line (n_line existing))
      (if negb (String.eqb (n_kind existing) "entry")
          && String.eqb kind "function"
       then "function" else n_kind existing).
Proof.
  unfold merge_node. f_equal.
  - destruct (Z.ltb_spec line (n_line existing)); lia.
  - destruct (negb _); [|done]. cbn.
    by destruct (String.eqb_spec kind "function") as [->|].
Qed.

Lemma upsertNode_get m id label line kind :
  map_get (upsertNode m id label line kind) id =
    Some (match map_get m id with
          | None => mkNode id label line kind
          | Some existing => merge_node line kind existing
          end).
Proof.
  unfold upsertNode. destruct (map_get m id) as [v|] eqn:Hg.
  - by rewrite map_get_update, String.eqb_refl, Hg.
  - rewrite map_get_app, Hg. cbn. by rewrite String.eqb_refl.
Qed.

Lemma upsertNode_get_other m id label line kind id' :
  id' ≠ id ->
  map_get (upsertNode m id label line kind) id' = map_get m id'.
Proof.
  intros Hne. unfold upsertNode. destruct (map_get m id) as [v|] eqn:Hg.
  - by rewrite map_get_update, (eqb_false_ne id id') by done.
  - rewrite map_get_app. destruct (map_get m id'); [done|]. cbn.
    by rewrite (eqb_false_ne id id') by done.
Qed.

Lemma upsertNode_mono m id label line kind k n :
  map_get m k = Some n ->
  exists n',
    map_get (upsertNode m id label line kind) k = Some n' /\
    (n_line n' <= n_line n)%Z /\
    (n_kind n ≠ "dynamic" -> n_kind n' ≠ "dynamic").
Proof.
  intros Hn. destruct (String.eqb_spec k id) as [->|Hk].
  - rewrite upsertNode_get, Hn. eexists. split; [done|].
    rewrite merge_node_eq. cbn. split; [lia|].
    by destruct (_ && _).
  - rewrite upsertNode_get_other by done. exists n. split; [done|].
    split; [lia|done].
Qed.

Lemma upsertNode_new m id label line kind :
  exists n',
    map_get (upsertNode m id label line kind) id = Some n' /\
    (n_line n' <= line)%Z /\
    (kind = "function" -> n_kind n' ≠ "dynamic").
Proof.
  rewrite upsertNode_get. eexists. split; [done|].
  destruct (map_get m id) as [v|]; cbn.
  - rewrite merge_node_eq. cbn. split; [lia|]. intros ->.
    rewrite String.eqb_refl, andb_true_r.
    destruct (String.eqb_spec (n_kind v) "entry") as [->|]; by cbn.
  - split; [lia|]. by intros ->.
Qed.

Lemma addEdge_edges b from to type line :
  b_nodes (addEdge b from to type line) = b_nodes b /\
  (b_edges (addEdge b from to type line) = b_edges b \/
   b_edges (addEdge b from to type line)
   = b_edges b ++ [mkEdge from to type line]).
Proof. unfold addEdge. case_bool_decide; cbn; auto. Qed.

Lemma edge_closed_upsert m id label line kind e :
  edge_closed m e -> edge_closed (upsertNode m id label line kind) e.
Proof.
  intros (nf & nt & Hf & Ht & Hlf & Hlt & Hk).
  destruct (upsertNode_mono m id label line kind _ _ Hf) as (nf' & ? & ? & ?).
  destruct (upsertNode_mono m id label line kind _ _ Ht) as (nt' & ? & ? & ?).
  exists nf', nt'. repeat split; [done|done|lia|lia|auto].
Qed.

(** ** Three properties kept by the scan *)

Lemma closed_graph_call l scope b t kind type :
  closed_graph l scope b ->
  closed_graph l scope (addEdge (upsert b t t l kind) scope t type l).
Proof.
  intros [(n & Hn & Hl & Hk) Hedges].
  destruct (upsertNode_mono (b_nodes b) t t l kind _ _ Hn)
    as (n' & Hn' & Hl' & Hk').
  destruct (upsertNode_new (b_nodes b) t t l kind) as (nt & Hnt & Hlt & _).
  destruct (addEdge_edges (upsert b t t l kind) scope t type l)
    as [Hnodes Hcases].
  unfold closed_graph. rewrite Hnodes.
  assert (Forall (edge_closed (upsertNode (b_nodes b) t t l kind)) (b_edges b))
    as Hedges'.
  { eapply Forall_impl; [exact Hedges|]. intros e. apply edge_closed_upsert. }
  split.
  - exists n'. cbn. split; [done|]. split; [lia|auto].
  - destruct Hcases as [->| ->]; cbn; [done|].
    apply Forall_app. split; [done|]. apply Forall_singleton.
    exists n', nt. cbn. repeat split; [done|done|lia|lia|auto].
Qed.

Lemma closed_graph_scan (source : string) :
  closed_graph (Z.of_nat (length (split_lines source)))
    (currentScope (scan source)) (builder (scan source)).
Proof.
  apply scan_ind.
  - intros l l' scope b Hl [(n & ? & ? & ?) ?]. split; [|done].
    exists n. split; [done|]. split; [lia|done].
  - intros l scope b id Hl [_ Hedges] _ _.
    destruct (upsertNode_new (b_nodes b) id id l "function")
      as (n & Hn & Hln & Hk).
    split; [exists n; auto|]. cbn.
    eapply Forall_impl; [exact Hedges|]. intros e. apply edge_closed_upsert.
  - intros l scope b _ H. by apply closed_graph_call.
  - intros l scope b t _ H _ _ _ _. by apply closed_graph_call.
  - split; [|by apply Forall_nil]. by exists main_node.
Qed.

Lemma is_target_word_intro t :
  t ≠ EmptyString -> str_forall is_target_char t = true ->
  is_target_word t = true.
Proof. intros Hne Ht. unfold is_target_word. rewrite Ht. by destruct t. Qed.

Lemma shaped_edges_add l scope b id kind to type :
  (1 <= l)%Z ->
  shaped_edges l scope b ->
  is_target_word to = true ->
  (type = "calls" /\ to ≠ "ON" /\ to ≠ "OFF") \/
  (type = "calls-dynamic" /\ to = "DYNAMIC_CALL") ->
  shaped_edges l scope (addEdge (upsert b id id l kind) scope to type l).
Proof.
  intros Hl [Hs Hedges] Hto Htype. split; [done|].
  destruct (addEdge_edges (upsert b id id l kind) scope to type l)
    as [_ [-> | ->]]; cbn; [done|].
  apply Forall_app. split; [done|]. apply Forall_singleton.
  repeat split; cbn; [lia|lia|done|done|done].
Qed.

Lemma shaped_edges_scan (source : string) :
  shaped_edges (Z.of_nat (length (split_lines source)))
    (currentScope (scan source)) (builder (scan source)).
Proof.
  apply scan_ind.
  - intros l l' scope b Hl [Hs Hedges]. split; [done|].
    eapply Forall_impl; [exact Hedges|].
    intros e ([? ?] & ?). split; [lia|done].
  - intros l scope b id _ [_ Hedges] Hne Hid.
    split; [by apply is_target_word_intro|done].
  - intros l scope b Hl H. apply shaped_edges_add; [done|done|done|].
    by right.
  - intros l scope b t Hl H Hne Ht Hon Hoff.
    apply shaped_edges_add; [done|done|by apply is_target_word_intro|].
    by left.
  - split; [done|by apply Forall_nil].
Qed.

Lemma shaped_nodes_upsert l scope scope' b id kind :
  (1 <= l)%Z ->
  is_target_word id = true ->
  shaped_nodes l scope b ->
  shaped_nodes l scope' (upsert b id id l kind).
Proof.
  intros Hl Hid Hnodes. apply Forall_forall. intros kv Hkv.
  pose proof (proj1 (Forall_forall _ _) Hnodes) as Hall.
  apply upsertNode_elem in Hkv as [Hkv|[->|(v & Hv & ->)]].
  - by apply Hall.
  - cbn. split; [done|lia].
  - destruct (Hall _ Hv) as [? ?]. cbn in *. split; [done|].
    rewrite merge_node_eq. cbn. lia.
Qed.

Lemma shaped_nodes_scan (source : string) :
  shaped_nodes (Z.of_nat (length (split_lines source)))
    (currentScope (scan source)) (builder (scan source)).
Proof.
  apply scan_ind.
  - intros l l' scope b Hl Hnodes.
    eapply Forall_impl; [exact Hnodes|]. intros kv [? ?]. split; [done|lia].
  - intros l scope b id Hl Hnodes Hne Hid.
    eapply shaped_nodes_upsert; [done|by apply is_target_word_intro|done].
  - intros l scope b Hl Hnodes.
    destruct (addEdge_edges (upsert b "DYNAMIC_CALL" "DYNAMIC_CALL" l "dynamic")
                scope "DYNAMIC_CALL" "calls-dynamic" l) as [Hn _].
    unfold shaped_nodes. rewrite Hn.
    by eapply (shaped_nodes_upsert l scope scope).
  - intros l scope b t Hl Hnodes Hne Ht _ _.
    destruct (addEdge_edges (upsert b t t l "function") scope t "calls" l)
      as [Hn _].
    unfold shaped_nodes. rewrite Hn.
    eapply (shaped_nodes_upsert l scope scope);
      [done|by apply is_target_word_intro|done].
  - apply Forall_singleton. by cbn.
Qed.

Lemma scan_node_of lc (source : string) (id : string) (n : Node) :
  map_get (b_nodes (builder (scan source))) id = Some n ->
  node_of (parseRexxControlFlow lc source) id n.
Proof.
  intros Hn%map_get_elem. destruct (scan_ok source) as [l Hok].
  split; [|by apply (ok_ids _ _ Hok)].
  rewrite parse_nodes_perm. apply list_elem_of_fmap. by exists (id, n).
Qed.

Lemma escape_each_fixed (s : string) :
  str_forall (fun c => negb (Ascii.eqb c BACKSLASH || Ascii.eqb c DQUOTE)) s
  = true ->
  escape_each s = s.
Proof.
  induction s as [|c s IH]; [done|]. cbn.
  intros [Hc Hs]%andb_true_iff. rewrite (IH Hs).
  apply negb_true_iff, orb_false_iff in Hc as [Hb Hq].
  unfold escape_char. by rewrite Hb, Hq.
Qed.

Lemma target_char_plain (c : ascii) :
  is_target_char c = true ->
  negb (Ascii.eqb c BACKSLASH || Ascii.eqb c DQUOTE) = true.
Proof. ascii_cases c. Qed.

Lemma target_word_plain (t : string) :
  is_target_word t = true -> escapeDot t = t.
Proof.
  intros [_ Ht]%andb_true_iff. rewrite escapeDot_each.
  apply escape_each_fixed. eapply str_forall_impl; [|exact Ht].
  apply target_char_plain.
Qed.

(** ** The graph of a source text *)

(** X1.  Every edge of the graph joins two nodes of the graph; neither node
    has a line after the line of the edge, and the node the edge leaves
    is not the dynamic one. *)
Theorem parse_edges_closed :
  forall (localeCompare : string -> string -> Z) (source : string),
    let g := parseRexxControlFlow localeCompare source in
    Forall
      (fun e =>
         exists nf nt,
           node_of g (e_from e) nf /\ node_of g (e_to e) nt /\
           (n_line nf <= e_line e)%Z /\ (n_line nt <= e_line e)%Z /\
           n_kind nf ≠ "dynamic")
      (edges g).
Proof.
  intros lc source g.
  destruct (closed_graph_scan source) as [_ Hedges].
  eapply Forall_impl; [exact Hedges|].
  intros e (nf & nt & Hf & Ht & ? & ? & ?).
  exists nf, nt. split; [by apply scan_node_of|].
  split; [by apply scan_node_of|done].
Qed.

(** X2.  Every edge of the graph has a line from 1 to the number of lines of
    the source, two ends that are words of upper-case letters, digits
    and symbols, and either the type [calls] with a target other than
    [ON] and [OFF], or the type [calls-dynamic] with the target
    [DYNAMIC_CALL]. *)
Theorem parse_edge_shapes :
  forall (localeCompare : string -> string -> Z) (source : string),
    Forall (edge_shape (Z.of_nat (length (split_lines source))))
      (edges (parseRexxControlFlow localeCompare source)).
Proof.
  intros lc source. unfold parseRexxControlFlow. cbn [edges].
  apply (shaped_edges_scan source).
Qed.

Lemma graph_node_shapes lc (source : string) :
  Forall (node_shape (Z.of_nat (length (split_lines source))))
    (nodes (parseRexxControlFlow lc source)).
Proof.
  apply Forall_forall. intros n Hn.
  apply parse_node_elem in Hn.
  destruct (scan_ok source) as [l Hok].
  destruct (ok_ids _ _ Hok _ _ Hn) as [_ Hlabel].
  pose proof (ok_kinds _ _ Hok _ _ Hn) as Hkind.
  pose proof (proj1 (Forall_forall _ _) (shaped_nodes_scan source) _ Hn)
    as [Hword Hline].
  cbn in Hword, Hline. unfold node_shape. tauto.
Qed.

(** X3.  Every node of the graph has its id as label, an id that is a word
    of upper-case letters, digits and symbols, a line from 1 to the
    number of lines of the source and one of the three kinds: [entry]
    for [MAIN], [function], or [dynamic] for [DYNAMIC_CALL]. *)
Theorem parse_node_shapes :
  forall (localeCompare : string -> string -> Z) (source : string),
    Forall (node_shape (Z.of_nat (length (split_lines source))))
      (nodes (parseRexxControlFlow localeCompare source)).
Proof. intros lc source. apply graph_node_shapes. Qed.

(** X4.  In the DOT text of a parsed graph the escape changes no field: the
    declaration of a node shows its id twice and the declaration of an
    edge shows its two ends and its type as they are. *)
Theorem toDot_parsed_plain :
  forall (localeCompare : string -> string -> Z) (source : string),
    let g := parseRexxControlFlow localeCompare source in
    toDot g =
      join (str1 LF)
        (["digraph REXXControlFlow {"; "  rankdir=LR;"] ++
         ((fun n =>
             "  " +:+ DQ +:+ n_id n +:+ DQ +:+ " [label=" +:+ DQ +:+
             n_id n +:+ DQ +:+ "];") <$> nodes g) ++
         ((fun e =>
             "  " +:+ DQ +:+ e_from e +:+ DQ +:+ " -> " +:+ DQ +:+
             e_to e +:+ DQ +:+ " [label=" +:+ DQ +:+ e_type e +:+ DQ +:+
             "];") <$> edges g) ++
         ["}"]).
Proof.
  intros lc source g. unfold toDot.
  rewrite !fold_left_push, <- !app_assoc. do 3 f_equal.
  - apply Forall_fmap_ext_1.
    eapply Forall_impl; [apply (graph_node_shapes lc source)|].
    intros n (Hlabel & Hword & _). unfold node_decl.
    by rewrite Hlabel, (target_word_plain _ Hword).
  - f_equal. apply Forall_fmap_ext_1.
    eapply Forall_impl; [apply (shaped_edges_scan source)|].
    intros e (_ & Hf & Ht & Htype). unfold edge_decl.
    rewrite (target_word_plain _ Hf), (target_word_plain _ Ht).
    by destruct Htype as [[-> _]|[-> _]].
Qed.

(** ** [upsertNode] *)

Lemma map_update_app m m' id f :
  map_get m id = None ->
  map_update (m ++ m') id f = m ++ map_update m' id f.
Proof.
  induction m as [|[k v] m IH]; [done|]. cbn.
  destruct (String.eqb k id); [done|]. intros H. by rewrite (IH H).
Qed.

Lemma map_update_twice m id f g :
  map_update (map_update m id f) id g = map_update m id (fun v => g (f v)).
Proof.
  induction m as [|[k v] m IH]; [done|]. cbn.
  destruct (String.eqb k id) eqn:Hk; cbn; rewrite Hk; [done|].
  by rewrite IH.
Qed.

Lemma map_update_ext m id f g v :
  map_get m id = Some v -> f v = g v ->
  map_update m id f = map_update m id g.
Proof.
  induction m as [|[k x] m IH]; [done|]. cbn.
  destruct (String.eqb k id).
  - intros [= ->] Hfg. by rewrite Hfg.
  - intros Hv Hfg. by rewrite (IH Hv Hfg).
Qed.

Lemma upsertNode_twice m id label label' l1 k1 l2 k2 :
  upsertNode (upsertNode m id label l1 k1) id label' l2 k2 =
    match map_get m id with
    | None => m ++ [(id, merge_node l2 k2 (mkNode id label l1 k1))]
    | Some _ => map_update m id (fun v => merge_node l2 k2 (merge_node l1 k1 v))
    end.
Proof.
  unfold upsertNode at 1. rewrite upsertNode_get. unfold upsertNode.
  destruct (map_get m id) eqn:Hg.
  - apply map_update_twice.
  - rewrite map_update_app by done. cbn. by rewrite String.eqb_refl.
Qed.

Ltac eqb_cases :=
  repeat match goal with
         | |- context [String.eqb ?a ?b] =>
             destruct (String.eqb_spec a b); cbn [negb andb orb]
         end;
  subst; try done; try congruence.

Ltac node_eq :=
  try match goal with
      | |- ?m ++ [(?i, ?a)] = ?m ++ [(?i, ?b)] =>
          cut (a = b); [intros ->; reflexivity|]
      end;
  f_equal; first [lia | eqb_cases].

Lemma merge_node_commute l1 k1 l2 k2 v :
  k1 = "function" \/ k1 = "dynamic" ->
  k2 = "function" \/ k2 = "dynamic" ->
  merge_node l2 k2 (merge_node l1 k1 v) = merge_node l1 k1 (merge_node l2 k2 v).
Proof.
  intros H1 H2. rewrite !merge_node_eq. cbn.
  destruct H1 as [-> | ->], H2 as [-> | ->];
    node_eq.
Qed.

(** X5.  [nodes.get] after [upsertNode].  Under the id of the upsert stands
    the new record when the id was absent, and otherwise the record
    that was there with the smaller of the two lines and with the kind
    [function] when the upsert has this kind and the record is not the
    entry; every other id keeps its record, and a new id goes to the
    end of the map. *)
Theorem upsertNode_lookup :
  forall (m : list (string * Node)) (id label : string) (line : Z)
         (kind : string),
    map_get (upsertNode m id label line kind) id =
      Some (match map_get m id with
            | None => mkNode id label line kind
            | Some existing =>
                mkNode (n_id existing) (n_label existing)
                  (Z.min line (n_line existing))
                  (if negb (String.eqb (n_kind existing) "entry")
                      && String.eqb kind "function"
                   then "function" else n_kind existing)
            end) /\
    (forall id' : string,
       id' ≠ id ->
       map_get (upsertNode m id label line kind) id' = map_get m id') /\
    (upsertNode m id label line kind).*1 =
      match map_get m id with
      | None => m.*1 ++ [id]
      | Some _ => m.*1
      end.
Proof.
  intros m id label line kind. split; [|split].
  - rewrite upsertNode_get. destruct (map_get m id); [|done].
    by rewrite merge_node_eq.
  - intros id' Hne. by apply upsertNode_get_other.
  - unfold upsertNode. destruct (map_get m id).
    + apply map_update_keys.
    + by rewrite fmap_app.
Qed.

Lemma upsertNode_lookup_witness :
  map_get (upsertNode [("MAIN", main_node)] "A" "A" 3 "function") "MAIN"
  = map_get [("MAIN", main_node)] "MAIN".
Proof.
  refine (proj1 (proj2 (upsertNode_lookup [("MAIN", main_node)] "A" "A" 3
                          "function")) "MAIN" _).
  discriminate.
Defined.

(** X6.  Two upserts of one id.  The same upsert twice is the upsert once;
    two upserts of kinds [function] or [dynamic] give the same map in
    either order; and after an upsert of kind [function] a second one
    at the same or a later line changes nothing. *)
Theorem upsertNode_compose :
  forall (m : list (string * Node)) (id label : string) (l1 l2 : Z)
         (k1 k2 : string),
    upsertNode (upsertNode m id label l1 k1) id label l1 k1
      = upsertNode m id label l1 k1 /\
    (k1 = "function" \/ k1 = "dynamic" ->
     k2 = "function" \/ k2 = "dynamic" ->
     upsertNode (upsertNode m id label l1 k1) id label l2 k2
       = upsertNode (upsertNode m id label l2 k2) id label l1 k1) /\
    ((l1 <= l2)%Z ->
     upsertNode (upsertNode m id label l1 "function") id label l2 k2
       = upsertNode m id label l1 "function").
Proof.
  intros m id label l1 l2 k1 k2. split; [|split].
  - rewrite upsertNode_twice. unfold upsertNode.
    destruct (map_get m id) as [v|] eqn:Hg.
    + apply (map_update_ext _ _ _ _ v Hg).
      rewrite !merge_node_eq. cbn. node_eq.
    + rewrite merge_node_eq. cbn. node_eq.
  - intros H1 H2. rewrite !upsertNode_twice.
    destruct (map_get m id) as [v|] eqn:Hg.
    + apply (map_update_ext _ _ _ _ v Hg). by apply merge_node_commute.
    + rewrite !merge_node_eq. cbn.
      destruct H1 as [-> | ->], H2 as [-> | ->];
        node_eq.
  - intros Hl. rewrite upsertNode_twice. unfold upsertNode.
    destruct (map_get m id) as [v|] eqn:Hg.
    + apply (map_update_ext _ _ _ _ v Hg).
      rewrite !merge_node_eq. cbn. node_eq.
    + rewrite merge_node_eq. cbn. node_eq.
Qed.

Lemma upsertNode_compose_witness :
  upsertNode (upsertNode [("MAIN", main_node)] "A" "A" 2 "dynamic")
    "A" "A" 5 "function"
  = upsertNode (upsertNode [("MAIN", main_node)] "A" "A" 5 "function")
      "A" "A" 2 "dynamic" /\
  upsertNode (upsertNode [("MAIN", main_node)] "A" "A" 2 "function")
    "A" "A" 5 "dynamic"
  = upsertNode [("MAIN", main_node)] "A" "A" 2 "function".
Proof.
  split.
  - refine (proj1 (proj2 (upsertNode_compose [("MAIN", main_node)] "A" "A"
                            2 5 "dynamic" "function")) _ _); auto.
  - refine (proj2 (proj2 (upsertNode_compose [("MAIN", main_node)] "A" "A"
                            2 5 "function" "dynamic")) _).
    lia.
Defined.

(** ** [collapse] and [normalizeLabel] *)

Lemma trimStart_head (s : string) (c : ascii) :
  str_head (trimStart s) = Some c -> is_space c = false.
Proof.
  induction s as [|x s IH]; [done|]. cbn.
  destruct (is_space x) eqn:Hx; [done|]. by intros [= <-].
Qed.

Lemma trimEnd_head (s : string) (c : ascii) :
  (forall x, str_head s = Some x -> is_space x = false) ->
  str_head (trimEnd s) = Some c -> is_space c = false.
Proof.
  destruct s as [|x s]; [done|]. cbn. intros H.
  rewrite (H x eq_refl), andb_false_r. intros [= <-]. by apply H.
Qed.

Lemma trimEnd_idem (s : string) : trimEnd (trimEnd s) = trimEnd s.
Proof.
  induction s as [|c s IH]; [done|]. cbn.
  destruct (is_empty (trimEnd s) && is_space c) eqn:Hc; [done|].
  cbn. by rewrite IH, Hc.
Qed.

Lemma trim_idem (s : string) : trim (trim s) = trim s.
Proof.
  unfold trim. rewrite (trimStart_fixed (trimEnd (trimStart s))).
  - apply trimEnd_idem.
  - intros c. apply trimEnd_head. intros x. apply trimStart_head.
Qed.

Lemma replace_ws_runs_single b s :
  single_spaced b (replace_ws_runs b s) = true.
Proof.
  revert b. induction s as [|c s IH]; intros b; [done|]. cbn.
  destruct (is_space c) eqn:Hc.
  - destruct b; [apply IH|]. cbn. by rewrite IH.
  - cbn. by rewrite Hc, IH.
Qed.

Lemma single_spaced_fixed b s :
  single_spaced b s = true -> replace_ws_runs b s = s.
Proof.
  revert b. induction s as [|c s IH]; intros b; [done|]. cbn.
  destruct (is_space c) eqn:Hc.
  - intros [[Hsp Hb]%andb_true_iff Hs]%andb_true_iff.
    apply negb_true_iff in Hb. subst b.
    apply Ascii.eqb_eq in Hsp. subst c. by rewrite (IH _ Hs).
  - intros Hs. by rewrite (IH _ Hs).
Qed.

Lemma single_spaced_trimStart b b' s :
  single_spaced b s = true -> single_spaced b' (trimStart s) = true.
Proof.
  revert b. induction s as [|c s IH]; intros b; [done|]. cbn.
  destruct (is_space c) eqn:Hc.
  - intros [_ Hs]%andb_true_iff. by eapply IH.
  - intros Hs. cbn. by rewrite Hc.
Qed.

Lemma single_spaced_trimEnd b s :
  single_spaced b s = true -> single_spaced b (trimEnd s) = true.
Proof.
  revert b. induction s as [|c s IH]; intros b; [done|]. cbn.
  destruct (is_empty (trimEnd s) && is_space c) eqn:He; [done|]. cbn.
  destruct (is_space c) eqn:Hc.
  - intros [Hb Hs]%andb_true_iff. by rewrite Hb, (IH _ Hs).
  - apply IH.
Qed.

Lemma collapse_single (text : string) :
  single_spaced false (collapse text) = true.
Proof.
  unfold collapse, trim.
  apply single_spaced_trimEnd, (single_spaced_trimStart false).
  apply replace_ws_runs_single.
Qed.

Lemma collapse_idem (text : string) : collapse (collapse text) = collapse text.
Proof.
  unfold collapse at 1.
  rewrite (single_spaced_fixed _ _ (collapse_single text)).
  unfold collapse. apply trim_idem.
Qed.

Lemma replace_ws_runs_spaces b s :
  str_forall is_space (replace_ws_runs b s) = str_forall is_space s.
Proof.
  revert b. induction s as [|c s IH]; intros b; [done|]. cbn.
  destruct (is_space c) eqn:Hc.
  - destruct b; cbn; by rewrite IH.
  - cbn. by rewrite Hc.
Qed.

Lemma trim_empty (s : string) : is_empty (trim s) = str_forall is_space s.
Proof.
  unfold trim. induction s as [|c s IH]; [done|]. cbn.
  destruct (is_space c) eqn:Hc; [exact IH|].
  cbn. by rewrite Hc, andb_false_r.
Qed.

Lemma collapse_is_empty (text : string) :
  is_empty (collapse text) = str_forall is_space text.
Proof. unfold collapse. by rewrite trim_empty, replace_ws_runs_spaces. Qed.

(** X7.  [collapse] gives a normal form: collapsing twice is collapsing
    once; the result has no white space at its ends, its only
    white-space characters are single spaces, and it is empty exactly
    when the text is white space only. *)
Theorem collapse_normal_form :
  forall text : string,
    collapse (collapse text) = collapse text /\
    trim (collapse text) = collapse text /\
    single_spaced false (collapse text) = true /\
    is_empty (collapse text) = str_forall is_space text.
Proof.
  intros text. split; [|split; [|split]].
  - apply collapse_idem.
  - unfold collapse. apply trim_idem.
  - apply collapse_single.
  - apply collapse_is_empty.
Qed.

Section CharMap.
(** A change of characters that keeps the white space. *)
Variable f : ascii -> ascii.
Hypothesis f_space : forall c, is_space (f c) = is_space c.

Lemma str_map_is_empty (s : string) : is_empty (str_map f s) = is_empty s.
Proof. by destruct s. Qed.

Lemma str_map_app (s t : string) :
  str_map f (s +:+ t) = str_map f s +:+ str_map f t.
Proof. induction s as [|c s IH]; [done|]. cbn. by rewrite IH. Qed.

Lemma str_map_trimStart (s : string) :
  trimStart (str_map f s) = str_map f (trimStart s).
Proof.
  induction s as [|c s IH]; [done|]. cbn. rewrite f_space.
  by destruct (is_space c).
Qed.

Lemma str_map_trimEnd (s : string) :
  trimEnd (str_map f s) = str_map f (trimEnd s).
Proof.
  induction s as [|c s IH]; [done|]. cbn.
  rewrite IH, str_map_is_empty, f_space.
  by destruct (is_empty (trimEnd s) && is_space c).
Qed.

Lemma str_map_trim (s : string) : trim (str_map f s) = str_map f (trim s).
Proof. unfold trim. by rewrite str_map_trimStart, str_map_trimEnd. Qed.
End CharMap.

Lemma upper_char_space (c : ascii) : is_space (upper_char c) = is_space c.
Proof. ascii_cases c. Qed.

Lemma toUpperCase_idem (s : string) : toUpperCase (toUpperCase s) = toUpperCase s.
Proof. apply toUpperCase_fixed, toUpperCase_no_lower. Qed.

Lemma normalizeLabel_upper (s : string) :
  normalizeLabel (toUpperCase s) = normalizeLabel s.
Proof.
  unfold normalizeLabel, toUpperCase.
  rewrite (str_map_trim _ upper_char_space). apply toUpperCase_idem.
Qed.

(** X8.  [normalizeLabel] gives a normal form: normalizing twice is
    normalizing once, the letter case of the label does not matter, and
    the result has no lower-case letter and no white space at its
    ends. *)
Theorem normalizeLabel_normal_form :
  forall label : string,
    normalizeLabel (normalizeLabel label) = normalizeLabel label /\
    normalizeLabel (toUpperCase label) = normalizeLabel label /\
    no_lower (normalizeLabel label) = true /\
    trim (normalizeLabel label) = normalizeLabel label.
Proof.
  intros label. split; [|split; [|split]].
  - unfold normalizeLabel at 2. fold (toUpperCase (trim label)).
    rewrite normalizeLabel_upper. unfold normalizeLabel.
    by rewrite trim_idem.
  - apply normalizeLabel_upper.
  - apply toUpperCase_no_lower.
  - unfold normalizeLabel, toUpperCase.
    by rewrite (str_map_trim _ upper_char_space), trim_idem.
Qed.

(** ** [stripComments] *)

Lemma stripComments_step c s b :
  s ≠ EmptyString ->
  stripComments (String c s) b =
    if negb b && Ascii.eqb c "/"%char && bool_decide (str_head s = Some "*"%char)
    then stripComments (str_drop 1 s) true
    else if b && Ascii.eqb c "*"%char && bool_decide (str_head s = Some "/"%char)
    then stripComments (str_drop 1 s) false
    else if negb b
    then let '(r, b') := stripComments s b in (String c r, b')
    else stripComments s b.
Proof.
  destruct s as [|d tl]; [done|]. intros _. rewrite stripComments_cons2.
  cbn [str_head str_drop].
  replace (bool_decide (Some d = Some "*"%char)) with (Ascii.eqb d "*"%char).
  2:{ destruct (Ascii.eqb_spec d "*"%char) as [->|Hd].
      - by rewrite bool_decide_eq_true_2.
      - rewrite bool_decide_eq_false_2; [done|]. by intros [= ->]. }
  replace (bool_decide (Some d = Some "/"%char)) with (Ascii.eqb d "/"%char).
  2:{ destruct (Ascii.eqb_spec d "/"%char) as [->|Hd].
      - by rewrite bool_decide_eq_true_2.
      - rewrite bool_decide_eq_false_2; [done|]. by intros [= ->]. }
  done.
Qed.

Lemma stripComments_plain (line : string) :
  has_open line = false -> stripComments line false = (line, false).
Proof.
  induction line as [|c s IH]; [done|].
  cbn [has_open]. intros [Hc Hs]%orb_false_iff.
  destruct s as [|d tl]; [done|].
  rewrite stripComments_step by done. cbn [negb andb].
  rewrite Hc. by rewrite (IH Hs).
Qed.

Lemma str_app_nonempty (s t : string) : t ≠ EmptyString -> s +:+ t ≠ EmptyString.
Proof. by destruct s, t. Qed.

Lemma str_head_app (s t : string) :
  str_head (s +:+ t) = match s with
                       | EmptyString => str_head t
                       | String c _ => Some c
                       end.
Proof. by destruct s. Qed.

Lemma stripComments_close (body rest : string) :
  has_close body = false ->
  stripComments (body +:+ "*/" +:+ rest) true = stripComments rest false.
Proof.
  induction body as [|c body IH]; [done|].
  cbn [has_close]. intros [Hc Hs]%orb_false_iff.
  change (String c body +:+ "*/" +:+ rest)
    with (String c (body +:+ "*/" +:+ rest)).
  rewrite stripComments_step by (by apply str_app_nonempty).
  cbn [negb andb]. rewrite str_head_app.
  destruct body as [|d body'].
  - cbn. rewrite andb_false_r. by apply IH.
  - cbn [str_head] in *. rewrite Hc. by apply IH.
Qed.

Lemma stripComments_comment (pre body rest : string) :
  has_open pre = false ->
  has_close body = false ->
  stripComments (pre +:+ "/*" +:+ body +:+ "*/" +:+ rest) false =
    let '(r, f) := stripComments rest false in (pre +:+ r, f).
Proof.
  intros Hpre Hbody. induction pre as [|c pre IH].
  - cbn [String.append]. rewrite stripComments_cons2.
    change (negb false && Ascii.eqb "/" "/" && Ascii.eqb "*" "*") with true.
    cbv iota.
    change (body +:+ String "*" (String "/" rest))
      with (body +:+ "*/" +:+ rest).
    rewrite (stripComments_close body rest Hbody).
    by destruct (stripComments rest false).
  - cbn [has_open] in Hpre. apply orb_false_iff in Hpre as [Hc Hs].
    change (String c pre +:+ "/*" +:+ body +:+ "*/" +:+ rest)
      with (String c (pre +:+ "/*" +:+ body +:+ "*/" +:+ rest)).
    rewrite stripComments_step by (by apply str_app_nonempty).
    cbn [negb andb]. rewrite str_head_app.
    destruct pre as [|d pre'].
    + cbn [str_head]. rewrite andb_false_r. rewrite (IH Hs).
      by destruct (stripComments rest false).
    + cbn [str_head] in *. rewrite Hc. rewrite (IH Hs).
      by destruct (stripComments rest false).
Qed.

Lemma stripComments_sublist_fuel (n : nat) (line : string) (b : bool) :
  String.length line <= n ->
  list_ascii_of_string (stripComments line b).1
    `sublist_of` list_ascii_of_string line.
Proof.
  revert line b. induction n as [|n IH]; intros line b Hn.
  - destruct line; [constructor|cbn in Hn; lia].
  - destruct line as [|c [|d tl]].
    + constructor.
    + cbn. destruct b; cbn; [apply sublist_cons|apply sublist_skip];
        constructor.
    + rewrite stripComments_cons2.
      assert (forall b', list_ascii_of_string (stripComments tl b').1
                `sublist_of` list_ascii_of_string (String c (String d tl)))
        as Htl.
      { intros b'. cbn. do 2 apply sublist_cons. apply IH. cbn in Hn. lia. }
      assert (forall b', list_ascii_of_string (stripComments (String d tl) b').1
                `sublist_of` list_ascii_of_string (String d tl)) as Hdtl.
      { intros b'. apply IH. cbn in *. lia. }
      destruct (negb b && _ && _); [apply Htl|].
      destruct (b && _ && _); [apply Htl|].
      destruct (negb b).
      * specialize (Hdtl b).
        destruct (stripComments (String d tl) b) as [r b'].
        cbn in *. by apply sublist_skip.
      * cbn. apply sublist_cons, Hdtl.
Qed.

(** X9.  [stripComments] outside a comment: a line without opening marker is
    returned as it is; a comment that is opened and closed in the line
    is cut out, the texts before and after it meeting with nothing in
    between. *)
Theorem stripComments_markers :
  forall pre body rest : string,
    has_open pre = false ->
    has_close body = false ->
    stripComments pre false = (pre, false) /\
    stripComments (pre +:+ "/*" +:+ body +:+ "*/" +:+ rest) false =
      let '(r, f) := stripComments rest false in (pre +:+ r, f).
Proof.
  intros pre body rest Hpre Hbody. split.
  - by apply stripComments_plain.
  - by apply stripComments_comment.
Qed.

Lemma stripComments_markers_witness :
  stripComments "CA" false = ("CA", false) /\
  stripComments ("CA" +:+ "/*" +:+ " x * / " +:+ "*/" +:+ "LL A") false =
    let '(r, f) := stripComments "LL A" false in ("CA" +:+ r, f).
Proof.
  exact (stripComments_markers "CA" " x * / " "LL A" eq_refl eq_refl).
Defined.

(** X10.  [stripComments] only deletes: the characters of the stripped line
    are characters of the line, in the order of the line. *)
Theorem stripComments_deletes :
  forall (line : string) (inBlockComment : bool),
    list_ascii_of_string (stripComments line inBlockComment).1
      `sublist_of` list_ascii_of_string line.
Proof.
  intros line b. by apply (stripComments_sublist_fuel (String.length line)).
Qed.

(** ** [splitStatements] *)

Lemma push_stmt_out out cur : push_stmt out cur = out ++ push_stmt [] cur.
Proof.
  unfold push_stmt. destruct (is_empty (collapse cur)); [|done].
  by rewrite app_nil_r.
Qed.

Lemma split_loop_out text out cur quote :
  split_loop text out cur quote = out ++ split_loop text [] cur quote.
Proof.
  revert out cur quote.
  induction text as [|ch text IH]; intros out cur quote; cbn [split_loop].
  - apply push_stmt_out.
  - destruct quote as [q|]; [apply IH|].
    destruct (Ascii.eqb ch SQUOTE || Ascii.eqb ch DQUOTE); [apply IH|].
    destruct (Ascii.eqb ch ";"%char); [|apply IH].
    rewrite (IH (push_stmt out cur)), (IH (push_stmt [] cur)).
    by rewrite (push_stmt_out out), app_assoc.
Qed.

Lemma split_loop_semicolon a b out cur quote :
  quote_after quote a = None ->
  split_loop (a +:+ ";" +:+ b) out cur quote =
    split_loop a out cur quote ++ splitStatements b.
Proof.
  revert out cur quote.
  induction a as [|ch a IH]; intros out cur quote; cbn [quote_after].
  - intros ->. cbn. apply split_loop_out.
  - change (String ch a +:+ ";" +:+ b) with (String ch (a +:+ ";" +:+ b)).
    cbn [split_loop]. destruct quote as [q|]; [apply IH|].
    unfold is_quote.
    destruct (Ascii.eqb ch SQUOTE || Ascii.eqb ch DQUOTE); [apply IH|].
    destruct (Ascii.eqb ch ";"%char); apply IH.
Qed.

Lemma split_loop_one a out cur quote :
  str_lacks ";" a = true ->
  split_loop a out cur quote = push_stmt out (cur +:+ a).
Proof.
  revert cur quote.
  induction a as [|ch a IH]; intros cur quote; cbn [split_loop str_lacks str_forall].
  - intros _. by rewrite str_app_nil_r.
  - intros [Hch Ha]%andb_true_iff. apply negb_true_iff in Hch.
    replace (cur +:+ String ch a) with ((cur +:+ str1 ch) +:+ a)
      by (by rewrite str_app_assoc).
    destruct quote as [q|]; [by apply IH|].
    destruct (Ascii.eqb ch SQUOTE || Ascii.eqb ch DQUOTE); [by apply IH|].
    rewrite Hch. by apply IH.
Qed.

Lemma push_stmt_collapsed out cur :
  Forall (fun s => collapse s = s) out ->
  Forall (fun s => collapse s = s) (push_stmt out cur).
Proof.
  intros Hout. unfold push_stmt. destruct (is_empty (collapse cur)); [done|].
  apply Forall_app. split; [done|]. apply Forall_singleton, collapse_idem.
Qed.

Lemma split_loop_collapsed text out cur quote :
  Forall (fun s => collapse s = s) out ->
  Forall (fun s => collapse s = s) (split_loop text out cur quote).
Proof.
  revert out cur quote.
  induction text as [|ch text IH]; intros out cur quote Hout; cbn [split_loop].
  - by apply push_stmt_collapsed.
  - destruct quote as [q|]; [by apply IH|].
    destruct (Ascii.eqb ch SQUOTE || Ascii.eqb ch DQUOTE); [by apply IH|].
    destruct (Ascii.eqb ch ";"%char); [|by apply IH].
    by apply IH, push_stmt_collapsed.
Qed.

(** X11.  [splitStatements] splits at a semicolon that stands outside the
    quoted literals: the statements of the text before it are followed
    by the statements of the text after it.  A text without semicolon
    is one statement, or none when it is white space only.  Every
    statement of the result is collapsed. *)
Theorem splitStatements_semicolon :
  forall a b : string,
    (quote_after None a = None ->
     splitStatements (a +:+ ";" +:+ b) = splitStatements a ++ splitStatements b) /\
    (str_lacks ";" a = true ->
     splitStatements a =
       if str_forall is_space a then [] else [collapse a]) /\
    Forall (fun s => collapse s = s) (splitStatements a).
Proof.
  intros a b. split; [|split].
  - intros Hq. by apply split_loop_semicolon.
  - intros Ha. unfold splitStatements. rewrite (split_loop_one a) by done.
    unfold push_stmt. cbn [String.append].
    by rewrite collapse_is_empty.
  - by apply split_loop_collapsed.
Qed.

Lemma splitStatements_semicolon_witness :
  splitStatements ("say 'a;b'" +:+ ";" +:+ "call c; call d")
  = splitStatements "say 'a;b'" ++ splitStatements "call c; call d" /\
  splitStatements "  say   'a b'  " =
    if str_forall is_space "  say   'a b'  " then []
    else [collapse "  say   'a b'  "].
Proof.
  split.
  - exact (proj1 (splitStatements_semicolon "say 'a;b'" "call c; call d")
             eq_refl).
  - exact (proj1 (proj2 (splitStatements_semicolon "  say   'a b'  "
                           EmptyString)) eq_refl).
Defined.

(** X12.  A statement block before and after a semicolon outside the quoted
    literals: the block of the whole text is the block of the text
    before it followed by the block of the text after it. *)
Theorem processStatementBlock_semicolon :
  forall (a b : string) (lineNo : Z) (scope : string) (bld : Builder),
    quote_after None a = None ->
    processStatementBlock (a +:+ ";" +:+ b) lineNo scope bld =
      processStatementBlock b lineNo scope
        (processStatementBlock a lineNo scope bld).
Proof.
  intros a b lineNo scope bld Hq. unfold processStatementBlock.
  rewrite (split_loop_semicolon a b [] EmptyString None Hq : splitStatements _ = _).
  apply fold_left_app.
Qed.

Lemma processStatementBlock_semicolon_witness :
  processStatementBlock ("call a" +:+ ";" +:+ "call b") 1 "MAIN"
    (builder initial_scanner)
  = processStatementBlock "call b" 1 "MAIN"
      (processStatementBlock "call a" 1 "MAIN" (builder initial_scanner)).
Proof.
  exact (processStatementBlock_semicolon "call a" "call b" 1 "MAIN"
           (builder initial_scanner) eq_refl).
Defined.

(** ** [escapeDot] *)

Lemma escape_each_inj (a b : string) : escape_each a = escape_each b -> a = b.
Proof.
  revert b. induction a as [|c a IH]; intros [|d b]; cbn.
  - done.
  - unfold escape_char.
    destruct (Ascii.eqb d BACKSLASH); [done|].
    by destruct (Ascii.eqb d DQUOTE).
  - unfold escape_char.
    destruct (Ascii.eqb c BACKSLASH); [done|].
    by destruct (Ascii.eqb c DQUOTE).
  - unfold escape_char.
    destruct (Ascii.eqb_spec c BACKSLASH) as [->|Hcb],
             (Ascii.eqb_spec d BACKSLASH) as [->|Hdb]; cbn.
    + intros [= H]. by rewrite (IH _ H).
    + destruct (Ascii.eqb_spec d DQUOTE) as [->|Hdq]; cbn; [done|].
      intros [= <- _]. done.
    + destruct (Ascii.eqb_spec c DQUOTE) as [->|Hcq]; cbn; [done|].
      intros [= -> _]. done.
    + destruct (Ascii.eqb_spec c DQUOTE) as [->|Hcq],
               (Ascii.eqb_spec d DQUOTE) as [->|Hdq]; cbn.
      * intros [= H]. by rewrite (IH _ H).
      * intros [= <- _]. done.
      * intros [= -> _]. done.
      * intros [= -> H]. by rewrite (IH _ H).
Qed.

Lemma escape_each_length (s : string) :
  String.length s <= String.length (escape_each s) <= 2 * String.length s.
Proof.
  induction s as [|c s IH]; [cbn; lia|]. cbn [escape_each].
  rewrite str_length_app. unfold escape_char.
  destruct (Ascii.eqb c BACKSLASH); [cbn; lia|].
  destruct (Ascii.eqb c DQUOTE); cbn; lia.
Qed.

Lemma escape_each_fixed_inv (s : string) :
  escape_each s = s -> str_forall is_plain_char s = true.
Proof.
  induction s as [|c s IH]; [done|]. cbn. unfold escape_char, is_plain_char.
  destruct (Ascii.eqb_spec c BACKSLASH) as [->|Hb]; cbn.
  - intros [= H]. pose proof (escape_each_length s) as Hl.
    apply (f_equal String.length) in H. cbn in H. lia.
  - destruct (Ascii.eqb_spec c DQUOTE) as [->|Hq]; cbn; [done|].
    intros [= H]. by apply IH.
Qed.

(** X13.  [escapeDot] loses nothing: two values with the same escape are the
    same value.  The escape is at least as long as the value and at
    most twice as long, and it is the value itself exactly when the
    value has neither a backslash nor a double quote. *)
Theorem escapeDot_injective :
  forall a b : string,
    (escapeDot a = escapeDot b -> a = b) /\
    String.length a <= String.length (escapeDot a) <= 2 * String.length a /\
    (escapeDot a = a <-> str_forall is_plain_char a = true).
Proof.
  intros a b. rewrite !escapeDot_each. split; [|split; [|split]].
  - apply escape_each_inj.
  - apply escape_each_length.
  - apply escape_each_fixed_inv.
  - apply escape_each_fixed.
Qed.

Lemma escapeDot_injective_witness :
  (String BACKSLASH "n" = String BACKSLASH "n") /\
  (escapeDot "MAIN" = "MAIN" <-> str_forall is_plain_char "MAIN" = true).
Proof.
  split.
  - exact (proj1 (escapeDot_injective (String BACKSLASH "n")
                    (String BACKSLASH "n")) eq_refl).
  - exact (proj2 (proj2 (escapeDot_injective "MAIN" EmptyString))).
Defined.

(** ** Letter case *)

Section PatternMap.
Variable f : ascii -> ascii.

Lemma str_map_head (s : string) :
  str_head (str_map f s) = option_map f (str_head s).
Proof. by destruct s. Qed.

Lemma str_map_take n (s : string) :
  str_take n (str_map f s) = str_map f (str_take n s).
Proof.
  revert s. induction n as [|n IH]; intros [|c s]; cbn; try done.
  by rewrite IH.
Qed.

Lemma str_map_length (s : string) : String.length (str_map f s) = String.length s.
Proof. induction s as [|c s IH]; [done|]. cbn. by rewrite IH. Qed.

Lemma star_map p pos prev s caps (k k' : cont) :
  (forall x, p (f x) = p x) ->
  (forall c cs,
     k' (map_cursor f c) (map_captures f cs) = option_map (map_result f) (k c cs)) ->
  star p pos (option_map f prev) (str_map f s) (map_captures f caps) k' =
    option_map (map_result f) (star p pos prev s caps k).
Proof.
  intros Hp Hk. revert pos prev.
  induction s as [|c s IH]; intros pos prev; cbn [str_map star].
  - apply (Hk (Cursor pos prev EmptyString)).
  - rewrite Hp. destruct (p c).
    + pose proof (IH (S pos) (Some c)) as IH'.
      cbn [option_map] in IH'. rewrite IH'.
      destruct (star p (S pos) (Some c) s caps k); [done|].
      apply (Hk (Cursor pos prev (String c s))).
    + apply (Hk (Cursor pos prev (String c s))).
Qed.

Lemma one_map p cur caps (k k' : cont) :
  (forall x, p (f x) = p x) ->
  (forall c cs,
     k' (map_cursor f c) (map_captures f cs) = option_map (map_result f) (k c cs)) ->
  one p (map_cursor f cur) (map_captures f caps) k' =
    option_map (map_result f) (one p cur caps k).
Proof.
  intros Hp Hk. unfold one. cbn [map_cursor c_rest c_pos].
  destruct (c_rest cur) as [|x s]; [done|]. cbn [str_map].
  rewrite Hp. destruct (p x); [|done].
  apply (Hk (Cursor (S (c_pos cur)) (Some x) s)).
Qed.

Lemma rmatch_map r :
  respects f r ->
  forall cur caps (k k' : cont),
    (forall c cs,
       k' (map_cursor f c) (map_captures f cs)
       = option_map (map_result f) (k c cs)) ->
    rmatch r (map_cursor f cur) (map_captures f caps) k' =
      option_map (map_result f) (rmatch r cur caps k).
Proof.
  induction r as [|c|p|r1 IH1 r2 IH2|r1 IH1 r2 IH2|p|p|n r IH| | |];
    intros Hr cur caps k k' Hk; cbn [rmatch respects] in *.
  - apply Hk.
  - by apply one_map.
  - by apply one_map.
  - destruct Hr as [Hr1 Hr2]. apply IH1; [done|].
    intros c cs. by apply IH2.
  - destruct Hr as [Hr1 Hr2].
    rewrite (IH1 Hr1 cur caps k k' Hk), (IH2 Hr2 cur caps k k' Hk).
    by destruct (rmatch r1 cur caps k).
  - by apply (star_map p (c_pos cur) (c_prev cur)).
  - apply one_map; [done|]. intros c cs.
    by apply (star_map p (c_pos c) (c_prev c)).
  - apply IH; [done|]. intros c cs. cbn [map_cursor c_pos c_rest].
    rewrite str_map_take.
    apply (Hk c ((n, str_take (c_pos c - c_pos cur) (c_rest cur)) :: cs)).
  - assert (at_word_boundary (map_cursor f cur) = at_word_boundary cur) as ->.
    { unfold at_word_boundary. cbn [map_cursor c_prev c_rest].
      rewrite str_map_head.
      destruct (c_prev cur), (str_head (c_rest cur)); cbn; by rewrite ?Hr. }
    destruct (at_word_boundary cur); [apply Hk|done].
  - cbn [map_cursor c_pos]. destruct (c_pos cur =? 0)%nat; [apply Hk|done].
  - cbn [map_cursor c_rest]. rewrite (str_map_is_empty f).
    destruct (is_empty (c_rest cur)); [apply Hk|done].
Qed.

Lemma match_at_map r cur :
  respects f r ->
  match_at r (map_cursor f cur) = option_map (map_match f) (match_at r cur).
Proof.
  intros Hr. unfold match_at.
  pose proof (rmatch_map r Hr cur [] (fun c cs => Some (c, cs))
                (fun c cs => Some (c, cs)) (fun c cs => eq_refl)) as H.
  cbn [map_captures map] in H. rewrite H.
  by destruct (rmatch r cur [] _) as [[c cs]|].
Qed.

Lemma search_map r pos prev s :
  respects f r ->
  search r pos (option_map f prev) (str_map f s) =
    option_map (map_match f) (search r pos prev s).
Proof.
  intros Hr. revert pos prev.
  induction s as [|c s IH]; intros pos prev; cbn [search str_map].
  - pose proof (match_at_map r (Cursor pos prev EmptyString) Hr) as H.
    unfold map_cursor in H. cbn [c_pos c_prev c_rest str_map] in H.
    rewrite H.
    by destruct (match_at r (Cursor pos prev EmptyString)).
  - pose proof (match_at_map r (Cursor pos prev (String c s)) Hr) as H.
    unfold map_cursor in H. cbn [c_pos c_prev c_rest str_map] in H.
    rewrite H.
    destruct (match_at r (Cursor pos prev (String c s))); [done|].
    apply (IH (S pos) (Some c)).
Qed.

Lemma exec_map r s :
  respects f r ->
  exec r (str_map f s) 0 = option_map (map_match f) (exec r s 0).
Proof. intros Hr. rewrite !exec_0. by apply (search_map r 0 None). Qed.

Lemma group_map n caps :
  group n (map_captures f caps) = option_map (str_map f) (group n caps).
Proof.
  induction caps as [|[m s] caps IH]; [done|]. cbn.
  by destruct (n =? m)%nat.
Qed.
End PatternMap.

Lemma labelPattern_respects_upper : respects upper_char labelPattern.
Proof.
  cbn. repeat split; intros x; ascii_cases x.
Qed.

Lemma split_lines_upper (s : string) :
  split_lines (toUpperCase s) = toUpperCase <$> split_lines s.
Proof.
  induction s as [|c s IH]; [done|].
  cbn [toUpperCase str_map split_lines]. fold (toUpperCase s).
  rewrite IH.
  assert (Ascii.eqb (upper_char c) LF = Ascii.eqb c LF) as -> by ascii_cases c.
  assert (Ascii.eqb (upper_char c) CR = Ascii.eqb c CR) as -> by ascii_cases c.
  assert (bool_decide (str_head (toUpperCase s) = Some LF)
          = bool_decide (str_head s = Some LF)) as ->.
  { unfold toUpperCase. rewrite str_map_head.
    destruct (str_head s) as [x|]; [|done]. cbn.
    apply bool_decide_ext. split; intros [= H]; f_equal;
      revert H; ascii_cases x. }
  destruct (Ascii.eqb c LF); [done|].
  destruct (_ && _); [done|].
  by destruct (split_lines s).
Qed.

Lemma stripComments_upper (line : string) (b : bool) :
  stripComments (toUpperCase line) b =
    ((toUpperCase (stripComments line b).1), (stripComments line b).2).
Proof.
  assert (forall n line b, String.length line <= n ->
            stripComments (toUpperCase line) b =
            ((toUpperCase (stripComments line b).1), (stripComments line b).2))
    as H; [|by apply (H (String.length line))].
  clear. intros n. induction n as [|n IH]; intros line b Hn.
  - destruct line; [done|cbn in Hn; lia].
  - destruct line as [|c [|d tl]]; [done|by destruct b|].
    change (toUpperCase (String c (String d tl)))
      with (String (upper_char c) (String (upper_char d) (toUpperCase tl))).
    rewrite !stripComments_cons2.
    assert (Ascii.eqb (upper_char c) "/" = Ascii.eqb c "/") as -> by ascii_cases c.
    assert (Ascii.eqb (upper_char c) "*" = Ascii.eqb c "*") as -> by ascii_cases c.
    assert (Ascii.eqb (upper_char d) "/" = Ascii.eqb d "/") as -> by ascii_cases d.
    assert (Ascii.eqb (upper_char d) "*" = Ascii.eqb d "*") as -> by ascii_cases d.
    destruct (negb b && _ && _); [apply IH; cbn in Hn; lia|].
    destruct (b && _ && _); [apply IH; cbn in Hn; lia|].
    change (String (upper_char d) (toUpperCase tl))
      with (toUpperCase (String d tl)).
    rewrite (IH (String d tl) b) by (cbn in *; lia).
    destruct (negb b); [|done].
    by destruct (stripComments (String d tl) b).
Qed.

Lemma replace_ws_runs_upper b (s : string) :
  replace_ws_runs b (toUpperCase s) = toUpperCase (replace_ws_runs b s).
Proof.
  revert b. induction s as [|c s IH]; intros b; [done|].
  cbn [toUpperCase str_map replace_ws_runs]. fold (toUpperCase s).
  rewrite upper_char_space.
  destruct (is_space c); [destruct b|]; cbn; by rewrite IH.
Qed.

Lemma collapse_upper (s : string) :
  collapse (toUpperCase s) = toUpperCase (collapse s).
Proof.
  unfold collapse. rewrite replace_ws_runs_upper.
  apply (str_map_trim _ upper_char_space).
Qed.

Lemma push_stmt_upper out cur :
  push_stmt (toUpperCase <$> out) (toUpperCase cur)
  = toUpperCase <$> push_stmt out cur.
Proof.
  unfold push_stmt. rewrite collapse_upper.
  unfold toUpperCase at 1. rewrite str_map_is_empty.
  destruct (is_empty (collapse cur)); [done|]. by rewrite fmap_app.
Qed.

Lemma split_loop_upper text out cur quote :
  (forall q, quote = Some q -> is_quote q = true) ->
  split_loop (toUpperCase text) (toUpperCase <$> out) (toUpperCase cur) quote
  = toUpperCase <$> split_loop text out cur quote.
Proof.
  revert out cur quote.
  induction text as [|ch text IH]; intros out cur quote Hq.
  - apply push_stmt_upper.
  - cbn [toUpperCase str_map split_loop]. fold (toUpperCase text).
    assert (toUpperCase cur +:+ str1 (upper_char ch)
            = toUpperCase (cur +:+ str1 ch)) as Hcur.
    { unfold toUpperCase. by rewrite str_map_app. }
    destruct quote as [q|].
    + rewrite Hcur.
      assert (Ascii.eqb (upper_char ch) q = Ascii.eqb ch q) as ->.
      { specialize (Hq q eq_refl). revert Hq.
        unfold is_quote. destruct (Ascii.eqb_spec q SQUOTE) as [->|];
          [intros _; ascii_cases ch|].
        destruct (Ascii.eqb_spec q DQUOTE) as [->|]; [|done].
        intros _. ascii_cases ch. }
      apply IH. intros q'. destruct (Ascii.eqb ch q); [done|].
      intros [= <-]. by apply Hq.
    + assert (Ascii.eqb (upper_char ch) SQUOTE = Ascii.eqb ch SQUOTE) as ->
        by ascii_cases ch.
      assert (Ascii.eqb (upper_char ch) DQUOTE = Ascii.eqb ch DQUOTE) as ->
        by ascii_cases ch.
      assert (Ascii.eqb (upper_char ch) ";" = Ascii.eqb ch ";") as ->
        by ascii_cases ch.
      destruct (Ascii.eqb ch SQUOTE || Ascii.eqb ch DQUOTE) eqn:Hquote.
      * rewrite Hcur.
        assert (upper_char ch = ch) as ->.
        { revert Hquote. ascii_cases ch. }
        apply IH. by intros q [= <-].
      * destruct (Ascii.eqb ch ";").
        -- rewrite push_stmt_upper. by apply (IH _ EmptyString).
        -- rewrite Hcur. by apply IH.
Qed.

Lemma splitStatements_upper (text : string) :
  splitStatements (toUpperCase text) = toUpperCase <$> splitStatements text.
Proof. by apply (split_loop_upper text [] EmptyString None). Qed.

Lemma process_segment_upper lineNo scope b segment :
  process_segment lineNo scope b (toUpperCase segment)
  = process_segment lineNo scope b segment.
Proof. unfold process_segment. by rewrite toUpperCase_idem. Qed.

Lemma processStatementBlock_upper text lineNo scope b :
  processStatementBlock (toUpperCase text) lineNo scope b
  = processStatementBlock text lineNo scope b.
Proof.
  unfold processStatementBlock. rewrite splitStatements_upper.
  generalize (splitStatements text) as segments. intros segments. revert b.
  induction segments as [|segment segments IH]; intros b; [done|].
  cbn [fmap list_fmap fold_left]. rewrite process_segment_upper. apply IH.
Qed.

Lemma scan_line_upper raw lineNo s :
  scan_line (toUpperCase raw) lineNo s = scan_line raw lineNo s.
Proof.
  unfold scan_line. rewrite stripComments_upper.
  destruct (stripComments raw (inBlockComment s)) as [stripped inBlock].
  cbn [fst snd]. rewrite collapse_upper.
  unfold toUpperCase at 1. rewrite str_map_is_empty.
  destruct (is_empty (collapse stripped)); [done|].
  fold (toUpperCase (collapse stripped)).
  unfold toUpperCase at 1.
  rewrite (exec_map upper_char labelPattern _ labelPattern_respects_upper).
  destruct (exec labelPattern (collapse stripped) 0) as [m|]; cbn [option_map].
  - cbn [map_match m_groups]. rewrite !group_map.
    assert (normalizeLabel
              (default undefined_string
                 (option_map (str_map upper_char) (group 1 (m_groups m))))
            = normalizeLabel (default undefined_string (group 1 (m_groups m))))
      as ->.
    { destruct (group 1 (m_groups m)); [|done]. apply normalizeLabel_upper. }
    assert (collapse
              (default EmptyString
                 (option_map (str_map upper_char) (group 2 (m_groups m))))
            = toUpperCase (collapse (default EmptyString (group 2 (m_groups m)))))
      as ->.
    { destruct (group 2 (m_groups m)); [|done]. apply collapse_upper. }
    unfold toUpperCase at 1. rewrite str_map_is_empty.
    destruct (is_empty _); [done|].
    fold (toUpperCase (collapse (default EmptyString (group 2 (m_groups m))))).
    by rewrite processStatementBlock_upper.
  - fold (toUpperCase (collapse stripped)).
    by rewrite processStatementBlock_upper.
Qed.

Lemma scan_lines_upper lines lineNo s :
  scan_lines (toUpperCase <$> lines) lineNo s = scan_lines lines lineNo s.
Proof.
  revert lineNo s. induction lines as [|raw lines IH]; intros lineNo s; [done|].
  cbn [fmap list_fmap scan_lines]. rewrite scan_line_upper. apply IH.
Qed.

Lemma scan_upper (source : string) : scan (toUpperCase source) = scan source.
Proof. unfold scan. rewrite split_lines_upper. apply scan_lines_upper. Qed.

(** X14.  The parser does not see the letter case: two sources that agree
    once their letters are put in upper case give the same graph. *)
Theorem parse_case_insensitive :
  forall (localeCompare : string -> string -> Z) (source source' : string),
    toUpperCase source = toUpperCase source' ->
    parseRexxControlFlow localeCompare source
    = parseRexxControlFlow localeCompare source'.
Proof.
  intros lc source source' H. unfold parseRexxControlFlow.
  by rewrite <- (scan_upper source), <- (scan_upper source'), H.
Qed.

Lemma parse_case_insensitive_witness :
  parseRexxControlFlow code_unit_compare "Call Init; init: call Log"
  = parseRexxControlFlow code_unit_compare "CALL init; Init: CALL log".
Proof.
  exact (parse_case_insensitive code_unit_compare
           "Call Init; init: call Log" "CALL init; Init: CALL log" eq_refl).
Defined.

(** ** Line ends *)

Lemma split_lines_single (l : string) :
  str_lacks LF l = true -> str_lacks CR l = true -> split_lines l = [l].
Proof.
  induction l as [|c l IH]; [done|]. cbn [str_lacks str_forall split_lines].
  intros [Hc Hl]%andb_true_iff [Hc' Hl']%andb_true_iff.
  apply negb_true_iff in Hc, Hc'. rewrite Hc, Hc'. cbn.
  unfold str_lacks in IH. by rewrite (IH Hl Hl').
Qed.

Lemma split_lines_sep (sep l r : string) :
  sep = str1 LF \/ sep = String CR (str1 LF) ->
  str_lacks LF l = true -> str_lacks CR l = true ->
  split_lines (l +:+ sep +:+ r) = l :: split_lines r.
Proof.
  intros Hsep. induction l as [|c l IH].
  - intros _ _. by destruct Hsep as [-> | ->].
  - cbn [str_lacks str_forall].
    intros [Hc Hl]%andb_true_iff [Hc' Hl']%andb_true_iff.
    change (String c l +:+ sep +:+ r) with (String c (l +:+ sep +:+ r)).
    cbn [split_lines]. apply negb_true_iff in Hc, Hc'. rewrite Hc, Hc'. cbn.
    unfold str_lacks in IH. by rewrite (IH Hl Hl').
Qed.

Lemma split_lines_join (sep : string) (lines : list string) :
  sep = str1 LF \/ sep = String CR (str1 LF) ->
  lines ≠ [] ->
  Forall (fun l => str_lacks LF l && str_lacks CR l = true) lines ->
  split_lines (join sep lines) = lines.
Proof.
  intros Hsep Hne Hall. induction Hall as [|l lines Hl Hall IH]; [done|].
  apply andb_true_iff in Hl as [Hlf Hcr].
  destruct lines as [|l' lines].
  - cbn. by apply split_lines_single.
  - change (join sep (l :: l' :: lines))
      with (l +:+ sep +:+ join sep (l' :: lines)).
    rewrite split_lines_sep by done. by rewrite IH.
Qed.

(** X15.  Lines joined by line feeds, or by carriage return and line feed,
    are split into the same lines again, so that the graph does not
    depend on which of the two line ends the source uses. *)
Theorem parse_line_ends :
  forall (localeCompare : string -> string -> Z) (lines : list string),
    lines ≠ [] ->
    Forall (fun l => str_lacks LF l && str_lacks CR l = true) lines ->
    split_lines (join (str1 LF) lines) = lines /\
    split_lines (join (String CR (str1 LF)) lines) = lines /\
    parseRexxControlFlow localeCompare (join (String CR (str1 LF)) lines)
    = parseRexxControlFlow localeCompare (join (str1 LF) lines).
Proof.
  intros lc lines Hne Hall.
  assert (split_lines (join (str1 LF) lines) = lines) as Hlf
    by (apply split_lines_join; auto).
  assert (split_lines (join (String CR (str1 LF)) lines) = lines) as Hcrlf
    by (apply split_lines_join; auto).
  split; [done|]. split; [done|].
  unfold parseRexxControlFlow, scan. by rewrite Hlf, Hcrlf.
Qed.

Lemma parse_line_ends_witness :
  split_lines (join (str1 LF) ["call a"; "a:"; "  return"])
  = ["call a"; "a:"; "  return"] /\
  split_lines (join (String CR (str1 LF)) ["call a"; "a:"; "  return"])
  = ["call a"; "a:"; "  return"] /\
  parseRexxControlFlow code_unit_compare
    (join (String CR (str1 LF)) ["call a"; "a:"; "  return"])
  = parseRexxControlFlow code_unit_compare
      (join (str1 LF) ["call a"; "a:"; "  return"]).
Proof.
  refine (parse_line_ends code_unit_compare ["call a"; "a:"; "  return"] _ _).
  - discriminate.
  - by repeat constructor.
Defined.

(** ** Label lines *)

Lemma label_rest_shape cur caps res :
  rmatch label_rest cur caps final_cont = Some res ->
  exists sp sp' g,
    c_rest cur = sp +:+ ":" +:+ sp' +:+ g /\
    str_forall is_space sp = true /\ str_forall is_space sp' = true /\
    str_forall is_dot g = true.
Proof.
  unfold label_rest. rewrite rmatch_Seq, rmatch_Star.
  intros (w1 & r1 & Hs1 & Hw1 & H)%star_inv. cbn beta in H.
  rewrite rmatch_Seq, rmatch_Chr in H.
  destruct (String.prefix _ _) eqn:Hp; [|done].
  apply str_prefix_split in Hp. cbn [advance c_rest] in Hp.
  rewrite rmatch_Seq, rmatch_Star in H.
  apply star_inv in H as (w2 & r2 & Hs2 & Hw2 & H). cbn beta in H.
  rewrite rmatch_Seq, rmatch_Grp, rmatch_Star in H.
  apply star_inv in H as (w3 & r3 & Hs3 & Hw3 & H). cbn beta in H.
  rewrite rmatch_Eol in H.
  destruct (is_empty _) eqn:He; [|done].
  cbn [advance c_rest] in *.
  destruct r3; [|done]. rewrite str_app_nil_r in Hs3. subst r2.
  exists w1, w2, w3. split; [|done].
  rewrite Hs1, Hp. cbn [String.length str1 String.append]. by rewrite Hs2.
Qed.

Lemma labelPattern_shape cur m :
  match_at labelPattern cur = Some m ->
  c_pos cur = 0 /\
  exists ident sp sp' g,
    c_rest cur = ident +:+ sp +:+ ":" +:+ sp' +:+ g /\
    ident ≠ EmptyString /\ str_forall is_label_char ident = true /\
    str_forall is_space sp = true /\ str_forall is_space sp' = true /\
    str_forall is_dot g = true.
Proof.
  unfold match_at.
  change (fun (cur' : cursor) (caps' : captures) => Some (cur', caps'))
    with final_cont.
  destruct (rmatch labelPattern cur [] final_cont) as [[cur' caps']|] eqn:Hm;
    [|done].
  intros _.
  rewrite labelPattern_eq, rmatch_Seq, rmatch_Bol in Hm.
  destruct (Nat.eqb_spec (c_pos cur) 0) as [Hpos|]; [|done].
  split; [done|].
  rewrite rmatch_Seq, rmatch_Grp in Hm.
  apply rmatch_Plus_inv in Hm as (t & r & Hrest & Hne & Hall & Hk).
  cbn beta in Hk. apply label_rest_shape in Hk as (sp & sp' & g & Hr & ?).
  cbn [advance c_rest] in Hr. subst r.
  by exists t, sp, sp', g.
Qed.

Lemma trimStart_app_spaces (w s : string) :
  str_forall is_space w = true -> trimStart (w +:+ s) = trimStart s.
Proof.
  induction w as [|c w IH]; [done|]. cbn.
  intros [Hc Hw]%andb_true_iff. rewrite Hc. by apply IH.
Qed.

Lemma label_split_shape ident sp sp' g :
  ident ≠ EmptyString -> str_forall is_label_char ident = true ->
  str_forall is_space sp = true -> str_forall is_space sp' = true ->
  str_forall is_dot g = true ->
  label_split (ident +:+ sp +:+ ":" +:+ sp' +:+ g) = Some (ident, trimStart g).
Proof.
  intros Hne Hid Hsp Hsp' Hg. unfold label_split.
  rewrite (span_run is_label_char ident (sp +:+ ":" +:+ sp' +:+ g)); [|done|].
  - destruct ident; [done|]. cbn [is_empty].
    rewrite trimStart_app_spaces by done. cbn [String.append trimStart].
    change (is_space ":") with false. cbv iota.
    rewrite trimStart_app_spaces by done. cbn [Ascii.eqb].
    change (Ascii.eqb ":" ":") with true.
    by rewrite str_forall_trimStart.
  - intros c. rewrite str_head_app. destruct sp as [|x sp].
    + cbn. by intros [= <-].
    + cbn in *. intros [= <-]. apply andb_true_iff in Hsp as [Hx _].
      by apply space_not_label.
Qed.

Lemma label_split_Some line ident trailing :
  label_split line = Some (ident, trailing) ->
  exists m,
    exec labelPattern line 0 = Some m /\
    m_groups m = [(2, trailing); (1, ident)].
Proof.
  unfold label_split.
  pose proof (span_app is_label_char line) as Hline.
  pose proof (span_forall is_label_char line) as Hid.
  destruct (span is_label_char line) as [id r]. cbn [fst snd] in *.
  destruct (is_empty id) eqn:Hne; [done|].
  pose proof (span_app is_space r) as Hr.
  pose proof (span_forall is_space r) as Hsp.
  rewrite span_space_trimStart in Hr.
  destruct (trimStart r) as [|c r2] eqn:Hts; [done|].
  destruct (Ascii.eqb_spec c ":"%char) as [->|]; [|done]. cbn [andb].
  destruct (str_forall is_dot (trimStart r2)) eqn:Hdot; [|done].
  intros [= <- <-].
  pose proof (span_app is_space r2) as Hr2.
  pose proof (span_forall is_space r2) as Hsp2.
  rewrite span_space_trimStart in Hr2.
  assert (line = id +:+ (span is_space r).1 +:+ ":" +:+
                 (span is_space r2).1 +:+ trimStart r2) as ->.
  { rewrite Hr2. cbn [String.append]. by rewrite Hr, Hline. }
  apply (labelPattern_forward id _ _ (trimStart r2)); try done.
  - by destruct id.
  - intros x. apply trimStart_head.
Qed.

Lemma labelPattern_groups (line : string) :
  m_groups <$> exec labelPattern line 0 =
    (fun it => [(2, it.2); (1, it.1)]) <$> label_split line.
Proof.
  destruct (label_split line) as [[ident trailing]|] eqn:Hs.
  - apply label_split_Some in Hs as (m & -> & Hg). cbn. by rewrite Hg.
  - destruct (exec labelPattern line 0) as [m|] eqn:He; [|done].
    apply exec_Some in He as (i & Hi & Hm & _).
    apply labelPattern_shape in Hm as (Hpos & id & sp & sp' & g & Hr & ?).
    rewrite cursor_at_pos in Hpos by lia. cbn in Hpos. subst i.
    rewrite cursor_at_0 in Hr. cbn [c_rest] in Hr. subst line.
    rewrite label_split_shape in Hs by tauto. done.
Qed.

Lemma labelPattern_no_colon (line : string) :
  str_lacks ":" line = true -> exec labelPattern line 0 = None.
Proof.
  intros Hlacks.
  destruct (exec labelPattern line 0) as [m|] eqn:He; [|done]. exfalso.
  apply exec_Some in He as (i & Hi & Hm & _).
  apply labelPattern_shape in Hm as (Hpos & id & sp & sp' & g & Hr & _).
  rewrite cursor_at_pos in Hpos by lia. cbn in Hpos. subst i.
  rewrite cursor_at_0 in Hr. cbn [c_rest] in Hr. subst line.
  unfold str_lacks in Hlacks.
  rewrite !str_forall_app in Hlacks.
  by repeat (apply andb_true_iff in Hlacks as [? Hlacks]).
Qed.

(** X16.  The label pattern matches a line exactly when the line starts with
    a run of identifier characters that is followed, after optional
    white space, by a colon; its groups are then the longest such run
    and the text after the colon without its leading white space.  A
    line without colon is no label line. *)
Theorem label_line :
  forall line : string,
    m_groups <$> exec labelPattern line 0 =
      (fun it => [(2, it.2); (1, it.1)]) <$> label_split line /\
    (str_lacks ":" line = true -> exec labelPattern line 0 = None).
Proof.
  intros line. split.
  - apply labelPattern_groups.
  - apply labelPattern_no_colon.
Qed.

Lemma label_line_witness : exec labelPattern "say hello" 0 = None.
Proof. exact (proj2 (label_line "say hello") eq_refl). Defined.

(** ** Sources without labels, blank sources *)

Lemma str_forall_list p (s : string) :
  str_forall p s = true <->
  Forall (fun c => p c = true) (list_ascii_of_string s).
Proof.
  induction s as [|c s IH]; cbn.
  - split; [by constructor|done].
  - rewrite andb_true_iff, IH. split.
    + intros [? ?]. by constructor.
    + by inversion 1.
Qed.

Lemma stripComments_forall p (line : string) (b : bool) :
  str_forall p line = true ->
  str_forall p (stripComments line b).1 = true.
Proof.
  rewrite !str_forall_list, !Forall_forall. intros H c Hc.
  apply H. eapply elem_of_sublist; [exact Hc|].
  apply (stripComments_sublist_fuel (String.length line)). lia.
Qed.

Lemma replace_ws_runs_forall p b (s : string) :
  p SP = true ->
  str_forall p s = true -> str_forall p (replace_ws_runs b s) = true.
Proof.
  intros Hsp. revert b. induction s as [|c s IH]; intros b; [done|]. cbn.
  intros [Hc Hs]%andb_true_iff.
  destruct (is_space c); [destruct b|]; cbn; rewrite ?Hsp, ?Hc; by apply IH.
Qed.

Lemma collapse_forall p (s : string) :
  p SP = true -> str_forall p s = true -> str_forall p (collapse s) = true.
Proof.
  intros Hsp Hs. unfold collapse, trim.
  by apply str_forall_trimEnd, str_forall_trimStart, replace_ws_runs_forall.
Qed.

Lemma split_lines_forall p (s : string) :
  str_forall p s = true -> Forall (fun l => str_forall p l = true) (split_lines s).
Proof.
  induction s as [|c s IH]; cbn [str_forall split_lines].
  - intros _. by repeat constructor.
  - intros [Hc Hs]%andb_true_iff. specialize (IH Hs).
    destruct (Ascii.eqb c LF); [by constructor|].
    destruct (_ && _); [done|].
    destruct (split_lines s) as [|l ls].
    + repeat constructor. cbn. by rewrite Hc.
    + inversion IH; subst. constructor; [|done]. cbn. by rewrite Hc.
Qed.

Lemma scan_lines_plain lines lineNo s :
  Forall (fun l => str_lacks ":" l = true) lines ->
  (1 <= lineNo)%Z ->
  currentScope s = "MAIN" ->
  Forall (fun e => e_from e = "MAIN") (b_edges (builder s)) ->
  let s' := scan_lines lines lineNo s in
  currentScope s' = "MAIN" /\
  Forall (fun e => e_from e = "MAIN") (b_edges (builder s')).
Proof.
  intros Hlines. revert lineNo s.
  induction Hlines as [|raw lines Hraw Hlines IH]; intros lineNo s Hl Hs He;
    [done|].
  cbn [scan_lines]. apply IH; clear IH.
  - lia.
  - unfold scan_line.
    destruct (stripComments raw (inBlockComment s)) as [stripped inBlock] eqn:Hst.
    destruct (is_empty (collapse stripped)); [done|].
    rewrite (labelPattern_no_colon (collapse stripped)); [done|].
    apply collapse_forall; [done|].
    pose proof (stripComments_forall _ raw (inBlockComment s) Hraw) as H.
    by rewrite Hst in H.
  - unfold scan_line.
    destruct (stripComments raw (inBlockComment s)) as [stripped inBlock] eqn:Hst.
    destruct (is_empty (collapse stripped)); [done|].
    rewrite (labelPattern_no_colon (collapse stripped)).
    + cbn [builder]. rewrite Hs.
      apply (processStatementBlock_ind
               (fun _ scope b =>
                  scope = "MAIN" ->
                  Forall (fun e => e_from e = "MAIN") (b_edges b))); auto.
      * intros l scope b _ H -> .
        destruct (addEdge_edges
                    (upsert b "DYNAMIC_CALL" "DYNAMIC_CALL" l "dynamic")
                    "MAIN" "DYNAMIC_CALL" "calls-dynamic" l) as [_ [-> | ->]];
          cbn; [auto|].
        apply Forall_app. split; [auto|]. by apply Forall_singleton.
      * intros l scope b t _ H _ _ _ _ -> .
        destruct (addEdge_edges (upsert b t t l "function")
                    "MAIN" t "calls" l) as [_ [-> | ->]]; cbn; [auto|].
        apply Forall_app. split; [auto|]. by apply Forall_singleton.
    + apply collapse_forall; [done|].
      pose proof (stripComments_forall _ raw (inBlockComment s) Hraw) as H.
      by rewrite Hst in H.
Qed.

(** X17.  A source without colon has no label: the scope stays [MAIN] and
    every edge of the graph leaves [MAIN]. *)
Theorem parse_without_labels :
  forall (localeCompare : string -> string -> Z) (source : string),
    str_lacks ":" source = true ->
    currentScope (scan source) = "MAIN" /\
    Forall (fun e => e_from e = "MAIN")
      (edges (parseRexxControlFlow localeCompare source)).
Proof.
  intros lc source Hs. apply scan_lines_plain; [|done|done|by constructor].
  by apply split_lines_forall.
Qed.

Lemma parse_without_labels_witness :
  currentScope (scan "call a; call b") = "MAIN" /\
  Forall (fun e => e_from e = "MAIN")
    (edges (parseRexxControlFlow code_unit_compare "call a; call b")).
Proof.
  exact (parse_without_labels code_unit_compare "call a; call b" eq_refl).
Defined.

Lemma space_no_open (line : string) :
  str_forall is_space line = true -> has_open line = false.
Proof.
  induction line as [|c s IH]; [done|]. cbn.
  intros [Hc Hs]%andb_true_iff. rewrite (IH Hs), orb_false_r.
  destruct (Ascii.eqb_spec c "/"%char) as [->|]; [done|done].
Qed.

Lemma scan_lines_blank lines lineNo s :
  Forall (fun l => str_forall is_space l = true) lines ->
  inBlockComment s = false ->
  scan_lines lines lineNo s = s.
Proof.
  intros Hlines. revert lineNo s.
  induction Hlines as [|raw lines Hraw Hlines IH]; intros lineNo s Hs; [done|].
  cbn [scan_lines].
  assert (scan_line raw lineNo s = s) as ->; [|by apply IH].
  unfold scan_line. rewrite Hs.
  rewrite (stripComments_plain raw (space_no_open raw Hraw)).
  rewrite collapse_is_empty, Hraw. destruct s. cbn in *. by subst.
Qed.

(** X18.  A source of white space only, the empty one included, gives the
    graph of the entry node alone. *)
Theorem parse_blank :
  forall (localeCompare : string -> string -> Z) (source : string),
    str_forall is_space source = true ->
    parseRexxControlFlow localeCompare source = mkGraph [main_node] [].
Proof.
  intros lc source Hs. unfold parseRexxControlFlow, scan.
  rewrite scan_lines_blank; [done| |done].
  by apply split_lines_forall.
Qed.

Lemma parse_blank_witness :
  parseRexxControlFlow code_unit_compare
    (String LF (String CR (String LF "   ")))
  = mkGraph [main_node] [].
Proof.
  exact (parse_blank code_unit_compare (String LF (String CR (String LF "   ")))
           eq_refl).
Defined.

(** ** The call loop ends *)

Lemma str_drop_length n (s : string) :
  String.length (str_drop n s) = String.length s - n.
Proof.
  revert s. induction n as [|n IH]; intros [|c s]; cbn; try done; lia.
Qed.

Lemma str_prefix_length (pre s : string) :
  String.prefix pre s = true -> String.length pre <= String.length s.
Proof.
  intros H%str_prefix_split. apply (f_equal String.length) in H.
  rewrite str_length_app in H. lia.
Qed.

Lemma call_site_size cur m :
  call_site_at cur = Some m ->
  c_pos cur + 5 <= m_end m <= c_pos cur + String.length (c_rest cur).
Proof.
  intros Hm.
  destruct (call_site_shape _ _ Hm) as (w & x & Hp & _ & -> & Hx).
  apply str_prefix_length in Hp. split; [|lia].
  rewrite !str_length_app. cbn [String.length].
  assert (x ≠ EmptyString) as Hne.
  { destruct Hx as [->|[->|[_ Hg]]]; [done|done|].
    destruct (call_site_groups _ _ Hm) as [Hg'|[Hg'|(t & Hg' & Hne & _)]];
      rewrite Hg' in Hg; [done|done|].
    cbn in Hg. by injection Hg as <-. }
  destruct x; [done|]. cbn. lia.
Qed.

Lemma call_sites_bound fuel upper lastIndex :
  lastIndex <= String.length upper ->
  Forall (fun m => m_index m + 5 <= m_end m <= String.length upper)
    (call_sites fuel upper lastIndex) /\
  5 * length (call_sites fuel upper lastIndex) + lastIndex
  <= String.length upper.
Proof.
  revert lastIndex. induction fuel as [|fuel IH]; intros lastIndex Hl.
  - cbn. split; [constructor|lia].
  - cbn [call_sites].
    destruct (exec callPattern upper lastIndex) as [m|] eqn:He.
    + pose proof (exec_call_progress _ _ _ He) as Hprog.
      apply exec_Some in He as (i & Hi & Hm & Hidx & _).
      rewrite match_at_callPattern in Hm. apply call_site_size in Hm.
      rewrite cursor_at_pos, cursor_at_rest, str_drop_length in Hm by lia.
      destruct (IH (m_end m)) as [Hall Hlen]; [lia|].
      split; [constructor; [lia|done]|]. cbn [length]. lia.
    + cbn. split; [constructor|lia].
Qed.

(** X19.  The call loop ends.  Every call site is at least five
    characters long and ends within the upper-cased statement, the text
    that the pattern runs on, so that this text has at most a fifth of
    its length in call sites; and the loop with any bound above the
    length of that text does what the loop of the statement does. *)
Theorem call_loop_ends :
  forall segment : string,
    let upper := toUpperCase segment in
    Forall (fun m => m_index m + 5 <= m_end m <= String.length upper)
      (segment_calls segment) /\
    5 * length (segment_calls segment) <= String.length upper /\
    (forall (fuel : nat) (lineNo : Z) (scope : string) (b : Builder),
       String.length upper < fuel ->
       call_loop fuel upper 0 lineNo scope b
       = process_segment lineNo scope b segment).
Proof.
  intros segment upper.
  destruct (call_sites_bound (S (String.length upper)) upper 0)
    as [Hall Hn]; [lia|].
  split; [done|]. split; [unfold segment_calls; cbn zeta; fold upper; lia|].
  intros fuel lineNo scope b Hfuel. unfold process_segment.
  by rewrite call_loop_fuel by lia.
Qed.

Lemma call_loop_ends_witness :
  call_loop 100 (toUpperCase "call a call b") 0 1 "MAIN"
    (builder initial_scanner)
  = process_segment 1 "MAIN" (builder initial_scanner) "call a call b".
Proof.
  refine (proj2 (proj2 (call_loop_ends "call a call b")) 100 1%Z "MAIN"
            (builder initial_scanner) _).
  cbn. lia.
Defined.

(** ** Nodes are kept *)

Lemma nodes_kept_upsert m0 l scope scope' b id kind :
  nodes_kept m0 l scope b ->
  nodes_kept m0 l scope' (upsert b id id l kind).
Proof.
  intros [Hlines Hkept]. split.
  - apply Forall_forall. intros kv Hkv.
    pose proof (proj1 (Forall_forall _ _) Hlines) as Hall.
    apply upsertNode_elem in Hkv as [Hkv|[->|(v & Hv & ->)]].
    + by apply Hall.
    + cbn. lia.
    + specialize (Hall _ Hv). cbn in *. rewrite merge_node_eq. cbn. lia.
  - intros k n Hn. destruct (Hkept k n Hn) as (n' & Hn' & Hid & Hlab & Hline & Hkind).
    cbn [upsert b_nodes].
    destruct (String.eqb_spec k id) as [->|Hne].
    + rewrite upsertNode_get, Hn'. eexists. split; [done|].
      rewrite merge_node_eq.
      pose proof (proj1 (Forall_forall _ _) Hlines _ (map_get_elem _ _ _ Hn'))
        as Hle. cbn in Hle.
      repeat split; cbn; [done|done|lia|].
      destruct (negb _ && _); [by right|done].
    + rewrite upsertNode_get_other by done. by exists n'.
Qed.

Lemma nodes_kept_call m0 l scope b id kind to type :
  nodes_kept m0 l scope b ->
  nodes_kept m0 l scope (addEdge (upsert b id id l kind) scope to type l).
Proof.
  intros H. unfold nodes_kept.
  destruct (addEdge_edges (upsert b id id l kind) scope to type l) as [-> _].
  by apply (nodes_kept_upsert m0 l scope scope).
Qed.

Lemma nodes_kept_scan_lines m0 raw lines l s :
  (1 <= l)%Z ->
  nodes_kept m0 l (currentScope s) (builder s) ->
  let s' := scan_lines (raw :: lines) l s in
  nodes_kept m0 (l + Z.of_nat (length lines)) (currentScope s') (builder s').
Proof.
  apply (scan_lines_ind (nodes_kept m0)).
  - intros l0 l' scope b Hl [Hlines Hkept]. split; [|done].
    eapply Forall_impl; [exact Hlines|]. intros kv ?. cbn in *. lia.
  - intros l0 scope b id _ H _ _. by eapply nodes_kept_upsert.
  - intros l0 scope b _ H. by apply nodes_kept_call.
  - intros l0 scope b t _ H _ _ _ _. by apply nodes_kept_call.
Qed.

Lemma scan_prefix_lines (lines : list string) :
  Forall (fun kv => (n_line kv.2 <= 1 + Z.of_nat (length lines))%Z)
    (b_nodes (builder (scan_lines lines 1 initial_scanner))).
Proof.
  destruct lines as [|raw lines].
  - cbn. apply Forall_singleton. cbn. lia.
  - destruct (nodes_kept_scan_lines [] raw lines 1 initial_scanner) as [H _];
      [lia| |].
    + split; [|done]. apply Forall_singleton. cbn. lia.
    + eapply Forall_impl; [exact H|].
      intros kv Hkv. cbn [length] in *. cbn in Hkv. lia.
Qed.

(** X20.  The scan keeps its nodes.  A node that is in the map after the
    first [k] lines is a node of the graph, with the same id, label and
    line; its kind is the same or has become [function]. *)
Theorem parse_nodes_kept :
  forall (localeCompare : string -> string -> Z) (source : string)
         (k : nat) (id : string) (n : Node),
    map_get
      (b_nodes (builder (scan_lines (take k (split_lines source)) 1
                           initial_scanner))) id = Some n ->
    exists n',
      node_of (parseRexxControlFlow localeCompare source) id n' /\
      node_later n n'.
Proof.
  intros lc source k id n Hn.
  set (m0 := b_nodes (builder (scan_lines (take k (split_lines source)) 1
                                 initial_scanner))) in *.
  assert (exists n', map_get (b_nodes (builder (scan source))) id = Some n' /\
                     node_later n n') as (n' & Hn' & Hlater).
  { assert (scan source =
            scan_lines (drop k (split_lines source))
              (1 + Z.of_nat (length (take k (split_lines source))))
              (scan_lines (take k (split_lines source)) 1 initial_scanner))
      as -> by (unfold scan; by rewrite <- scan_lines_app, take_drop).
    destruct (drop k (split_lines source)) as [|raw lines].
    - cbn [scan_lines]. exists n. split; [done|]. by repeat split; auto.
    - eapply (nodes_kept_scan_lines m0 raw lines); [lia| |exact Hn].
      split.
      + eapply Forall_impl; [apply scan_prefix_lines|].
        intros kv ?. cbn in *. lia.
      + intros id' x Hx. exists x. split; [done|]. by repeat split; auto. }
  exists n'. split; [|done]. by apply scan_node_of.
Qed.

Lemma parse_nodes_kept_witness :
  exists n',
    node_of
      (parseRexxControlFlow code_unit_compare
         ("call (x)" +:+ str1 LF +:+ "dynamic_call: call a"))
      "DYNAMIC_CALL" n' /\
    node_later (mkNode "DYNAMIC_CALL" "DYNAMIC_CALL" 1 "dynamic") n'.
Proof.
  exact (parse_nodes_kept code_unit_compare
           ("call (x)" +:+ str1 LF +:+ "dynamic_call: call a") 1
           "DYNAMIC_CALL" (mkNode "DYNAMIC_CALL" "DYNAMIC_CALL" 1 "dynamic")
           eq_refl).
Defined.

(** ** Texts without the call keyword *)

Lemma str_prefix_cons a w b s :
  String.prefix (String a w) (String b s) = Ascii.eqb a b && String.prefix w s.
Proof.
  change (String.prefix (String a w) (String b s))
    with (if ascii_dec a b then String.prefix w s else false).
  destruct (ascii_dec a b) as [->|Hne].
  - by rewrite Ascii.eqb_refl.
  - by rewrite (proj2 (Ascii.eqb_neq a b) Hne).
Qed.

Lemma str_prefix_nil_r w : String.prefix w EmptyString = is_empty w.
Proof. by destruct w. Qed.

Lemma str_prefix_app_l w s t :
  String.prefix w s = true -> String.prefix w (s +:+ t) = true.
Proof.
  revert s. induction w as [|a w IH]; intros [|b s]; try done.
  - by destruct t.
  - cbn [String.append]. rewrite !str_prefix_cons.
    intros [-> H]%andb_true_iff. by rewrite (IH _ H).
Qed.

Lemma str_contains_cons sub c s :
  str_contains sub s = true -> str_contains sub (String c s) = true.
Proof. intros H. cbn [str_contains]. rewrite H. apply orb_true_r. Qed.

Lemma str_contains_app_r sub s t :
  str_contains sub t = true -> str_contains sub (s +:+ t) = true.
Proof.
  intros H. induction s as [|c s IH]; [done|].
  cbn [String.append]. by apply str_contains_cons.
Qed.

Lemma str_contains_app_l sub s t :
  str_contains sub s = true -> str_contains sub (s +:+ t) = true.
Proof.
  induction s as [|c s IH].
  - destruct sub; [|done]. intros _. by destruct t.
  - cbn [str_contains String.append].
    intros [H|H]%orb_true_iff.
    + pose proof (str_prefix_app_l sub (String c s) t H) as H'.
      cbn [String.append] in H'. by rewrite H'.
    + rewrite (IH H). apply orb_true_r.
Qed.

Lemma str_contains_drop sub n s :
  String.prefix sub (str_drop n s) = true -> str_contains sub s = true.
Proof.
  revert s. induction n as [|n IH]; intros s.
  - cbn [str_drop]. destruct s; cbn [str_contains]; by intros ->.
  - destruct s as [|c s]; cbn [str_drop].
    + intros H. cbn [str_contains]. by rewrite H.
    + intros H. apply str_contains_cons. by apply IH.
Qed.

Lemma str_contains_trimStart sub s :
  str_contains sub (trimStart s) = true -> str_contains sub s = true.
Proof.
  induction s as [|c s IH]; [done|]. cbn [trimStart].
  destruct (is_space c); [|done].
  intros H. apply str_contains_cons. by apply IH.
Qed.

Lemma trimEnd_prefix (s : string) : exists r, s = trimEnd s +:+ r.
Proof.
  induction s as [|c s [r IH]]; [by exists EmptyString|]. cbn [trimEnd].
  destruct (is_empty (trimEnd s) && is_space c).
  - by exists (String c s).
  - exists r. cbn [String.append]. by rewrite <- IH.
Qed.

Lemma str_contains_trimEnd sub s :
  str_contains sub (trimEnd s) = true -> str_contains sub s = true.
Proof.
  intros H. destruct (trimEnd_prefix s) as [r Hr]. rewrite Hr.
  by apply str_contains_app_l.
Qed.

Section Words.
(** A word: not empty, without white space. *)
Variable w : string.
Hypothesis w_nonempty : w ≠ EmptyString.
Hypothesis w_solid : str_forall (fun c => negb (is_space c)) w = true.

Lemma word_prefix_runs (v s : string) :
  str_forall (fun c => negb (is_space c)) v = true ->
  String.prefix v (replace_ws_runs false s) = true ->
  String.prefix v s = true.
Proof.
  revert s. induction v as [|a v IH]; intros s Hv; [by destruct s|].
  cbn [str_forall] in Hv. apply andb_true_iff in Hv as [Ha Hv].
  apply negb_true_iff in Ha.
  destruct s as [|x s]; [done|]. cbn [replace_ws_runs].
  destruct (is_space x) eqn:Hx.
  - rewrite str_prefix_cons. intros [Heq _]%andb_true_iff.
    apply Ascii.eqb_eq in Heq. subst a. done.
  - rewrite !str_prefix_cons. intros [-> H]%andb_true_iff.
    by rewrite (IH s Hv H).
Qed.

Lemma word_not_at_space (c : ascii) (s : string) :
  is_space c = true -> String.prefix w (String c s) = false.
Proof.
  intros Hc. destruct w as [|a v]; [done|].
  cbn [str_forall] in w_solid. apply andb_true_iff in w_solid as [Ha _].
  rewrite str_prefix_cons.
  destruct (Ascii.eqb_spec a c) as [->|]; [|done].
  by rewrite Hc in Ha.
Qed.

Lemma word_in_runs b (s : string) :
  str_contains w (replace_ws_runs b s) = true -> str_contains w s = true.
Proof.
  revert b. induction s as [|x s IH]; intros b.
  - by destruct w.
  - cbn [replace_ws_runs]. destruct (is_space x) eqn:Hx.
    + destruct b.
      * intros H. apply str_contains_cons. by eapply IH.
      * cbn [str_contains]. rewrite (word_not_at_space SP) by done.
        cbn [orb]. intros H. rewrite (IH _ H). apply orb_true_r.
    + cbn [str_contains]. intros [H|H]%orb_true_iff.
      * assert (String.prefix w (String x s) = true) as ->; [|done].
        apply word_prefix_runs; [done|]. cbn [replace_ws_runs].
        by rewrite Hx.
      * rewrite (IH _ H). apply orb_true_r.
Qed.

Lemma word_in_collapse (s : string) :
  str_contains w (collapse s) = true -> str_contains w s = true.
Proof.
  unfold collapse, trim.
  intros H%str_contains_trimEnd%str_contains_trimStart.
  by eapply word_in_runs.
Qed.

Lemma word_in_statements text out cur quote :
  str_contains w (cur +:+ text) = false ->
  Forall (fun s => str_contains w s = false) out ->
  Forall (fun s => str_contains w s = false) (split_loop text out cur quote).
Proof.
  revert out cur quote.
  assert (forall out cur,
            str_contains w cur = false ->
            Forall (fun s => str_contains w s = false) out ->
            Forall (fun s => str_contains w s = false) (push_stmt out cur))
    as Hpush.
  { intros out cur Hcur Hout. unfold push_stmt.
    destruct (is_empty (collapse cur)); [done|].
    apply Forall_app. split; [done|]. apply Forall_singleton.
    destruct (str_contains w (collapse cur)) eqn:H; [|done].
    by rewrite (word_in_collapse _ H) in Hcur. }
  induction text as [|ch text IH]; intros out cur quote Hcur Hout;
    cbn [split_loop].
  - rewrite str_app_nil_r in Hcur. by apply Hpush.
  - assert (str_contains w ((cur +:+ str1 ch) +:+ text) = false) as Hcur'
      by (by rewrite str_app_assoc).
    destruct quote as [q|]; [by apply IH|].
    destruct (Ascii.eqb ch SQUOTE || Ascii.eqb ch DQUOTE); [by apply IH|].
    destruct (Ascii.eqb ch ";"%char); [|by apply IH].
    apply IH.
    + destruct (str_contains w text) eqn:H; [|done].
      by rewrite (str_contains_app_r w cur (String ch text)
                    (str_contains_cons w ch text H)) in Hcur.
    + apply Hpush; [|done].
      destruct (str_contains w cur) eqn:H; [|done].
      by rewrite (str_contains_app_l w cur (String ch text) H) in Hcur.
Qed.
End Words.

Lemma segment_without_keyword (segment : string) :
  str_contains "CALL" (toUpperCase segment) = false ->
  segment_calls segment = [].
Proof.
  intros Hno. unfold segment_calls. cbn zeta. cbn [call_sites].
  destruct (exec callPattern (toUpperCase segment) 0) as [m|] eqn:He; [|done].
  apply exec_Some in He as (i & _ & Hm & _).
  rewrite match_at_callPattern in Hm. unfold call_site_at in Hm.
  rewrite cursor_at_rest in Hm.
  destruct (String.prefix "CALL" (str_drop i (toUpperCase segment))) eqn:Hp.
  - by rewrite (str_contains_drop _ _ _ Hp) in Hno.
  - by rewrite andb_false_r in Hm.
Qed.

Lemma block_without_keyword text lineNo scope b :
  str_contains "CALL" (toUpperCase text) = false ->
  processStatementBlock text lineNo scope b = b.
Proof.
  intros Hno. rewrite processStatementBlock_fold.
  assert (Forall (fun s => str_contains "CALL" s = false)
            (splitStatements (toUpperCase text))) as Hall.
  { apply (word_in_statements "CALL"); [done|done|done|by constructor]. }
  rewrite splitStatements_upper in Hall. apply Forall_fmap in Hall.
  revert b. induction Hall as [|segment segments Hs Hall IH]; intros b; [done|].
  cbn [fold_left]. rewrite (segment_without_keyword segment Hs). apply IH.
Qed.

(** X21.  A text in which the letters of the call keyword do not stand
    together, in either case, has no call site: the statement block
    leaves the nodes, the edges and the edge keys as they are. *)
Theorem processStatementBlock_without_keyword :
  forall (text : string) (lineNo : Z) (scope : string) (b : Builder),
    str_contains "CALL" (toUpperCase text) = false ->
    Forall (fun segment => segment_calls segment = []) (splitStatements text) /\
    processStatementBlock text lineNo scope b = b.
Proof.
  intros text lineNo scope b Hno. split; [|by apply block_without_keyword].
  assert (Forall (fun s => str_contains "CALL" s = false)
            (splitStatements (toUpperCase text))) as Hall.
  { apply (word_in_statements "CALL"); [done|done|done|by constructor]. }
  rewrite splitStatements_upper in Hall. apply Forall_fmap in Hall.
  eapply Forall_impl; [exact Hall|]. intros segment.
  apply segment_without_keyword.
Qed.

Lemma processStatementBlock_without_keyword_witness :
  Forall (fun segment => segment_calls segment = [])
    (splitStatements "say 'cal l'; rec all = ca + ll") /\
  processStatementBlock "say 'cal l'; rec all = ca + ll" 1 "MAIN"
    (builder initial_scanner)
  = builder initial_scanner.
Proof.
  exact (processStatementBlock_without_keyword
           "say 'cal l'; rec all = ca + ll" 1 "MAIN"
           (builder initial_scanner) eq_refl).
Defined.

Lemma has_open_lines (s : string) :
  has_open s = false -> Forall (fun l => has_open l = false) (split_lines s).
Proof.
  induction s as [|c s IH]; cbn [has_open split_lines].
  - by repeat constructor.
  - intros [H1 H2]%orb_false_iff. specialize (IH H2).
    destruct (Ascii.eqb c LF); [by constructor|].
    destruct (Ascii.eqb c CR && bool_decide (str_head s = Some LF)); [done|].
    destruct (split_lines s) as [|l ls] eqn:Hs.
    { by destruct (split_lines_nonempty s). }
    apply Forall_cons in IH as [Hl Hls]. constructor; [|done].
    cbn [has_open]. rewrite Hl, orb_false_r.
    destruct (Ascii.eqb c "/"); [|done]. cbn [andb] in *.
    apply bool_decide_eq_false. intros Hh.
    apply (split_lines_head s l ls) in Hh; [|done].
    by rewrite bool_decide_true in H1.
Qed.

Lemma split_lines_first (s l : string) (ls : list string) :
  split_lines s = l :: ls -> exists r, s = l +:+ r.
Proof.
  revert l ls. induction s as [|c s IH]; intros l ls; cbn [split_lines].
  - intros [= <- <-]. by exists EmptyString.
  - destruct (Ascii.eqb c LF).
    { intros [= <- <-]. by exists (String c s). }
    destruct (Ascii.eqb c CR && bool_decide (str_head s = Some LF)) eqn:Hcr.
    + intros Hs. apply andb_true_iff in Hcr as [_ Hh].
      apply bool_decide_eq_true in Hh.
      destruct s as [|d s']; [done|]. injection Hh as ->.
      cbn [split_lines] in Hs. change (Ascii.eqb LF LF) with true in Hs.
      cbv iota in Hs. injection Hs as <- <-. by exists (String c (String LF s')).
    + destruct (split_lines s) as [|l' ls'] eqn:Hs.
      { by destruct (split_lines_nonempty s). }
      intros [= <- <-]. destruct (IH l' ls' eq_refl) as [r ->].
      by exists r.
Qed.

Lemma str_contains_lines sub (s : string) :
  str_contains sub s = false ->
  Forall (fun l => str_contains sub l = false) (split_lines s).
Proof.
  induction s as [|c s IH]; cbn [split_lines].
  - intros H. by repeat constructor.
  - cbn [str_contains]. intros [H1 H2]%orb_false_iff. specialize (IH H2).
    destruct (Ascii.eqb c LF).
    { constructor; [|done]. cbn [str_contains].
      destruct sub; [done|]. done. }
    destruct (Ascii.eqb c CR && bool_decide (str_head s = Some LF)); [done|].
    destruct (split_lines s) as [|l ls] eqn:Hs.
    { by destruct (split_lines_nonempty s). }
    apply Forall_cons in IH as [Hl Hls]. constructor; [|done].
    cbn [str_contains]. rewrite Hl, orb_false_r.
    destruct (split_lines_first s l ls Hs) as [r ->].
    destruct (String.prefix sub (String c l)) eqn:Hp; [|done].
    pose proof (str_prefix_app_l sub (String c l) r Hp) as Hp'.
    cbn [String.append] in Hp'. by rewrite Hp' in H1.
Qed.

Lemma scan_line_without_keyword raw lineNo s :
  has_open raw = false ->
  str_contains "CALL" (toUpperCase raw) = false ->
  inBlockComment s = false ->
  inBlockComment (scan_line raw lineNo s) = false /\
  b_edges (builder (scan_line raw lineNo s)) = b_edges (builder s).
Proof.
  intros Hopen Hno Hs. unfold scan_line. rewrite Hs.
  rewrite (stripComments_plain raw Hopen).
  assert (str_contains "CALL" (toUpperCase (collapse raw)) = false) as Hline.
  { rewrite <- collapse_upper.
    destruct (str_contains "CALL" (collapse (toUpperCase raw))) eqn:H; [|done].
    by rewrite (word_in_collapse "CALL" ltac:(done) eq_refl _ H) in Hno. }
  destruct (is_empty (collapse raw)); [done|].
  destruct (exec labelPattern (collapse raw) 0) as [m|] eqn:He.
  - pose proof (labelPattern_groups (collapse raw)) as Hg.
    rewrite He in Hg. apply exec_Some in He as (i & Hi & Hm & _).
    apply labelPattern_shape in Hm
      as (Hpos & ident & sp & sp' & g & Hr & Hne & Hid & Hsp & Hsp' & Hdot).
    rewrite cursor_at_pos in Hpos by lia. cbn in Hpos. subst i.
    rewrite cursor_at_0 in Hr. cbn [c_rest] in Hr. rewrite Hr in Hg, Hline.
    rewrite label_split_shape in Hg by done. cbn in Hg. injection Hg as ->.
    cbn [group Nat.eqb default from_option id].
    assert (str_contains "CALL" (toUpperCase (collapse (trimStart g))) = false)
      as Htr.
    { rewrite <- collapse_upper.
      destruct (str_contains "CALL" (collapse (toUpperCase (trimStart g))))
        eqn:H; [|done].
      apply (word_in_collapse "CALL" ltac:(done) eq_refl) in H.
      unfold toUpperCase in H.
      rewrite <- (str_map_trimStart _ upper_char_space) in H.
      apply str_contains_trimStart in H.
      unfold toUpperCase in Hline. rewrite !str_map_app in Hline.
      apply (str_contains_app_r "CALL" (str_map upper_char sp')) in H.
      apply (str_contains_app_r "CALL" (str_map upper_char ":")) in H.
      apply (str_contains_app_r "CALL" (str_map upper_char sp)) in H.
      apply (str_contains_app_r "CALL" (str_map upper_char ident)) in H.
      revert H. by rewrite Hline. }
    destruct (is_empty (collapse (trimStart g))); [done|]. cbn.
    by rewrite block_without_keyword.
  - cbn. by rewrite block_without_keyword.
Qed.

Lemma scan_lines_without_keyword lines lineNo s :
  Forall (fun l => has_open l = false) lines ->
  Forall (fun l => str_contains "CALL" (toUpperCase l) = false) lines ->
  inBlockComment s = false ->
  b_edges (builder (scan_lines lines lineNo s)) = b_edges (builder s).
Proof.
  intros Hopen. revert lineNo s.
  induction Hopen as [|raw lines Hraw Hopen IH]; intros lineNo s Hno Hs; [done|].
  apply Forall_cons in Hno as [Hno1 Hno].
  cbn [scan_lines].
  destruct (scan_line_without_keyword raw lineNo s Hraw Hno1 Hs) as [Hf He].
  rewrite IH by done. exact He.
Qed.

(** X22.  A source without the opening marker of a comment, in which the
    letters of the call keyword do not stand together in either case,
    gives a graph without edges. *)
Theorem parse_without_keyword :
  forall (localeCompare : string -> string -> Z) (source : string),
    has_open source = false ->
    str_contains "CALL" (toUpperCase source) = false ->
    edges (parseRexxControlFlow localeCompare source) = [].
Proof.
  intros lc source Hopen Hno. unfold parseRexxControlFlow, scan. cbn [edges].
  rewrite scan_lines_without_keyword; [done| | |done].
  - by apply has_open_lines.
  - apply (str_contains_lines "CALL") in Hno.
    rewrite split_lines_upper in Hno. by apply Forall_fmap in Hno.
Qed.

Lemma parse_without_keyword_witness :
  edges (parseRexxControlFlow code_unit_compare
           ("init: say 'cal l'" +:+ str1 LF +:+ "  x = 1; return"))
  = [].
Proof.
  exact (parse_without_keyword code_unit_compare
           ("init: say 'cal l'" +:+ str1 LF +:+ "  x = 1; return")
           eq_refl eq_refl).
Defined.
